(** * proglog: the segmented commit log (package [internal/log])

    A shallow embedding of [store], [index], [segment] and [Log] and the
    properties of the storage engine that are checked against it.

    Conventions of the embedding.
    - [uint64], [uint32] and [int64] values are integers of [Z]; every
      arithmetic operation of the source that can leave the range is followed
      by the wrap-around of its type ([u64], [u32], [i64]).
    - A byte is a [Byte.byte]; a file, a slice of bytes and the memory map of
      an index are lists of bytes.
    - The data directory of a log is a finite map from file names to file
      contents; operations that touch the disk pass the directory along.
    - A Go function that returns [(T, error)] returns a [result T]; a run-time
      panic (nil dereference, slice or index out of range) is the third
      outcome [Panic]. *)

From stdpp Require Import gmap strings list fin_maps pretty sorting.
From Stdlib Require Import ZArith Lia.
From Stdlib.Strings Require Import Byte Ascii.

Open Scope Z_scope.

(** ** Machine integers *)

Definition u64 (z : Z) : Z := z mod 2 ^ 64.
Definition u32 (z : Z) : Z := z mod 2 ^ 32.
(** [int64(x)] of a [uint64] (and [int(x)] on the 64-bit targets). *)
Definition i64 (z : Z) : Z :=
  let w := u64 z in if w <? 2 ^ 63 then w else w - 2 ^ 64.

Definition is_u64 (z : Z) : Prop := 0 <= z < 2 ^ 64.

(** ** Bytes and [binary.BigEndian] *)

Abbreviation bytes := (list byte).

Definition byte_of_Z (z : Z) : byte :=
  default x00 (Byte.of_N (Z.to_N (z mod 256))).
Definition Z_of_byte (b : byte) : Z := Z.of_N (Byte.to_N b).

(** [enc.PutUint32] / [enc.PutUint64] / [binary.Write] of an unsigned value:
    the [n] low-order bytes of [v], most significant first. *)
Fixpoint be_put (n : nat) (v : Z) : bytes :=
  match n with
  | O => []
  | S k => byte_of_Z (Z.shiftr v (8 * Z.of_nat k)) :: be_put k v
  end.

(** [enc.Uint32] / [enc.Uint64]. *)
Definition be_get (bs : bytes) : Z :=
  fold_left (fun acc b => acc * 256 + Z_of_byte b) bs 0.

(** [dst[pos : pos+len(src)]] overwritten with [src]; the caller has checked
    the bounds. *)
Definition copy_at (dst : bytes) (pos : nat) (src : bytes) : bytes :=
  take pos dst ++ src ++ drop (pos + length src)%nat dst.

(** ** Errors and outcomes *)

(** The errors the package returns. Modelled from the spec:
    [api.ErrOffsetOutOfRange] is declared in the [api] package, which is not
    part of the sources at hand; it carries the requested offset. *)
Inductive error : Type :=
| EOF                              (* io.EOF *)
| ErrOffsetOutOfRange (off : Z)    (* api.ErrOffsetOutOfRange{Offset: off} *)
| ErrNotExist                      (* a path names no file *)
| ErrInvalid                       (* EINVAL of a system call *)
| ErrMarshal                       (* proto.Marshal failed *)
| ErrUnmarshal.                    (* proto.Unmarshal failed *)

Inductive result (A : Type) : Type :=
| Ok (a : A)
| Err (e : error)
| Panic.
Arguments Ok {A} a.
Arguments Err {A} e.
Arguments Panic {A}.

Definition is_Ok {A} (r : result A) : Prop :=
  match r with Ok _ => True | _ => False end.

(** ** The record type and its wire format

    Modelled from the spec: [api.Record] is generated from the protobuf schema
    of the repository, which is not part of the sources at hand; the spec
    gives it a [bytes] value and a [uint64] offset. [proto.Marshal] and
    [proto.Unmarshal] are the interface [Codec]; what the engine relies on is
    that decoding undoes encoding ([CodecLaws]). *)

Record api_Record : Type := mkRecord { Value : bytes; Offset : Z }.

Class Codec : Type := {
  marshal : api_Record -> option bytes;
  unmarshal : bytes -> option api_Record
}.

Class CodecLaws `{Codec} : Prop := {
  unmarshal_marshal : forall r p, marshal r = Some p -> unmarshal p = Some r
}.

(** ** The data directory *)

Abbreviation directory := (gmap string bytes).

(** [os.Stat(name)] followed by [fi.Size()]. *)
Definition os_Stat (d : directory) (name : string) : result Z :=
  match d !! name with
  | Some c => Ok (Z.of_nat (length c))
  | None => Err ErrNotExist
  end.

(** [os.OpenFile(name, O_RDWR|O_CREATE|..., 0644)]: the file is created empty
    when it does not exist. The descriptor is the name. *)
Definition os_OpenFile (d : directory) (name : string) : directory :=
  match d !! name with
  | Some _ => d
  | None => <[name := []]> d
  end.

(** [os.Truncate(name, size)] and [File.Truncate(size)]: the file is cut
    at [size] or extended with zero bytes up to [size]. *)
Definition os_Truncate (d : directory) (name : string) (size : Z)
  : directory * result unit :=
  match d !! name with
  | None => (d, Err ErrNotExist)
  | Some c =>
      if size <? 0 then (d, Err ErrInvalid)
      else (<[name := resize (Z.to_nat size) x00 c]> d, Ok tt)
  end.

(** [os.Remove(name)]. *)
Definition os_Remove (d : directory) (name : string)
  : directory * result unit :=
  match d !! name with
  | None => (d, Err ErrNotExist)
  | Some _ => (delete name d, Ok tt)
  end.

(** [File.Write] on a file opened with [O_APPEND]. *)
Definition file_Write (d : directory) (name : string) (p : bytes)
  : directory * result unit :=
  match d !! name with
  | None => (d, Err ErrNotExist)
  | Some c => (<[name := c ++ p]> d, Ok tt)
  end.

(** [File.ReadAt(b, off)] with [len(b) = n]: exactly [n] bytes or an
    error ([io.EOF] when the file ends before, an error for a negative
    offset); reading no byte succeeds. *)
Definition file_ReadAt (d : directory) (name : string) (n : nat) (off : Z)
  : result bytes :=
  match d !! name with
  | None => Err ErrNotExist
  | Some c =>
      if off <? 0 then Err ErrInvalid
      else if (n =? 0)%nat then Ok []
      else match sublist_lookup (Z.to_nat off) n c with
           | Some b => Ok b
           | None => Err EOF
           end
  end.

(** [File.ReadAt(b, off)] with [len(b) = n], together with the bytes it has
    read when it fails: the bytes of the file from [off] on, [n] of them at
    most, and [io.EOF] when they are fewer than [n]. *)
Definition file_ReadAt_n (d : directory) (name : string) (n : nat) (off : Z)
  : bytes * result unit :=
  match d !! name with
  | None => ([], Err ErrNotExist)
  | Some c =>
      if off <? 0 then ([], Err ErrInvalid)
      else
        let b := take n (drop (Z.to_nat off) c) in
        (b, if (length b <? n)%nat then Err EOF else Ok tt)
  end.

(** [os.ReadDir(dir)]: the names of the entries, sorted by file name. *)
Definition os_ReadDir (d : directory) : list string :=
  merge_sort (fun a b => Is_true (String.leb a b)) (elements (dom d)).

(** [gommap.Map(fd, PROT_READ|PROT_WRITE, MAP_SHARED)]: the whole file, as
    long as it is at the time of the call; a mapping of length zero is
    refused. The model keeps the mapped bytes in the index and writes them
    back when the index is closed. *)
Definition gommap_Map (d : directory) (name : string) : result bytes :=
  match d !! name with
  | None => Err ErrNotExist
  | Some [] => Err ErrInvalid
  | Some c => Ok c
  end.

(** ** [bufio.Writer]

    The writer of a store holds the bytes not yet written to the file and the
    sticky error of the package: after a failed write every later [Write] and
    [Flush] returns that error. The model does not bound the buffer: a full
    buffer is flushed early by the real writer, which moves bytes to the file
    sooner and leaves the file followed by the buffer the same. *)

Record Writer : Type := mkWriter {
  wr : string;
  pending : bytes;
  werr : option error
}.

Definition bufio_NewWriter (f : string) : Writer := mkWriter f [] None.

Definition bufio_Write (b : Writer) (p : bytes) : Writer * result nat :=
  match werr b with
  | Some e => (b, Err e)
  | None => (mkWriter (wr b) (pending b ++ p) None, Ok (length p))
  end.

Definition bufio_Flush (b : Writer) (d : directory)
  : Writer * directory * result unit :=
  match werr b with
  | Some e => (b, d, Err e)
  | None =>
      match pending b with
      | [] => (b, d, Ok tt)
      | _ =>
          match file_Write d (wr b) (pending b) with
          | (d', Ok _) => (mkWriter (wr b) [] None, d', Ok tt)
          | (d', Err e) => (mkWriter (wr b) (pending b) (Some e), d', Err e)
          | (d', Panic) => (b, d', Panic)
          end
      end
  end.

(** ** config.go *)

Record SegmentConfig : Type := mkSegmentConfig {
  MaxStoreBytes : Z;
  MaxIndexBytes : Z;
  InitialOffset : Z
}.

Record Config : Type := mkConfig { Segment : SegmentConfig }.

(** ** store.go *)

Module Store.

Definition lenWidth : Z := 8.

(** The largest slice [make] allocates on a 64-bit target; a larger length
    is a run-time panic. *)
Definition maxAlloc : Z := 2 ^ 48.

Record store : Type := mkStore {
  File : string;
  buf : Writer;
  size : Z
}.

Definition newStore (d : directory) (f : string) : result store :=
  match os_Stat d f with
  | Ok sz => Ok (mkStore f (bufio_NewWriter f) (u64 sz))
  | Err e => Err e
  | Panic => Panic
  end.

(** Returns [(n, pos)]. *)
Definition Append (s : store) (p : bytes) : store * result (Z * Z) :=
  let pos := size s in
  match bufio_Write (buf s) (be_put 8 (u64 (Z.of_nat (length p)))) with
  | (b1, Ok _) =>
      match bufio_Write b1 p with
      | (b2, Ok w) =>
          let w := Z.of_nat w + lenWidth in
          (mkStore (File s) b2 (u64 (size s + u64 w)), Ok (u64 w, pos))
      | (b2, Err e) => (mkStore (File s) b2 (size s), Err e)
      | (b2, Panic) => (mkStore (File s) b2 (size s), Panic)
      end
  | (b1, Err e) => (mkStore (File s) b1 (size s), Err e)
  | (b1, Panic) => (mkStore (File s) b1 (size s), Panic)
  end.

Definition Read (s : store) (pos : Z) (d : directory)
  : store * directory * result bytes :=
  match bufio_Flush (buf s) d with
  | (b, d, Ok _) =>
      let s := mkStore (File s) b (size s) in
      match file_ReadAt d (File s) 8 (i64 pos) with
      | Ok length =>
          let n := be_get length in
          if maxAlloc <? n then (s, d, Panic)
          else
            match file_ReadAt d (File s) (Z.to_nat n)
                    (i64 (u64 (pos + lenWidth))) with
            | Ok b => (s, d, Ok b)
            | Err e => (s, d, Err e)
            | Panic => (s, d, Panic)
            end
      | Err e => (s, d, Err e)
      | Panic => (s, d, Panic)
      end
  | (b, d, Err e) => (mkStore (File s) b (size s), d, Err e)
  | (b, d, Panic) => (mkStore (File s) b (size s), d, Panic)
  end.

(** [ReadAt(p, off)] with [len(p) = n]: the bytes read and the error. *)
Definition ReadAt (s : store) (n : nat) (off : Z) (d : directory)
  : store * directory * (bytes * result unit) :=
  match bufio_Flush (buf s) d with
  | (b, d, Ok _) =>
      (mkStore (File s) b (size s), d, file_ReadAt_n d (File s) n off)
  | (b, d, Err e) => (mkStore (File s) b (size s), d, ([], Err e))
  | (b, d, Panic) => (mkStore (File s) b (size s), d, ([], Panic))
  end.

Definition Close (s : store) (d : directory)
  : store * directory * result unit :=
  match bufio_Flush (buf s) d with
  | (b, d, r) => (mkStore (File s) b (size s), d, r)
  end.

Definition Name (s : store) : string := File s.

End Store.

(** ** index.go *)

Module Index.

Definition offWidth : Z := 4.
Definition posWidth : Z := 8.
Definition entWidth : Z := offWidth + posWidth.

Record index : Type := mkIndex {
  file : string;
  mmap : bytes;
  size : Z
}.

Definition newIndex (d : directory) (f : string) (c : Config)
  : directory * result index :=
  match os_Stat d f with
  | Ok sz =>
      match os_Truncate d f (i64 (MaxIndexBytes (Segment c))) with
      | (d, Ok _) =>
          match gommap_Map d f with
          | Ok m => (d, Ok (mkIndex f m (u64 sz)))
          | Err e => (d, Err e)
          | Panic => (d, Panic)
          end
      | (d, Err e) => (d, Err e)
      | (d, Panic) => (d, Panic)
      end
  | Err e => (d, Err e)
  | Panic => (d, Panic)
  end.

(** [i.mmap[lo : lo+n]]; out of the bounds of the mapping the slice
    expression panics. *)
Definition mmap_slice (i : index) (lo : Z) (n : nat) : result bytes :=
  match sublist_lookup (Z.to_nat lo) n (mmap i) with
  | Some b => Ok b
  | None => Panic
  end.

(** Returns [(out, pos)]. *)
Definition Read (i : index) (offset : Z) : result (Z * Z) :=
  if size i =? 0 then Err EOF
  else
    let out :=
      if offset =? -1 then u32 (u64 (size i / entWidth - 1))
      else u32 offset in
    let pos := u64 (out * entWidth) in
    if size i <? u64 (pos + entWidth) then Err EOF
    else
      match mmap_slice i pos 4 with
      | Ok o =>
          match mmap_slice i (pos + offWidth) 8 with
          | Ok p => Ok (be_get o, be_get p)
          | Err e => Err e
          | Panic => Panic
          end
      | Err e => Err e
      | Panic => Panic
      end.

Definition Write (i : index) (offset pos : Z) : index * result unit :=
  if Z.of_nat (length (mmap i)) <? u64 (size i + entWidth) then (i, Err EOF)
  else if Z.of_nat (length (mmap i)) <? size i + entWidth then (i, Panic)
  else
    let m := copy_at (mmap i) (Z.to_nat (size i)) (be_put 4 offset) in
    let m := copy_at m (Z.to_nat (size i + offWidth)) (be_put 8 pos) in
    (mkIndex (file i) m (u64 (size i + entWidth)), Ok tt).

(** [mmap.Sync] writes the mapping back, then the file is cut at [size]. *)
Definition Close (i : index) (d : directory) : directory * result unit :=
  match d !! file i with
  | None => (d, Err ErrNotExist)
  | Some _ => os_Truncate (<[file i := mmap i]> d) (file i) (i64 (size i))
  end.

Definition Name (i : index) : string := file i.

End Index.

(** ** segment.go *)

Module Segment.

Record segment : Type := mkSegment {
  store : Store.store;
  index : Index.index;
  baseOffset : Z;
  nextOffset : Z;
  config : Config
}.

(** [fmt.Sprintf("%d%s", baseOffset, ext)], the name of a file of the
    segment inside the directory of the log. *)
Definition fileName (baseOffset : Z) (ext : string) : string :=
  pretty (Z.to_N baseOffset) +:+ ext.

Definition newSegment (d : directory) (baseOffset : Z) (c : Config)
  : directory * result segment :=
  let storeFile := fileName baseOffset ".store" in
  let d := os_OpenFile d storeFile in
  match Store.newStore d storeFile with
  | Ok st =>
      let indexFile := fileName baseOffset ".index" in
      let d := os_OpenFile d indexFile in
      match Index.newIndex d indexFile c with
      | (d, Ok ix) =>
          match Index.Read ix (-1) with
          | Ok (off, _) =>
              (d, Ok (mkSegment st ix baseOffset (u64 (baseOffset + off + 1)) c))
          | Err _ => (d, Ok (mkSegment st ix baseOffset baseOffset c))
          | Panic => (d, Panic)
          end
      | (d, Err e) => (d, Err e)
      | (d, Panic) => (d, Panic)
      end
  | Err e => (d, Err e)
  | Panic => (d, Panic)
  end.

Section with_codec.
Context `{Codec}.

(** Returns the segment, the record as the call leaves it (its [Offset]
    is assigned before anything can fail) and the offset. *)
Definition Append (s : segment) (record : api_Record)
  : segment * api_Record * result Z :=
  let cur := nextOffset s in
  let record := mkRecord (Value record) cur in
  match marshal record with
  | None => (s, record, Err ErrMarshal)
  | Some p =>
      match Store.Append (store s) p with
      | (st, Ok (_, pos)) =>
          match Index.Write (index s)
                  (u32 (u64 (nextOffset s - baseOffset s))) pos with
          | (ix, Ok _) =>
              (mkSegment st ix (baseOffset s) (u64 (nextOffset s + 1))
                 (config s), record, Ok cur)
          | (ix, Err e) =>
              (mkSegment st ix (baseOffset s) (nextOffset s) (config s),
               record, Err e)
          | (ix, Panic) =>
              (mkSegment st ix (baseOffset s) (nextOffset s) (config s),
               record, Panic)
          end
      | (st, Err e) =>
          (mkSegment st (index s) (baseOffset s) (nextOffset s) (config s),
           record, Err e)
      | (st, Panic) =>
          (mkSegment st (index s) (baseOffset s) (nextOffset s) (config s),
           record, Panic)
      end
  end.

Definition Read (s : segment) (off : Z) (d : directory)
  : segment * directory * result api_Record :=
  let indexOffset := i64 (u64 (off - baseOffset s)) in
  match Index.Read (index s) indexOffset with
  | Ok (_, pos) =>
      match Store.Read (store s) pos d with
      | (st, d, r) =>
          let s := mkSegment st (index s) (baseOffset s) (nextOffset s)
                     (config s) in
          match r with
          | Ok p =>
              match unmarshal p with
              | Some record => (s, d, Ok record)
              | None => (s, d, Err ErrUnmarshal)
              end
          | Err e => (s, d, Err e)
          | Panic => (s, d, Panic)
          end
      end
  | Err e => (s, d, Err e)
  | Panic => (s, d, Panic)
  end.

End with_codec.

Definition IsMaxed (s : segment) : bool :=
  (MaxStoreBytes (Segment (config s)) <=? Store.size (store s))
  || (MaxIndexBytes (Segment (config s)) <=? Index.size (index s)).

Definition Close (s : segment) (d : directory)
  : segment * directory * result unit :=
  match Index.Close (index s) d with
  | (d, Ok _) =>
      match Store.Close (store s) d with
      | (st, d, r) =>
          (mkSegment st (index s) (baseOffset s) (nextOffset s) (config s),
           d, r)
      end
  | (d, Err e) => (s, d, Err e)
  | (d, Panic) => (s, d, Panic)
  end.

Definition Remove (s : segment) (d : directory)
  : segment * directory * result unit :=
  match Close s d with
  | (s, d, Ok _) =>
      match os_Remove d (Index.Name (index s)) with
      | (d, Ok _) =>
          match os_Remove d (Store.Name (store s)) with
          | (d, r) => (s, d, r)
          end
      | (d, Err e) => (s, d, Err e)
      | (d, Panic) => (s, d, Panic)
      end
  | (s, d, Err e) => (s, d, Err e)
  | (s, d, Panic) => (s, d, Panic)
  end.

(** [j >= 0] holds for every [uint64]; the division panics when [k] is 0. *)
Definition nearestMultiple (j k : Z) : result Z :=
  if k =? 0 then Panic
  else if 0 <=? j then Ok (u64 (j / k * k))
  else Ok (u64 (u64 (u64 (j - k) + 1) / k * k)).

End Segment.

(** ** Library functions used by [Log.setup] *)

(** [path.Ext]: the suffix that starts at the last dot of the last
    slash-separated element, empty when there is none. *)
Fixpoint path_Ext_scan (r acc : list ascii) : list ascii :=
  match r with
  | [] => []
  | c :: t =>
      if Ascii.eqb c "/" then []
      else if Ascii.eqb c "." then c :: acc
      else path_Ext_scan t (c :: acc)
  end.

Definition path_Ext (p : string) : string :=
  String.string_of_list_ascii
    (path_Ext_scan (rev (String.list_ascii_of_string p)) []).

Definition strings_TrimSuffix (s suffix : string) : string :=
  let n := String.length s in
  let m := String.length suffix in
  if ((m <=? n)%nat && String.eqb (String.substring (n - m) m s) suffix)%bool
  then String.substring 0 (n - m) s
  else s.

Inductive NumError : Type := ErrSyntax | ErrRange.

(** [strconv.ParseUint(s, 10, 0)] on a 64-bit target: the value and the
    error. A character that is no decimal digit gives [(0, ErrSyntax)], a
    value that does not fit gives [(1<<64 - 1, ErrRange)]: before a digit is
    added the value is compared with the cutoff [maxUint64/10 + 1], and the
    sum with the value it comes from. *)
Fixpoint ParseUint_digits (cs : list ascii) (n : Z) : Z * option NumError :=
  match cs with
  | [] => (n, None)
  | c :: t =>
      let v := Z.of_N (N_of_ascii c) in
      if (48 <=? v) && (v <=? 57) then
        let d := v - 48 in
        if (2 ^ 64 - 1) / 10 + 1 <=? n then (2 ^ 64 - 1, Some ErrRange)
        else
          let n := u64 (n * 10) in
          let n1 := u64 (n + d) in
          if n1 <? n then (2 ^ 64 - 1, Some ErrRange)
          else ParseUint_digits t n1
      else (0, Some ErrSyntax)
  end.

Definition strconv_ParseUint (s : string) : Z * option NumError :=
  match s with
  | EmptyString => (0, Some ErrSyntax)
  | _ => ParseUint_digits (String.list_ascii_of_string s) 0
  end.

(** [slices.SortFunc(x, cmp)] for at most twelve elements, where it is the
    insertion sort of the package: each element in turn moves left while
    [cmp] finds it less than its left neighbour. *)
Section SortFunc.
Context {E : Type} (cmp : E -> E -> Z).

(** [sorted] is the sorted prefix, last element first. *)
Fixpoint sink (x : E) (sorted : list E) : list E :=
  match sorted with
  | [] => [x]
  | y :: t => if cmp x y <? 0 then y :: sink x t else x :: sorted
  end.

Definition slices_SortFunc (x : list E) : list E :=
  rev (fold_left (fun sorted e => sink e sorted) x []).
End SortFunc.

(** ** log.go *)

Module Log.

(** [segments] holds the segments the slice points to, in the order of the
    slice. [activeSegment] is the position in [segments] of the segment the
    pointer designates ([None] for nil): every assignment of the source
    takes the pointer from an element of the slice. *)
Record Log : Type := mkLog {
  Dir : string;
  Config_ : Config;
  activeSegment : option nat;
  segments : list Segment.segment
}.

Definition set_segments (l : Log) (ss : list Segment.segment) : Log :=
  mkLog (Dir l) (Config_ l) (activeSegment l) ss.

Definition newSegment (l : Log) (off : Z) (d : directory)
  : Log * directory * result unit :=
  match Segment.newSegment d off (Config_ l) with
  | (d, Ok s) =>
      (mkLog (Dir l) (Config_ l) (Some (length (segments l)))
         (segments l ++ [s]), d, Ok tt)
  | (d, Err e) => (l, d, Err e)
  | (d, Panic) => (l, d, Panic)
  end.

(** The loop of [setup]: [i] advances by two, one segment for every other
    base offset. *)
Fixpoint setup_loop (l : Log) (baseOffsets : list Z) (d : directory)
  : Log * directory * result unit :=
  match baseOffsets with
  | [] => (l, d, Ok tt)
  | off :: rest =>
      match newSegment l off d with
      | (l, d, Ok _) =>
          match rest with
          | [] => (l, d, Ok tt)
          | _ :: rest => setup_loop l rest d
          end
      | (l, d, Err e) => (l, d, Err e)
      | (l, d, Panic) => (l, d, Panic)
      end
  end.

Definition baseOffset_of_name (name : string) : Z :=
  fst (strconv_ParseUint (strings_TrimSuffix name (path_Ext name))).

Definition setup (l : Log) (d : directory) : Log * directory * result unit :=
  let files := os_ReadDir d in
  let baseOffsets := map baseOffset_of_name files in
  let baseOffsets :=
    slices_SortFunc (fun i j => i64 (u64 (i - j))) baseOffsets in
  match setup_loop l baseOffsets d with
  | (l, d, Ok _) =>
      let r :=
        match segments l with
        | [] => newSegment l (InitialOffset (Segment (Config_ l))) d
        | _ => (l, d, Ok tt)
        end in
      match r with
      | (l, d, Ok _) =>
          match segments l with
          | [] => (l, d, Panic)
          | _ =>
              (mkLog (Dir l) (Config_ l)
                 (Some (length (segments l) - 1)%nat) (segments l), d, Ok tt)
          end
      | (l, d, Err e) => (l, d, Err e)
      | (l, d, Panic) => (l, d, Panic)
      end
  | (l, d, Err e) => (l, d, Err e)
  | (l, d, Panic) => (l, d, Panic)
  end.

(** The two assignments at the head of [NewLog]: a cap of zero is replaced
    by 1024. *)
Definition defaults (c : Config) : Config :=
  let s := Segment c in
  let s :=
    if MaxStoreBytes s =? 0
    then mkSegmentConfig 1024 (MaxIndexBytes s) (InitialOffset s) else s in
  let s :=
    if MaxIndexBytes s =? 0
    then mkSegmentConfig (MaxStoreBytes s) 1024 (InitialOffset s) else s in
  mkConfig s.

(** [NewLog(dir, c)] on the directory [dir] whose content is [d]. The
    source returns the log together with the error of [setup]. *)
Definition NewLog (dir : string) (c : Config) (d : directory)
  : Log * directory * result unit :=
  setup (mkLog dir (defaults c) None []) d.

(** The test of the loop of [Read]. *)
Definition covers (offset : Z) (s : Segment.segment) : Prop :=
  Segment.baseOffset s <= offset < Segment.nextOffset s.

#[global] Instance covers_dec offset s : Decision (covers offset s).
Proof. unfold covers. apply _. Defined.

Section with_codec.
Context `{Codec}.

(** Returns the log, the directory, the record as the call leaves it, the
    offset and the error: when rolling to a new segment fails the source
    returns the offset together with the error. *)
Definition Append (l : Log) (record : api_Record) (d : directory)
  : Log * directory * api_Record * (Z * result unit) :=
  match activeSegment l with
  | None => (l, d, record, (0, Panic))
  | Some a =>
      match segments l !! a with
      | None => (l, d, record, (0, Panic))
      | Some s =>
          match Segment.Append s record with
          | (s, record, Ok off) =>
              let l := set_segments l (<[a := s]> (segments l)) in
              if Segment.IsMaxed s then
                match newSegment l (u64 (off + 1)) d with
                | (l, d, err) => (l, d, record, (off, err))
                end
              else (l, d, record, (off, Ok tt))
          | (s, record, Err e) =>
              (set_segments l (<[a := s]> (segments l)), d, record,
               (0, Err e))
          | (s, record, Panic) =>
              (set_segments l (<[a := s]> (segments l)), d, record,
               (0, Panic))
          end
      end
  end.

Definition Read (l : Log) (offset : Z) (d : directory)
  : Log * directory * result api_Record :=
  match list_find (covers offset) (segments l) with
  | None => (l, d, Err (ErrOffsetOutOfRange offset))
  | Some (k, s) =>
      if Segment.nextOffset s <=? offset
      then (l, d, Err (ErrOffsetOutOfRange offset))
      else
        match Segment.Read s offset d with
        | (s, d, r) => (set_segments l (<[k := s]> (segments l)), d, r)
        end
  end.

End with_codec.

Definition LowestOffset (l : Log) : result Z :=
  match segments l with
  | [] => Panic
  | s :: _ => Ok (Segment.baseOffset s)
  end.

Definition HighestOffset (l : Log) : result Z :=
  match last (segments l) with
  | None => Panic
  | Some s =>
      let off := Segment.nextOffset s in
      if off =? 0 then Ok 0 else Ok (u64 (off - 1))
  end.

(** The loop of [Truncate]. Returns the segments of [ss] as the loop leaves
    them (a removed segment has been closed), the segments that are kept,
    the directory and the error that ended the loop, if any. *)
Fixpoint Truncate_loop (lowest : Z) (ss : list Segment.segment)
  (d : directory)
  : list Segment.segment * list Segment.segment * directory * result unit :=
  match ss with
  | [] => ([], [], d, Ok tt)
  | s :: rest =>
      if Segment.nextOffset s <=? lowest then
        match Segment.Remove s d with
        | (s, d, Ok _) =>
            match Truncate_loop lowest rest d with
            | (all, kept, d, r) => (s :: all, kept, d, r)
            end
        | (s, d, Err e) => (s :: rest, [], d, Err e)
        | (s, d, Panic) => (s :: rest, [], d, Panic)
        end
      else
        match Truncate_loop lowest rest d with
        | (all, kept, d, r) => (s :: all, s :: kept, d, r)
        end
  end.

(** When no segment is kept, [l.segments[len(l.segments)-1]] indexes an
    empty slice at -1 and panics, after [l.segments] has been assigned. *)
Definition Truncate (l : Log) (lowest : Z) (d : directory)
  : Log * directory * result unit :=
  match Truncate_loop lowest (segments l) d with
  | (_, kept, d, Ok _) =>
      match kept with
      | [] => (set_segments l [], d, Panic)
      | _ =>
          (mkLog (Dir l) (Config_ l) (Some (length kept - 1)%nat) kept, d,
           Ok tt)
      end
  | (all, _, d, Err e) => (set_segments l all, d, Err e)
  | (all, _, d, Panic) => (set_segments l all, d, Panic)
  end.

(** The loop of [Close]: the segments are closed in order and the first
    error ends the loop. The model does not follow the descriptors, which
    are closed afterwards: it says what is in the directory, not what a
    closed log answers. *)
Fixpoint Close_loop (ss : list Segment.segment) (d : directory)
  : list Segment.segment * directory * result unit :=
  match ss with
  | [] => ([], d, Ok tt)
  | s :: rest =>
      match Segment.Close s d with
      | (s, d, Ok _) =>
          match Close_loop rest d with
          | (rest, d, r) => (s :: rest, d, r)
          end
      | (s, d, Err e) => (s :: rest, d, Err e)
      | (s, d, Panic) => (s :: rest, d, Panic)
      end
  end.

Definition Close (l : Log) (d : directory) : Log * directory * result unit :=
  match Close_loop (segments l) d with
  | (ss, d, r) => (set_segments l ss, d, r)
  end.

(** [Remove]: [os.RemoveAll(l.Dir)] removes the directory together with
    what it holds; [None] is the directory that does not exist. *)
Definition Remove (l : Log) (d : directory)
  : Log * option directory * result unit :=
  match Close l d with
  | (l, d, Ok _) => (l, None, Ok tt)
  | (l, d, Err e) => (l, Some d, Err e)
  | (l, d, Panic) => (l, Some d, Panic)
  end.

(** [Reset]: [setup] starts with [os.ReadDir(l.Dir)], which fails on a
    directory that does not exist. *)
Definition Reset (l : Log) (d : directory)
  : Log * option directory * result unit :=
  match Remove l d with
  | (l, Some d, Ok _) =>
      match setup l d with
      | (l, d, r) => (l, Some d, r)
      end
  | (l, None, Ok _) => (l, None, Err ErrNotExist)
  | (l, od, Err e) => (l, od, Err e)
  | (l, od, Panic) => (l, od, Panic)
  end.


(** An [originReader] shares its store with the log: [store] is the
    position in [segments] of the segment whose store it is. *)
Record originReader : Type := mkOriginReader {
  store : nat;
  offset : Z
}.

(** [Reader]: the readers that [io.MultiReader] is given. *)
Definition Reader (l : Log) : list originReader :=
  imap (fun i _ => mkOriginReader i 0) (segments l).

(** [originReader.Read(p)] with [len(p) = n]: the bytes read and the
    error. *)
Definition originReader_Read (o : originReader) (n : nat) (l : Log)
  (d : directory)
  : originReader * Log * directory * (bytes * result unit) :=
  match segments l !! store o with
  | None => (o, l, d, ([], Panic))
  | Some s =>
      match Store.ReadAt (Segment.store s) n (offset o) d with
      | (st, d, (b, err)) =>
          (mkOriginReader (store o)
             (i64 (u64 (offset o + Z.of_nat (length b)))),
           set_segments l
             (<[store o := Segment.mkSegment st (Segment.index s)
                            (Segment.baseOffset s) (Segment.nextOffset s)
                            (Segment.config s)]> (segments l)),
           d, (b, err))
      end
  end.

(** [Read] of the reader that [io.MultiReader] returns, on the readers that
    are left: a reader that returns [io.EOF] is dropped; [io.EOF] is
    returned with the last reader only, and a reader that gives no byte and
    [io.EOF] hands over to the next one. *)
Fixpoint MultiReader_Read (rs : list originReader) (n : nat) (l : Log)
  (d : directory)
  : list originReader * Log * directory * (bytes * result unit) :=
  match rs with
  | [] => ([], l, d, ([], Err EOF))
  | o :: rest =>
      match originReader_Read o n l d with
      | (o, l, d, (b, Err EOF)) =>
          if (0 <? length b)%nat
          then (rest, l, d,
                (b, if (0 <? length rest)%nat then Ok tt else Err EOF))
          else MultiReader_Read rest n l d
      | (o, l, d, (b, err)) => (o :: rest, l, d, (b, err))
      end
  end.
End Log.

(** ** server.go

    The handlers of the gRPC server, over the commit log. The authorizer is
    the function [Authorize], [true] for the [nil] of [Authorize]; its error
    is no [api.ErrOffsetOutOfRange]. A stream is what a handler sees of it:
    the subject that [authenticate] has put into its context, how many more
    times the context is found alive and [Send] returns no error ([None]:
    always), and what has been sent. *)

Module Server.

Inductive failure : Type :=
| OfLog (e : error)             (* an error of the commit log *)
| Unauthorized                  (* the error of [Authorizer.Authorize] *)
| SendFailed.                   (* the error of [stream.Send] *)

Inductive reply (A : Type) : Type :=
| Reply (a : A)
| Fail (f : failure)
| Panicked.
Arguments Reply {A} a.
Arguments Fail {A} f.
Arguments Panicked {A}.

Definition objectWildcard : string := "*".
Definition produceAction : string := "produce".
Definition consumeAction : string := "consume".

Record stream (Res : Type) : Type := mkStream {
  subject_value : option string;
  alive : option nat;
  sendable : option nat;
  sent : list Res
}.
Arguments mkStream {Res} _ _ _ _.
Arguments subject_value {Res} _.
Arguments alive {Res} _.
Arguments sendable {Res} _.
Arguments sent {Res} _.

(** One use of a count: [None] when it is used up. *)
Definition tick (n : option nat) : option (option nat) :=
  match n with
  | None => Some None
  | Some 0%nat => None
  | Some (S k) => Some (Some k)
  end.

(** [stream.Send(res)]. *)
Definition Send {Res} (st : stream Res) (res : Res) : stream Res * bool :=
  match tick (sendable st) with
  | Some n =>
      (mkStream (subject_value st) (alive st) n (sent st ++ [res]), true)
  | None => (st, false)
  end.

(** [subject(ctx)]: the type assertion panics on a context that holds no
    subject. *)
Definition subject (ctx : option string) : result string :=
  match ctx with
  | Some s => Ok s
  | None => Panic
  end.

Section handlers.
Context `{Codec}.
Variable Authorize : string -> string -> string -> bool.

Definition Consume (ctx : option string) (offset : Z) (l : Log.Log)
  (d : directory) : Log.Log * directory * reply api_Record :=
  match subject ctx with
  | Ok sub =>
      if Authorize sub objectWildcard consumeAction
      then
        match Log.Read l offset d with
        | (l, d, Ok record) => (l, d, Reply record)
        | (l, d, Err e) => (l, d, Fail (OfLog e))
        | (l, d, Panic) => (l, d, Panicked)
        end
      else (l, d, Fail Unauthorized)
  | _ => (l, d, Panicked)
  end.

(** [ConsumeStream], [fuel] turns of its loop; [None]: the loop goes on.
    Returns the offset of the request as well. *)
Fixpoint ConsumeStream (fuel : nat) (offset : Z) (st : stream api_Record)
  (l : Log.Log) (d : directory)
  : Log.Log * directory * stream api_Record * Z * option (reply unit) :=
  match fuel with
  | 0%nat => (l, d, st, offset, None)
  | S fuel =>
      match tick (alive st) with
      | None => (l, d, st, offset, Some (Reply tt))
      | Some a =>
          let st := mkStream (subject_value st) a (sendable st) (sent st) in
          match Consume (subject_value st) offset l d with
          | (l, d, Reply res) =>
              match Send st res with
              | (st, true) => ConsumeStream fuel (u64 (offset + 1)) st l d
              | (st, false) => (l, d, st, offset, Some (Fail SendFailed))
              end
          | (l, d, Fail (OfLog (ErrOffsetOutOfRange _))) =>
              ConsumeStream fuel offset st l d
          | (l, d, Fail f) => (l, d, st, offset, Some (Fail f))
          | (l, d, Panicked) => (l, d, st, offset, Some Panicked)
          end
      end
  end.

(** Returns the record of the request, whose offset [Append] has set. *)
Definition Produce (ctx : option string) (record : api_Record) (l : Log.Log)
  (d : directory) : Log.Log * directory * api_Record * reply Z :=
  match subject ctx with
  | Ok sub =>
      if Authorize sub objectWildcard produceAction
      then
        match Log.Append l record d with
        | (l, d, record, (offset, Ok _)) => (l, d, record, Reply offset)
        | (l, d, record, (_, Err e)) => (l, d, record, Fail (OfLog e))
        | (l, d, record, (_, Panic)) => (l, d, record, Panicked)
        end
      else (l, d, record, Fail Unauthorized)
  | _ => (l, d, record, Panicked)
  end.

(** [ProduceStream] on a stream whose [Recv] returns the requests [reqs]
    and then [io.EOF]. *)
Fixpoint ProduceStream (reqs : list api_Record) (st : stream Z)
  (l : Log.Log) (d : directory)
  : Log.Log * directory * stream Z * reply unit :=
  match reqs with
  | [] => (l, d, st, Reply tt)
  | req :: reqs =>
      match Produce (subject_value st) req l d with
      | (l, d, _, Reply res) =>
          match Send st res with
          | (st, true) => ProduceStream reqs st l d
          | (st, false) => (l, d, st, Fail SendFailed)
          end
      | (l, d, _, Fail f) => (l, d, st, Fail f)
      | (l, d, _, Panicked) => (l, d, st, Panicked)
      end
  end.

End handlers.

End Server.

(** ** A codec for the examples

    The offset as eight bytes, most significant first, followed by the value.
    An offset outside of [uint64] is no value of the field and is refused. *)

Definition fixed_marshal (r : api_Record) : option bytes :=
  if (0 <=? Offset r) && (Offset r <? 2 ^ 64)
  then Some (be_put 8 (Offset r) ++ Value r)
  else None.

Definition fixed_unmarshal (p : bytes) : option api_Record :=
  if (8 <=? length p)%nat
  then Some (mkRecord (drop 8 p) (be_get (take 8 p)))
  else None.

#[global] Instance fixed_codec : Codec :=
  {| marshal := fixed_marshal; unmarshal := fixed_unmarshal |}.

(** * Specification

    What the theorems below are stated with: the names of the files of a
    segment, the data a store and an index hold, the records of a segment and
    of a log, and the runs of a log. *)

(** ** File names *)

(** [fileName] is injective: the base offset is read back from the digits
    before the extension. *)
Definition is_digit (c : ascii) : bool :=
  let v := N_of_ascii c in ((48 <=? v) && (v <=? 57))%N.

(** The longest prefix of decimal digits and what follows it. *)
Fixpoint span_digits (s : string) : string * string :=
  match s with
  | EmptyString => (EmptyString, EmptyString)
  | String c t =>
      if is_digit c then (String c (span_digits t).1, (span_digits t).2)
      else (EmptyString, s)
  end.

Fixpoint all_digits (s : string) : bool :=
  match s with
  | EmptyString => true
  | String c t => is_digit c && all_digits t
  end.

(** The two extensions of the files of a segment. *)
Definition is_ext (e : string) : Prop := e = ".store" \/ e = ".index".

(** ** A segment on files that did not exist *)

(** What [newSegment] returns when neither file exists: an empty store and a
    mapping of [MaxIndexBytes] zero bytes. *)
Definition fresh_segment (b : Z) (c : Config) : Segment.segment :=
  let sname := Segment.fileName b ".store" in
  let iname := Segment.fileName b ".index" in
  Segment.mkSegment
    (Store.mkStore sname (bufio_NewWriter sname) 0)
    (Index.mkIndex iname
       (replicate (Z.to_nat (i64 (MaxIndexBytes (Segment c)))) x00) 0)
    b b c.

(** ** What a store and an index hold *)

(** The bytes of a store: the file followed by what the writer holds. *)
Definition store_bytes (d : directory) (st : Store.store) : option bytes :=
  c ← d !! Store.File st; Some (c ++ pending (Store.buf st)).

(** The store [st] holds [data]: its writer writes to its file and has met
    no error, [size] is the length of [data], and positions fit [int64]. *)
Record store_ok (d : directory) (st : Store.store) (data : bytes) : Prop := {
  so_wr : wr (Store.buf st) = Store.File st;
  so_werr : werr (Store.buf st) = None;
  so_data : store_bytes d st = Some data;
  so_size : Store.size st = Z.of_nat (length data);
  so_bound : Store.size st < 2 ^ 63
}.

(** [data] holds at [pos] the length of [p] on eight bytes, then [p]. *)
Definition stored (data : bytes) (pos : Z) (p : bytes) : Prop :=
  0 <= pos /\ Z.of_nat (length p) <= Store.maxAlloc /\
  sublist_lookup (Z.to_nat pos) (8 + length p) data
  = Some (be_put 8 (Z.of_nat (length p)) ++ p).

(** Entry [j] of a mapping: the relative offset and the position. *)
Definition index_entry (m : bytes) (j : nat) : option (Z * Z) :=
  o ← sublist_lookup (12 * j) 4 m;
  p ← sublist_lookup (12 * j + 4) 8 m;
  Some (be_get o, be_get p).

(** The index [ix] holds the entries [ents], inside its mapping. *)
Record index_ok (ix : Index.index) (ents : list (Z * Z)) : Prop := {
  io_size : Index.size ix = 12 * Z.of_nat (length ents);
  io_fit : 12 * Z.of_nat (length ents) <= Z.of_nat (length (Index.mmap ix));
  io_len : Z.of_nat (length (Index.mmap ix)) < 2 ^ 63;
  io_ents : forall j e, ents !! j = Some e -> index_entry (Index.mmap ix) j = Some e
}.

Section specification.
Context `{Codec}.

(** ** The records of a segment *)

(** The append keeps the counters of the segment inside their types: the
    next offset inside [uint64], the relative offset inside [uint32], the
    store inside the positions of a file, the record inside what a byte
    slice holds. *)
Definition append_fits (s : Segment.segment) (r : api_Record) : Prop :=
  Segment.nextOffset s + 1 < 2 ^ 64 /\
  Segment.nextOffset s - Segment.baseOffset s < 2 ^ 32 /\
  forall p, marshal (mkRecord (Value r) (Segment.nextOffset s)) = Some p ->
    Z.of_nat (length p) <= Store.maxAlloc /\
    Store.size (Segment.store s) + 8 + Z.of_nat (length p) < 2 ^ 63.

(** The index entry [e] points at the encoding of [rec] in [data]. *)
Definition entry_holds (data : bytes) (rec : api_Record) (e : Z * Z) : Prop :=
  exists p, stored data e.2 p /\ unmarshal p = Some rec.

(** The segment [s] holds the records [recs]: record [j] has the offset
    [baseOffset + j] and index entry [j] points at its encoding in the store;
    [nextOffset] is [baseOffset] plus the number of records. *)
Record seg_ok (d : directory) (s : Segment.segment) (recs : list api_Record)
  : Prop := {
  sg_store_name :
    Store.File (Segment.store s)
    = Segment.fileName (Segment.baseOffset s) ".store";
  sg_index_name :
    Index.file (Segment.index s)
    = Segment.fileName (Segment.baseOffset s) ".index";
  sg_index_file : is_Some (d !! Index.file (Segment.index s));
  sg_base : 0 <= Segment.baseOffset s;
  sg_next :
    Segment.nextOffset s = Segment.baseOffset s + Z.of_nat (length recs);
  sg_bound : Segment.nextOffset s < 2 ^ 64;
  sg_count : Z.of_nat (length recs) <= 2 ^ 32;
  sg_offsets : forall j rec, recs !! j = Some rec ->
    Offset rec = Segment.baseOffset s + Z.of_nat j;
  sg_rep : exists data ents,
    store_ok d (Segment.store s) data /\
    index_ok (Segment.index s) ents /\
    Forall2 (entry_holds data) recs ents
}.

(** ** The segments of a log *)

(** Segment [k+1] starts where segment [k] ends. *)
Definition contiguous (ss : list Segment.segment) : Prop :=
  forall k s s', ss !! k = Some s -> ss !! S k = Some s' ->
    Segment.baseOffset s' = Segment.nextOffset s.

(** Contiguous, and only the last segment may be empty. *)
Definition packed (ss : list Segment.segment) : Prop :=
  forall k s s', ss !! k = Some s -> ss !! S k = Some s' ->
    Segment.baseOffset s' = Segment.nextOffset s /\
    Segment.baseOffset s < Segment.nextOffset s.

(** The base offsets of the segments, in order. *)
Definition bases (ss : list Segment.segment) : list Z :=
  Segment.baseOffset <$> ss.

(** Every file of the directory belongs to a segment of the list. *)
Definition owned (d : directory) (ss : list Segment.segment) : Prop :=
  forall name, is_Some (d !! name) ->
    exists b e, b ∈ bases ss /\ is_ext e /\ name = Segment.fileName b e.

(** The log [l] holds the records [cs], segment by segment: the invariant of
    the states of a run. *)
Record log_ok (l : Log.Log) (d : directory) (cs : list (list api_Record))
  : Prop := {
  lo_active :
    Log.activeSegment l = Some (length (Log.segments l) - 1)%nat;
  lo_nonempty : Log.segments l <> [];
  lo_config : 0 < i64 (MaxIndexBytes (Segment (Log.Config_ l)));
  lo_segs : Forall2 (seg_ok d) (Log.segments l) cs;
  lo_packed : packed (Log.segments l);
  lo_owned : owned d (Log.segments l)
}.

(** The record [rec] is stored under the offset [off]. *)
Definition holds (l : Log.Log) (cs : list (list api_Record))
  (off : Z) (rec : api_Record) : Prop :=
  exists k s recs j,
    Log.segments l !! k = Some s /\ cs !! k = Some recs /\
    recs !! j = Some rec /\ off = Segment.baseOffset s + Z.of_nat j.

(** [name] is one of the two files of the segment [s]. *)
Definition file_of (name : string) (s : Segment.segment) : Prop :=
  name = Segment.fileName (Segment.baseOffset s) ".store" \/
  name = Segment.fileName (Segment.baseOffset s) ".index".

(** ** Runs of a log *)

(** The append of [r] to the log stays within the limits of [append_fits]. *)
Definition within_limits (l : Log.Log) (r : api_Record) : Prop :=
  forall a s, Log.activeSegment l = Some a -> Log.segments l !! a = Some s ->
    append_fits s r.

(** The calls of a run. *)
Inductive op : Type :=
| OpAppend (r : api_Record)
| OpRead (off : Z)
| OpTruncate (lowest : Z).

(** The call keeps the record of offset [off]: it is no truncation above
    [off]. *)
Definition keeps (off : Z) (o : op) : Prop :=
  match o with OpTruncate lowest => lowest <= off | _ => True end.

(** One call on the log. An append stays within the limits of the machine
    integers; a truncation returns (a panic ends the run). *)
Inductive step : op -> Log.Log * directory -> Log.Log * directory -> Prop :=
| step_append l d r l' d' r' res :
    within_limits l r ->
    Log.Append l r d = (l', d', r', res) ->
    step (OpAppend r) (l, d) (l', d')
| step_read l d off l' d' res :
    Log.Read l off d = (l', d', res) ->
    step (OpRead off) (l, d) (l', d')
| step_truncate l d lowest l' d' :
    Log.Truncate l lowest d = (l', d', Ok tt) ->
    step (OpTruncate lowest) (l, d) (l', d').

(** A sequence of calls. *)
Inductive steps
  : list op -> Log.Log * directory -> Log.Log * directory -> Prop :=
| steps_nil w : steps [] w w
| steps_cons o os w1 w2 w3 :
    step o w1 w2 -> steps os w2 w3 -> steps (o :: os) w1 w3.

(** The states of a log created in an empty directory. *)
Definition reachable (dir : string) (c : Config) (w : Log.Log * directory)
  : Prop :=
  exists l0 d0 os,
    Log.NewLog dir c ∅ = (l0, d0, Ok tt) /\ steps os (l0, d0) w.

(** The appends of [rs] in order; the offset and the error of each call. *)
Fixpoint appends (l : Log.Log) (d : directory) (rs : list api_Record)
  : Log.Log * directory * list (Z * result unit) :=
  match rs with
  | [] => (l, d, [])
  | r :: rs =>
      match Log.Append l r d with
      | (l, d, _, out) =>
          match appends l d rs with
          | (l, d, outs) => (l, d, out :: outs)
          end
      end
  end.

(** The active segment ends at [k] and no file of the directory is named
    after an offset above its base. *)
Definition ends_at (l : Log.Log) (d : directory) (k : Z) : Prop :=
  exists a s,
    Log.activeSegment l = Some a /\ Log.segments l !! a = Some s /\
    Segment.nextOffset s = k /\ 0 <= Segment.baseOffset s <= k /\
    forall name, is_Some (d !! name) ->
      exists b e, 0 <= b <= Segment.baseOffset s /\ is_ext e /\
                  name = Segment.fileName b e.

(** ** Runs as functions

    The limits and the calls of a run as functions that compute, to build the
    states of the examples. *)

Definition append_fitsb (s : Segment.segment) (r : api_Record) : bool :=
  (Segment.nextOffset s + 1 <? 2 ^ 64) &&
  (Segment.nextOffset s - Segment.baseOffset s <? 2 ^ 32) &&
  match marshal (mkRecord (Value r) (Segment.nextOffset s)) with
  | None => true
  | Some p =>
      (Z.of_nat (length p) <=? Store.maxAlloc) &&
      (Store.size (Segment.store s) + 8 + Z.of_nat (length p) <? 2 ^ 63)
  end.

Definition within_limitsb (l : Log.Log) (r : api_Record) : bool :=
  match Log.activeSegment l with
  | None => true
  | Some a =>
      match Log.segments l !! a with
      | None => true
      | Some s => append_fitsb s r
      end
  end.

Definition run (o : op) (w : Log.Log * directory) : Log.Log * directory :=
  match o with
  | OpAppend r => (Log.Append w.1 r w.2).1.1
  | OpRead off => (Log.Read w.1 off w.2).1
  | OpTruncate lowest => (Log.Truncate w.1 lowest w.2).1
  end.

Definition allowed (o : op) (w : Log.Log * directory) : bool :=
  match o with
  | OpAppend r => within_limitsb w.1 r
  | OpRead _ => true
  | OpTruncate lowest =>
      match (Log.Truncate w.1 lowest w.2).2 with
      | Ok _ => true
      | _ => false
      end
  end.

Fixpoint runs (os : list op) (w : Log.Log * directory) : Log.Log * directory :=
  match os with
  | [] => w
  | o :: os => runs os (run o w)
  end.

Fixpoint all_allowed (os : list op) (w : Log.Log * directory) : bool :=
  match os with
  | [] => true
  | o :: os => allowed o w && all_allowed os (run o w)
  end.

End specification.

(** ** Examples *)

(** Payloads and configurations of the examples. *)
Definition payload (s : string) : api_Record :=
  mkRecord (String.list_byte_of_string s) 0.

Definition caps (maxStore maxIndex initial : Z) : Config :=
  mkConfig (mkSegmentConfig maxStore maxIndex initial).

(** The log of three index entries per segment after four appends. *)
Definition two_segments : Log.Log * directory :=
  runs [OpAppend (payload "hello world"); OpAppend (payload "foo");
        OpAppend (payload ""); OpAppend (payload "x")]
    (Log.NewLog "data" (caps 1024 36 0) ∅).1.

(** The log of the three appends that fill its first segment. *)
Definition three_appends : Log.Log * directory :=
  runs [OpAppend (payload "hello world"); OpAppend (payload "foo");
        OpAppend (payload "")]
    (Log.NewLog "data" (caps 1024 36 0) ∅).1.

(** A directory that holds one segment and a file of another kind. *)
Definition stray_directory : directory :=
  {[ "0.index" := []; "0.store" := []; "notes.txt" := [] ]}.

(** A directory of two segments whose base offsets are more than [1 << 63]
    apart. *)
Definition distant_directory : directory :=
  {[ "0.index" := []; "0.store" := [];
     "9223372036854775809.index" := []; "9223372036854775809.store" := [] ]}.

(** One segment of two records after a clean close: the records of payloads
    ["a"] and ["b"] in the encoding of [fixed_codec], nine bytes each after
    their length, and an index cut at its two entries. *)
Definition closed_directory : directory :=
  {[ "0.store" := be_put 8 9 ++ be_put 8 0 ++ [x61]
                  ++ be_put 8 9 ++ be_put 8 1 ++ [x62];
     "0.index" := be_put 4 0 ++ be_put 8 0 ++ be_put 4 1 ++ be_put 8 17 ]}.

(** An active segment whose index has no room left: three entries in a
    mapping of forty bytes. *)
Definition full_index_log : Log.Log * directory :=
  runs [OpAppend (payload "a"); OpAppend (payload "b"); OpAppend (payload "c")]
    (Log.NewLog "data" (caps 4096 40 0) ∅).1.

(** A log on an empty directory, its offsets starting at 0 and at 5. *)
Definition fresh_log : Log.Log * directory :=
  (Log.NewLog "data" (caps 1024 1024 0) ∅).1.

Definition fresh_log_from_5 : Log.Log * directory :=
  (Log.NewLog "data" (caps 1024 1024 5) ∅).1.

Definition four_payloads : list api_Record :=
  [payload "hello world"; payload "foo"; payload ""; payload "x"].

(** The log of the three appends, a fourth append, and the same log three
    calls later, its first segment removed. *)
Definition fourth_append : Log.Log * directory :=
  run (OpAppend (payload "x")) three_appends.

Definition later_on : Log.Log * directory :=
  runs [OpAppend (payload "y"); OpTruncate 3; OpRead 4] fourth_append.

(** ** Further examples *)

(** An empty store on its file, and a payload of three bytes. *)
Definition empty_store_directory : directory := {[ "0.store" := [] ]}.

Definition empty_store : Store.store :=
  Store.mkStore "0.store" (bufio_NewWriter "0.store") 0.

Definition abc : bytes := [x61; x62; x63].

(** The store after the append of the payload. *)
Definition one_record_store : Store.store := (Store.Append empty_store abc).1.

(** An index on a new file with room for three entries, and the same index
    after two and after three writes. *)
Definition empty_index_directory : directory := {[ "0.index" := [] ]}.

Definition empty_index : Index.index :=
  match (Index.newIndex empty_index_directory "0.index" (caps 1024 36 0)).2 with
  | Ok ix => ix
  | _ => Index.mkIndex "0.index" [] 0
  end.

Definition two_entries : Index.index :=
  (Index.Write (Index.Write empty_index 0 0).1 1 11).1.

Definition three_entries : Index.index := (Index.Write two_entries 2 30).1.

(** The log of three index entries per segment after two appends. *)
Definition two_records : Log.Log * directory :=
  runs [OpAppend (payload "hello world"); OpAppend (payload "foo")]
    (Log.NewLog "data" (caps 1024 36 0) ∅).1.

(** ** A log that is closed and opened again *)

(** The entries of the index are numbered from 0: entry [j] holds the
    relative offset [j]. *)
Definition numbered (s : Segment.segment) : Prop :=
  forall ents, index_ok (Segment.index s) ents ->
    forall j e, ents !! j = Some e -> e.1 = Z.of_nat j.

(** The mapping of the index of [s] is as long as the cap of [c] says. *)
Definition mapped (c : Config) (s : Segment.segment) : Prop :=
  Z.of_nat (length (Index.mmap (Segment.index s)))
  = i64 (MaxIndexBytes (Segment c)).

(** What a run keeps besides [log_ok]: the directory and the configuration
    the log was made with, the numbering of the entries and the length of
    the mappings. *)
Record log_ext (dir : string) (c : Config) (l : Log.Log) : Prop := {
  le_dir : Log.Dir l = dir;
  le_config : Log.Config_ l = Log.defaults c;
  le_numbered : Forall numbered (Log.segments l);
  le_mapped : Forall (mapped (Log.defaults c)) (Log.segments l)
}.

(** The index file [c] holds the entries [ents] and nothing behind them. *)
Definition index_file_ok (c : bytes) (ents : list (Z * Z)) : Prop :=
  Z.of_nat (length c) = 12 * Z.of_nat (length ents) /\
  forall j e, ents !! j = Some e -> index_entry c j = Some e.

Section closed_segments.
Context `{Codec}.

(** The two files of the segment of base offset [b] hold the records
    [recs], as [Close] leaves them: the store file holds the encodings and
    the index file one numbered entry for each record. *)
Record closed_seg (d : directory) (b : Z) (recs : list api_Record) : Prop := {
  cl_base : 0 <= b;
  cl_bound : b + Z.of_nat (length recs) < 2 ^ 64;
  cl_count : Z.of_nat (length recs) <= 2 ^ 32;
  cl_offsets : forall j rec, recs !! j = Some rec ->
    Offset rec = b + Z.of_nat j;
  cl_rep : exists data c ents,
    d !! Segment.fileName b ".store" = Some data /\
    Z.of_nat (length data) < 2 ^ 63 /\
    d !! Segment.fileName b ".index" = Some c /\
    index_file_ok c ents /\
    Forall2 (entry_holds data) recs ents /\
    forall j e, ents !! j = Some e -> e.1 = Z.of_nat j
}.

End closed_segments.

(** The comparison that [setup] gives to the sort, and values that lie less
    than [1 << 63] above [lo]: on them the comparison is the order. *)
Definition compare_offsets (i j : Z) : Z := i64 (u64 (i - j)).

Definition near (lo x : Z) : Prop := lo <= x < lo + 2 ^ 63.

(** The names of the files of the segments of base offsets [bs], and the
    base offsets [setup] reads from them. *)
Definition file_names (bs : list Z) : list string :=
  bs ≫= (fun b => [Segment.fileName b ".index"; Segment.fileName b ".store"]).

Definition twice (bs : list Z) : list Z := bs ≫= (fun b => [b; b]).

(** The appends of four payloads to a log whose offsets start at 5. *)
Definition from_5 : Log.Log * directory * list (Z * result unit) :=
  appends (Log.NewLog "data" (caps 1024 36 5) ∅).1.1
    (Log.NewLog "data" (caps 1024 36 5) ∅).1.2 four_payloads.

(** The log of [two_segments], closed and opened again. *)
Definition reopened : Log.Log * directory :=
  (Log.NewLog "data" (caps 1024 36 0)
     (Log.Close two_segments.1 two_segments.2).1.2).1.

(** ** Reading the whole log *)

(** The bytes of the stores of the log, store by store, and in one piece. *)
Definition stores_bytes (l : Log.Log) (d : directory) : list bytes :=
  (fun s => default [] (store_bytes d (Segment.store s))) <$> Log.segments l.

Definition log_bytes (l : Log.Log) (d : directory) : bytes :=
  concat (stores_bytes l d).

(** Calls of [Read] on the reader of a log with buffers of the lengths
    [ns], up to the first error: the bytes read and the error. *)
Fixpoint reads (ns : list nat) (rs : list Log.originReader) (l : Log.Log)
  (d : directory) : bytes * Log.Log * directory * option (result unit) :=
  match ns with
  | [] => ([], l, d, None)
  | n :: ns =>
      match Log.MultiReader_Read rs n l d with
      | (rs, l, d, (b, Ok _)) =>
          match reads ns rs l d with
          | (bs, l, d, e) => (b ++ bs, l, d, e)
          end
      | (rs, l, d, (b, err)) => (b, l, d, Some err)
      end
  end.

(** What the readers [rs] have not read yet, and readers inside their
    stores. *)
Definition remaining (sb : list bytes) (rs : list Log.originReader) : bytes :=
  rs ≫= (fun o => drop (Z.to_nat (Log.offset o)) (default [] (sb !! Log.store o))).

Definition inside (sb : list bytes) (o : Log.originReader) : Prop :=
  exists data, sb !! Log.store o = Some data /\
               0 <= Log.offset o <= Z.of_nat (length data).

(** ** The streams of the server *)

(** Every append of the requests [reqs], one after the other, stays within
    the limits of [within_limits]. *)
Fixpoint limits_hold `{Codec} (reqs : list api_Record) (l : Log.Log)
  (d : directory) : Prop :=
  match reqs with
  | [] => True
  | r :: reqs =>
      within_limits l r /\
      limits_hold reqs (Log.Append l r d).1.1.1 (Log.Append l r d).1.1.2
  end.

(** A stream of the subject [root] that is not cancelled and whose [Send]
    returns no error; an authorizer that knows [root] only. *)
Definition live_stream {Res} : Server.stream Res :=
  Server.mkStream (Some "root") None None [].

Definition root_only (sub obj act : string) : bool := String.eqb sub "root".

(** * Proofs *)

(** ** Machine integers, bytes and slices *)

Lemma u64_id z : 0 <= z < 2 ^ 64 -> u64 z = z.
Proof. intros. unfold u64. by apply Z.mod_small. Qed.

Lemma u32_id z : 0 <= z < 2 ^ 32 -> u32 z = z.
Proof. intros. unfold u32. by apply Z.mod_small. Qed.

Lemma i64_id z : 0 <= z < 2 ^ 63 -> i64 z = z.
Proof.
  intros. unfold i64. rewrite u64_id by lia.
  destruct (Z.ltb_spec z (2 ^ 63)); lia.
Qed.

Lemma u64_range z : 0 <= u64 z < 2 ^ 64.
Proof. unfold u64. apply Z.mod_pos_bound. lia. Qed.

Lemma i64_lt z : i64 z < 2 ^ 63.
Proof.
  unfold i64. pose proof (u64_range z).
  destruct (Z.ltb_spec (u64 z) (2 ^ 63)); lia.
Qed.

Lemma Z_of_byte_of_Z z : Z_of_byte (byte_of_Z z) = z mod 256.
Proof.
  unfold Z_of_byte, byte_of_Z.
  pose proof (Z.mod_pos_bound z 256 ltac:(lia)) as Hb.
  destruct (Byte.of_N (Z.to_N (z mod 256))) as [b|] eqn:Hof; simpl.
  - apply Byte.to_of_N in Hof. rewrite Hof. lia.
  - apply Byte.of_N_None_iff in Hof. lia.
Qed.

Lemma length_be_put n v : length (be_put n v) = n.
Proof. induction n; simpl; congruence. Qed.

Lemma be_get_put_acc n v acc :
  fold_left (fun a b => a * 256 + Z_of_byte b) (be_put n v) acc
  = acc * 2 ^ (8 * Z.of_nat n) + v mod 2 ^ (8 * Z.of_nat n).
Proof.
  revert acc. induction n as [|k IH]; intros acc.
  - simpl. rewrite Z.mod_1_r. lia.
  - cbn [be_put fold_left]. rewrite IH, Z_of_byte_of_Z, Z.shiftr_div_pow2 by lia.
    replace (8 * Z.of_nat (S k)) with (8 * Z.of_nat k + 8) by lia.
    rewrite Z.pow_add_r by lia.
    rewrite (Z.rem_mul_r v (2 ^ (8 * Z.of_nat k)) (2 ^ 8)) by lia.
    change (2 ^ 8) with 256. lia.
Qed.

Lemma be_get_put n v :
  0 <= v < 2 ^ (8 * Z.of_nat n) -> be_get (be_put n v) = v.
Proof.
  intros Hv. unfold be_get. rewrite be_get_put_acc.
  rewrite Z.mod_small by done. lia.
Qed.

Section slices.
Context {A : Type}.
Implicit Types l k x : list A.

Lemma sublist_lookup_app_l l k i n x :
  sublist_lookup i n l = Some x -> sublist_lookup i n (l ++ k) = Some x.
Proof.
  intros [-> Hle]%sublist_lookup_Some'.
  apply sublist_lookup_Some'. split; [|rewrite length_app; lia].
  rewrite drop_app_le by lia. rewrite take_app_le; [done|].
  rewrite length_drop. lia.
Qed.

Lemma sublist_lookup_middle l x k :
  sublist_lookup (length l) (length x) (l ++ x ++ k) = Some x.
Proof.
  apply sublist_lookup_Some'. split; [|rewrite !length_app; lia].
  rewrite drop_app_length. by rewrite take_app_length.
Qed.

Lemma length_copy_at (dst : list A) pos src :
  (pos + length src <= length dst)%nat ->
  length (@take A pos dst ++ src ++ drop (pos + length src) dst) = length dst.
Proof.
  intros. rewrite !length_app, length_take, length_drop. lia.
Qed.

Lemma sublist_lookup_copy_eq (dst : list A) pos src :
  (pos + length src <= length dst)%nat ->
  sublist_lookup pos (length src)
    (take pos dst ++ src ++ drop (pos + length src) dst) = Some src.
Proof.
  intros. pose proof (sublist_lookup_middle (take pos dst) src
                        (drop (pos + length src) dst)) as Hm.
  rewrite length_take in Hm. by replace (pos `min` length dst)%nat with pos in Hm by lia.
Qed.

Lemma sublist_lookup_copy_ne (dst : list A) pos src i n :
  (pos + length src <= length dst)%nat ->
  (i + n <= pos)%nat \/ (pos + length src <= i)%nat ->
  sublist_lookup i n (take pos dst ++ src ++ drop (pos + length src) dst)
  = sublist_lookup i n dst.
Proof.
  intros Hle Hdisj.
  destruct (decide (i + n <= length dst)%nat) as [Hin|Hout].
  2:{ rewrite !sublist_lookup_None; [done|lia|]. rewrite length_copy_at; lia. }
  rewrite !sublist_lookup_Some by (rewrite ?length_copy_at; lia).
  f_equal. apply list_eq. intros j.
  destruct (decide (j < n)%nat) as [Hj|Hj].
  2:{ rewrite !lookup_take_ge by lia. done. }
  rewrite !lookup_take_lt, !lookup_drop by lia.
  destruct Hdisj as [Hl|Hr].
  - rewrite lookup_app_l by (rewrite length_take; lia).
    by rewrite lookup_take_lt by lia.
  - rewrite lookup_app_r by (rewrite length_take; lia).
    rewrite lookup_app_r by (rewrite length_take; lia).
    rewrite lookup_drop, length_take. f_equal. lia.
Qed.

End slices.

(** ** File names *)

Lemma pretty_N_char_digit x : is_digit (pretty_N_char x) = true.
Proof. unfold pretty_N_char. by repeat case_match. Qed.

Lemma pretty_N_go_digits x s :
  all_digits s = true -> all_digits (pretty_N_go x s) = true.
Proof.
  revert s. induction (N.lt_wf_0 x) as [x _ IH]; intros s Hs.
  destruct (decide (x = 0)%N) as [->|Hx].
  - by rewrite pretty_N_go_0.
  - rewrite pretty_N_go_step by lia. apply IH.
    + apply N.div_lt; lia.
    + simpl. by rewrite pretty_N_char_digit.
Qed.

Lemma pretty_N_digits (x : N) : all_digits (pretty x) = true.
Proof.
  unfold pretty, pretty_N. case_decide; [done|].
  by apply pretty_N_go_digits.
Qed.

Lemma span_digits_app s c t :
  all_digits s = true -> is_digit c = false ->
  span_digits (s +:+ String c t) = (s, String c t).
Proof.
  intros Hs Hc. induction s as [|a s IH]; simpl in *.
  - by rewrite Hc.
  - apply andb_prop in Hs as [-> Hs]. by rewrite IH.
Qed.

Lemma fileName_inj b e b' e' :
  0 <= b -> 0 <= b' -> is_ext e -> is_ext e' ->
  Segment.fileName b e = Segment.fileName b' e' -> b = b' /\ e = e'.
Proof.
  intros Hb Hb' He He' Heq.
  assert (span_digits (Segment.fileName b e)
          = span_digits (Segment.fileName b' e')) as Hsp by (by rewrite Heq).
  unfold Segment.fileName in Hsp.
  destruct He as [-> | ->], He' as [-> | ->];
    rewrite !span_digits_app in Hsp by (done || apply pretty_N_digits);
    inversion Hsp as [[Hp]]; apply (inj pretty) in Hp; split; (lia || done).
Qed.

Lemma fileName_store_index b : Segment.fileName b ".store" <> Segment.fileName b ".index".
Proof.
  unfold Segment.fileName. intros Heq.
  assert (span_digits (pretty (Z.to_N b) +:+ ".store")
          = span_digits (pretty (Z.to_N b) +:+ ".index")) as Hsp by (by rewrite Heq).
  rewrite !span_digits_app in Hsp by (done || apply pretty_N_digits).
  discriminate.
Qed.

(** ** A failed append of a segment; a read outside of the segments *)

Section first_facts.
Context `{Codec}.

Lemma Segment_Append_returns_next s r s' r' off :
  Segment.Append s r = (s', r', Ok off) ->
  off = Segment.nextOffset s /\
  Segment.nextOffset s' = u64 (Segment.nextOffset s + 1) /\
  Segment.baseOffset s' = Segment.baseOffset s /\
  r' = mkRecord (Value r) (Segment.nextOffset s).
Proof.
  unfold Segment.Append. intros Happ.
  destruct (marshal _) as [p|]; [|discriminate].
  destruct (Store.Append _ p) as [st [[n pos]|e|]];
    [|discriminate..].
  destruct (Index.Write _ _ pos) as [ix [[]|e|]]; [|discriminate..].
  by inversion Happ.
Qed.

Lemma Segment_Append_error s r s' r' e :
  Segment.Append s r = (s', r', Err e) ->
  Segment.nextOffset s' = Segment.nextOffset s /\
  Segment.baseOffset s' = Segment.baseOffset s.
Proof.
  unfold Segment.Append. intros Happ.
  destruct (marshal _) as [p|]; [|by inversion Happ].
  destruct (Store.Append _ p) as [st [[n pos]|e'|]];
    [|by inversion Happ|discriminate].
  destruct (Index.Write _ _ pos) as [ix [[]|e'|]];
    [discriminate|by inversion Happ|discriminate].
Qed.

(** C10. A call of [segment.Append] that returns an error leaves [nextOffset]
    as it was, whichever of the three error returns it takes (marshalling,
    the store, the index), so no offset is consumed: the next append of the
    segment that succeeds returns the offset the failed one would have had. *)
Theorem failed_append_keeps_nextOffset s r s' r' e :
  Segment.Append s r = (s', r', Err e) ->
  Segment.nextOffset s' = Segment.nextOffset s /\
  forall r2 s2 r2' off,
    Segment.Append s' r2 = (s2, r2', Ok off) -> off = Segment.nextOffset s.
Proof.
  intros Hfail. destruct (Segment_Append_error _ _ _ _ _ Hfail) as [Hn _].
  split; [done|]. intros r2 s2 r2' off Hok.
  apply Segment_Append_returns_next in Hok as [-> _]. done.
Qed.

(** C8. When no segment covers the offset, [Log.Read] returns the
    offset-out-of-range error that carries the requested offset, and the log
    and the directory are as before the call. *)
Theorem Read_uncovered l d off :
  (forall s, s ∈ Log.segments l -> ~ Log.covers off s) ->
  Log.Read l off d = (l, d, Err (ErrOffsetOutOfRange off)).
Proof.
  intros Hno. unfold Log.Read.
  destruct (list_find _ _) as [[k s]|] eqn:Hfind; [|done].
  apply list_find_Some in Hfind as (Hk & Hcov & _).
  destruct (Hno s); [|done]. by eapply list_elem_of_lookup_2.
Qed.

End first_facts.

Lemma failed_append_keeps_nextOffset_witness :
  exists s s' r',
    Log.segments full_index_log.1 !! 0%nat = Some s /\
    Segment.Append s (payload "d") = (s', r', Err EOF) /\
    Segment.nextOffset s' = 3 /\
    forall r2 s2 r2' off,
      Segment.Append s' r2 = (s2, r2', Ok off) -> off = 3.
Proof.
  destruct (Log.segments full_index_log.1 !! 0%nat) as [s|] eqn:Hs;
    [|vm_compute in Hs; discriminate].
  assert (Segment.nextOffset s = 3) as Hn.
  { assert (Segment.nextOffset <$> Log.segments full_index_log.1 !! 0%nat = Some 3)
      as Hc by (vm_compute; reflexivity).
    rewrite Hs in Hc. by injection Hc. }
  assert ((Segment.Append s (payload "d")).2 = Err EOF) as Hr.
  { assert ((fun o => match o with
                      | Some x => (Segment.Append x (payload "d")).2
                      | None => Panic
                      end) (Log.segments full_index_log.1 !! 0%nat) = Err EOF)
      as Hc by (vm_compute; reflexivity).
    by rewrite Hs in Hc. }
  destruct (Segment.Append s (payload "d")) as [[s' r'] res] eqn:Happ.
  simpl in Hr. subst res.
  destruct (failed_append_keeps_nextOffset s (payload "d") s' r' EOF Happ) as [Hk Hnext].
  exists s, s', r'. rewrite <- Hn. split_and!; done.
Defined.

Lemma Read_uncovered_witness :
  (Log.Read fresh_log.1 0 fresh_log.2)
  = (fresh_log.1, fresh_log.2, Err (ErrOffsetOutOfRange 0)).
Proof.
  apply (Read_uncovered fresh_log.1 fresh_log.2 0).
  apply Forall_forall. apply (bool_decide_unpack _); vm_compute; exact I.
Defined.

(** ** Truncate *)

Lemma Truncate_loop_filter lowest ss d all kept d' :
  Log.Truncate_loop lowest ss d = (all, kept, d', Ok tt) ->
  kept = filter (fun s => lowest < Segment.nextOffset s) ss.
Proof.
  revert d all kept d'. induction ss as [|s rest IH]; intros d all kept d' Hl.
  - by inversion Hl.
  - simpl in Hl. destruct (Z.leb_spec (Segment.nextOffset s) lowest).
    + rewrite filter_cons_False by lia.
      destruct (Segment.Remove s d) as [[s1 d1] [[]|e|]]; [|discriminate..].
      destruct (Log.Truncate_loop lowest rest d1) as [[[a k] d2] r] eqn:Hr.
      inversion Hl; subst. by eapply IH.
    + rewrite filter_cons_True by lia.
      destruct (Log.Truncate_loop lowest rest d) as [[[a k] d2] r] eqn:Hr.
      inversion Hl; subst. f_equal. by eapply IH.
Qed.

(** C4. When [Truncate(lowest)] returns, the segments of the log are those
    whose [nextOffset] is above [lowest], in their former order (the others
    have been removed), and the active segment is the last of them. *)
Theorem Truncate_keeps_segments_above l lowest d l' d' :
  Log.Truncate l lowest d = (l', d', Ok tt) ->
  Log.segments l'
  = filter (fun s => lowest < Segment.nextOffset s) (Log.segments l) /\
  exists a s,
    Log.activeSegment l' = Some a /\ Log.segments l' !! a = Some s /\
    last (Log.segments l') = Some s.
Proof.
  unfold Log.Truncate. intros Htr.
  destruct (Log.Truncate_loop lowest (Log.segments l) d) as [[[all kept] d1] r] eqn:Hloop.
  destruct r as [[]|e|]; [|by simplify_eq..].
  apply Truncate_loop_filter in Hloop as ->.
  destruct (filter _ _) as [|k0 kept] eqn:Hf; simplify_eq.
  split; [done|]. simpl.
  destruct (last (k0 :: kept)) as [s|] eqn:Hlast.
  - exists (length kept - 0)%nat, s. split_and!; try done.
    rewrite last_lookup in Hlast. simpl in Hlast. by rewrite Nat.sub_0_r.
  - by apply last_None in Hlast.
Qed.

Lemma Truncate_keeps_segments_above_witness :
  bases (Log.segments (Log.Truncate two_segments.1 3 two_segments.2).1.1)
  = bases (filter (fun s => 3 < Segment.nextOffset s) (Log.segments two_segments.1)) /\
  Log.activeSegment (Log.Truncate two_segments.1 3 two_segments.2).1.1 = Some 0%nat.
Proof.
  destruct (Truncate_keeps_segments_above two_segments.1 3 two_segments.2
              (Log.Truncate two_segments.1 3 two_segments.2).1.1
              (Log.Truncate two_segments.1 3 two_segments.2).1.2)
    as (Hsegs & a & s & Ha & _).
  - vm_compute. reflexivity.
  - split; [by rewrite Hsegs|]. vm_compute. reflexivity.
Defined.

(** C9, at the failing inputs. When every segment ends at or below [lowest],
    no segment is kept and [Truncate] panics on the index [-1] of the empty
    slice instead of returning: on the fresh log with [lowest = 0], and on the
    log of three records whose fresh active segment starts at 3 with
    [lowest = 3]. *)
Theorem Truncate_of_every_segment_panics :
  (Log.NewLog "data" (caps 1024 1024 0) ∅).2 = Ok tt /\
  (Log.Truncate fresh_log.1 0 fresh_log.2).2 = Panic /\
  Forall (fun s => Segment.nextOffset s <= 3) (Log.segments three_appends.1) /\
  (Log.Truncate three_appends.1 3 three_appends.2).2 = Panic.
Proof.
  split_and!.
  - vm_compute; reflexivity.
  - vm_compute; reflexivity.
  - apply (bool_decide_unpack _); vm_compute; exact I.
  - vm_compute; reflexivity.
Qed.

Lemma Truncate_loop_keep lowest ss d :
  (forall s, s ∈ ss -> lowest < Segment.nextOffset s) ->
  Log.Truncate_loop lowest ss d = (ss, ss, d, Ok tt).
Proof.
  induction ss as [|s rest IH]; intros Hall; [done|]. simpl.
  destruct (Z.leb_spec (Segment.nextOffset s) lowest) as [Hle|_].
  - pose proof (Hall s (list_elem_of_here _ _)). lia.
  - rewrite IH; [done|]. intros x Hx. apply Hall. by apply list_elem_of_further.
Qed.

(** ** A log on an empty directory *)

Lemma newSegment_fresh d b c d' r :
  d !! Segment.fileName b ".store" = None ->
  d !! Segment.fileName b ".index" = None ->
  Segment.newSegment d b c = (d', r) ->
  r <> Panic /\
  (forall name, name <> Segment.fileName b ".store" ->
                name <> Segment.fileName b ".index" -> d' !! name = d !! name) /\
  is_Some (d' !! Segment.fileName b ".store") /\
  is_Some (d' !! Segment.fileName b ".index") /\
  (0 < i64 (MaxIndexBytes (Segment c)) -> is_Ok r) /\
  (forall s, r = Ok s ->
     s = fresh_segment b c /\
     0 < i64 (MaxIndexBytes (Segment c)) /\
     d' !! Segment.fileName b ".store" = Some [] /\
     d' !! Segment.fileName b ".index"
       = Some (replicate (Z.to_nat (i64 (MaxIndexBytes (Segment c)))) x00)).
Proof.
  intros Hs Hi. pose proof (fileName_store_index b) as Hne.
  unfold Segment.newSegment, os_OpenFile. rewrite Hs.
  unfold Store.newStore, os_Stat. rewrite lookup_insert_eq. simpl.
  rewrite lookup_insert_ne, Hi by done.
  unfold Index.newIndex, os_Stat, os_Truncate. rewrite !lookup_insert_eq.
  destruct (Z.ltb_spec (i64 (MaxIndexBytes (Segment c))) 0) as [Hneg|Hpos].
  { intros [= <- <-]. split_and!; try done.
    - intros name H1 H2. by rewrite !lookup_insert_ne.
    - rewrite lookup_insert_ne by done. by rewrite lookup_insert_eq.
    - by rewrite lookup_insert_eq.
    - lia. }
  unfold gommap_Map. rewrite lookup_insert_eq, resize_nil.
  destruct (Z.to_nat (i64 (MaxIndexBytes (Segment c)))) as [|k] eqn:Hk; simpl.
  { intros [= <- <-]. split_and!; try done.
    - intros name H1 H2. by rewrite !lookup_insert_ne.
    - rewrite !lookup_insert_ne by done. by rewrite lookup_insert_eq.
    - by rewrite lookup_insert_eq.
    - lia. }
  intros [= <- <-]. split_and!; try done.
  - intros name H1 H2. by rewrite !lookup_insert_ne.
  - rewrite !lookup_insert_ne by done. by rewrite lookup_insert_eq.
  - by rewrite lookup_insert_eq.
  - intros s [= <-]. unfold fresh_segment. rewrite Hk. simpl.
    split; [done|]. split; [lia|].
    rewrite !lookup_insert_ne by done. by rewrite !lookup_insert_eq.
Qed.

Lemma os_ReadDir_empty : os_ReadDir ∅ = [].
Proof. reflexivity. Qed.

Lemma setup_empty dir c l d :
  Log.setup (Log.mkLog dir c None []) ∅ = (l, d, Ok tt) ->
  let b := InitialOffset (Segment c) in
  l = Log.mkLog dir c (Some 0%nat) [fresh_segment b c] /\
  0 < i64 (MaxIndexBytes (Segment c)) /\
  d !! Segment.fileName b ".store" = Some [] /\
  d !! Segment.fileName b ".index"
    = Some (replicate (Z.to_nat (i64 (MaxIndexBytes (Segment c)))) x00) /\
  (forall name, name <> Segment.fileName b ".store" ->
                name <> Segment.fileName b ".index" -> d !! name = None).
Proof.
  unfold Log.setup. rewrite os_ReadDir_empty. simpl.
  unfold Log.newSegment. simpl.
  destruct (Segment.newSegment ∅ _ _) as [d1 r] eqn:Hn.
  destruct (newSegment_fresh _ _ _ _ _ (lookup_empty _) (lookup_empty _) Hn)
    as (Hp & Hfr & _ & _ & _ & Hok).
  destruct r as [s| |]; simpl; [|discriminate..].
  intros [= <- <-].
  destruct (Hok s eq_refl) as (-> & ? & ? & ?).
  split_and!; done.
Qed.

Lemma defaults_InitialOffset c :
  InitialOffset (Segment (Log.defaults c)) = InitialOffset (Segment c).
Proof. unfold Log.defaults. simpl. by repeat case_match. Qed.

Lemma NewLog_empty dir c l d :
  Log.NewLog dir c ∅ = (l, d, Ok tt) ->
  let c' := Log.defaults c in
  let b := InitialOffset (Segment c') in
  l = Log.mkLog dir c' (Some 0%nat) [fresh_segment b c'] /\
  0 < i64 (MaxIndexBytes (Segment c')) /\
  d !! Segment.fileName b ".store" = Some [] /\
  d !! Segment.fileName b ".index"
    = Some (replicate (Z.to_nat (i64 (MaxIndexBytes (Segment c')))) x00) /\
  (forall name, name <> Segment.fileName b ".store" ->
                name <> Segment.fileName b ".index" -> d !! name = None).
Proof. apply setup_empty. Qed.

(** ** HighestOffset *)

Lemma HighestOffset_from_5_is_4 :
  (Log.NewLog "data" (caps 1024 1024 5) ∅).2 = Ok tt /\
  Forall (fun s => Segment.nextOffset s = Segment.baseOffset s)
    (Log.segments fresh_log_from_5.1) /\
  Log.HighestOffset fresh_log_from_5.1 = Ok 4 /\
  Log.HighestOffset fresh_log_from_5.1 <> Ok 0.
Proof.
  split_and!.
  - vm_compute; reflexivity.
  - apply (bool_decide_unpack _); vm_compute; exact I.
  - vm_compute; reflexivity.
  - vm_compute. discriminate.
Qed.

(** C7, amended. [HighestOffset] returns the [nextOffset] of the last segment
    minus one when that [nextOffset] is not zero, and 0 when it is zero. The
    segment of a log opened on an empty directory has
    [nextOffset = InitialOffset], so that the empty log reports
    [InitialOffset - 1] for a positive [InitialOffset] and 0 only for 0. *)
Theorem HighestOffset_of_last_segment dir c l d s :
  last (Log.segments l) = Some s ->
  is_u64 (Segment.nextOffset s) ->
  Log.HighestOffset l
  = Ok (if Segment.nextOffset s =? 0 then 0 else Segment.nextOffset s - 1) /\
  (is_u64 (InitialOffset (Segment c)) ->
   Log.NewLog dir c ∅ = (l, d, Ok tt) ->
   Segment.nextOffset s = InitialOffset (Segment c) /\
   Segment.baseOffset s = InitialOffset (Segment c)).
Proof.
  intros Hlast Hu. split.
  - unfold Log.HighestOffset. rewrite Hlast.
    destruct (Z.eqb_spec (Segment.nextOffset s) 0); [done|].
    unfold is_u64 in Hu. by rewrite u64_id by lia.
  - intros Hio Hnew. apply NewLog_empty in Hnew as (-> & _).
    rewrite defaults_InitialOffset in Hlast. simpl in Hlast. by simplify_eq.
Qed.

Lemma HighestOffset_of_last_segment_witness :
  Log.HighestOffset fresh_log_from_5.1 = Ok 4.
Proof.
  destruct (Log.segments fresh_log_from_5.1) as [|s0 rest] eqn:Hsegs;
    [vm_compute in Hsegs; discriminate|].
  assert (exists s, last (Log.segments fresh_log_from_5.1) = Some s
                    /\ Segment.nextOffset s = 5) as (s & Hlast & Hn).
  { eexists. split; vm_compute; reflexivity. }
  destruct (HighestOffset_of_last_segment "data" (caps 1024 1024 5)
              fresh_log_from_5.1 fresh_log_from_5.2 s Hlast) as [Hh _].
  - rewrite Hn. unfold is_u64. lia.
  - rewrite Hh, Hn. reflexivity.
Defined.

(** ** newIndex and setup on directories of an earlier life *)

(** C5, at the failing input. [newIndex] on an index file of 24 bytes (two
    entries) with [MaxIndexBytes = 12] cuts the file to its first 12 bytes,
    while [size] stays 24 and the mapping has 12 bytes: the read of the last
    entry goes past the mapping and panics, and so does opening the log. With
    a cap above the length the log opens. *)
Theorem newIndex_cuts_longer_file :
  length <$> closed_directory !! "0.index" = Some 24%nat /\
  (let '(d, r) := Index.newIndex closed_directory "0.index" (caps 1024 12 0) in
   (d !! "0.index",
    match r with
    | Ok ix => Some (Index.size ix, length (Index.mmap ix), Index.Read ix (-1))
    | _ => None
    end))
  = (take 12 <$> closed_directory !! "0.index", Some (24, 12%nat, Panic)) /\
  (Log.NewLog "data" (caps 1024 12 0) closed_directory).2 = Panic /\
  (Log.NewLog "data" (caps 1024 1024 0) closed_directory).2 = Ok tt.
Proof. split_and!; vm_compute; reflexivity. Qed.

(** C6, at the failing inputs. A file of another kind in the directory is
    not ignored: its name parses to 0, a third base offset, and the log has
    two segments of base offset 0. Base offsets more than [1 << 63] apart are
    put in the wrong order by the comparison [int(i - j)]. *)
Theorem setup_on_unexpected_directories :
  os_ReadDir stray_directory = ["0.index"; "0.store"; "notes.txt"] /\
  Log.baseOffset_of_name <$> os_ReadDir stray_directory = [0; 0; 0] /\
  (Log.NewLog "data" (caps 1024 1024 0) stray_directory).2 = Ok tt /\
  bases (Log.segments
           (Log.NewLog "data" (caps 1024 1024 0) stray_directory).1.1)
  = [0; 0] /\
  (Log.NewLog "data" (caps 1024 1024 0) distant_directory).2 = Ok tt /\
  bases (Log.segments
           (Log.NewLog "data" (caps 1024 1024 0) distant_directory).1.1)
  = [9223372036854775809; 0].
Proof. split_and!; vm_compute; reflexivity. Qed.

(** ** The store *)

#[local] Opaque be_put.
Arguments u64 : simpl never.
Arguments u32 : simpl never.
Arguments i64 : simpl never.

Lemma stored_app data k pos p : stored data pos p -> stored (data ++ k) pos p.
Proof. intros (? & ? & ?). split_and!; [done..|]. by apply sublist_lookup_app_l. Qed.

Lemma stored_end data p :
  Z.of_nat (length p) <= Store.maxAlloc ->
  stored (data ++ be_put 8 (Z.of_nat (length p)) ++ p) (Z.of_nat (length data)) p.
Proof.
  intros. split_and!; [lia|done|]. rewrite Nat2Z.id.
  pose proof (sublist_lookup_middle data (be_put 8 (Z.of_nat (length p)) ++ p) []) as Hm.
  rewrite length_app, length_be_put, !app_nil_r in Hm. done.
Qed.

Lemma stored_parts data pos p :
  stored data pos p ->
  sublist_lookup (Z.to_nat pos) 8 data = Some (be_put 8 (Z.of_nat (length p))) /\
  sublist_lookup (Z.to_nat (pos + 8)) (length p) data = Some p /\
  pos + 8 + Z.of_nat (length p) <= Z.of_nat (length data).
Proof.
  intros (Hpos & _ & [Heq Hle]%sublist_lookup_Some').
  assert (length (be_put 8 (Z.of_nat (length p))) = 8%nat) as Hl8
    by apply length_be_put.
  split_and!; [| |lia].
  - apply sublist_lookup_Some'. split; [|lia].
    apply (f_equal (take 8)) in Heq.
    rewrite take_app_length' in Heq by done.
    rewrite take_take in Heq. by replace (8 `min` (8 + length p))%nat with 8%nat in Heq by lia.
  - apply sublist_lookup_Some'. split; [|lia].
    apply (f_equal (drop 8)) in Heq.
    rewrite drop_app_length' in Heq by done.
    rewrite <- take_drop_commute, drop_drop in Heq.
    replace (Z.to_nat (pos + 8)) with (Z.to_nat pos + 8)%nat by lia.
    by replace (8 + length p - 8)%nat with (length p) in Heq by lia.
Qed.

Lemma Store_Append_rep d st data p :
  store_ok d st data ->
  Store.size st + 8 + Z.of_nat (length p) < 2 ^ 63 ->
  exists st',
    Store.Append st p = (st', Ok (8 + Z.of_nat (length p), Store.size st)) /\
    store_ok d st' (data ++ be_put 8 (Z.of_nat (length p)) ++ p) /\
    Store.File st' = Store.File st.
Proof.
  intros [Hwr Herr Hdata Hsize Hbound] Hfit.
  unfold Store.Append, bufio_Write. rewrite Herr. simpl.
  pose proof (Nat2Z.is_nonneg (length p)). pose proof (Nat2Z.is_nonneg (length data)).
  unfold Store.lenWidth.
  rewrite (u64_id (Z.of_nat (length p))) by lia.
  rewrite (u64_id (Z.of_nat (length p) + 8)) by lia.
  rewrite u64_id by lia.
  eexists. split; [f_equal; f_equal; f_equal; lia|]. split; [|done].
  split; simpl; try done.
  - unfold store_bytes in *. simpl. destruct (d !! Store.File st); simpl in *; [|done].
    inversion Hdata; subst. by rewrite <- !app_assoc.
  - rewrite !length_app, length_be_put. lia.
  - lia.
Qed.

Lemma Store_Append_outcome st p st' r :
  Store.Append st p = (st', r) ->
  Store.File st' = Store.File st /\ r <> Panic.
Proof.
  unfold Store.Append, bufio_Write.
  repeat case_match; intros; simplify_eq/=; done.
Qed.

Lemma Store_Read_rep d st data pos p :
  store_ok d st data -> stored data pos p ->
  exists st' d',
    Store.Read st pos d = (st', d', Ok p) /\
    store_ok d' st' data /\
    Store.File st' = Store.File st /\
    (forall name, name <> Store.File st -> d' !! name = d !! name) /\
    is_Some (d' !! Store.File st).
Proof.
  intros [Hwr Herr Hdata Hsize Hbound] Hst.
  destruct (stored_parts _ _ _ Hst) as (H8 & Hp & Hle).
  destruct Hst as (Hpos & Hmax & _).
  unfold store_bytes in Hdata.
  destruct (d !! Store.File st) as [c|] eqn:Hc; simpl in Hdata; [|done].
  injection Hdata as Hdata.
  assert (exists b d',
    bufio_Flush (Store.buf st) d = (b, d', Ok tt) /\
    wr b = Store.File st /\ werr b = None /\ pending b = [] /\
    d' !! Store.File st = Some data /\
    (forall name, name <> Store.File st -> d' !! name = d !! name))
    as (b & d' & Hflush & Hbwr & Hberr & Hbp & Hd' & Hframe).
  { unfold bufio_Flush. rewrite Herr.
    destruct (pending (Store.buf st)) as [|x q] eqn:Hpend.
    - exists (Store.buf st), d. rewrite app_nil_r in Hdata. subst c. done.
    - unfold file_Write. rewrite Hwr, Hc.
      eexists _, _. split; [done|]. simpl. split_and!; try done.
      + by rewrite lookup_insert_eq, Hdata.
      + intros name Hne. by rewrite lookup_insert_ne. }
  unfold Store.Read. rewrite Hflush. simpl.
  unfold file_ReadAt. rewrite Hd'.
  rewrite i64_id by lia.
  destruct (Z.ltb_spec pos 0); [lia|]. simpl. rewrite H8.
  rewrite be_get_put by (unfold Store.maxAlloc in Hmax; simpl; lia).
  destruct (Z.ltb_spec Store.maxAlloc (Z.of_nat (length p))); [lia|].
  unfold Store.lenWidth. rewrite u64_id, i64_id by lia.
  destruct (Z.ltb_spec (pos + 8) 0); [lia|]. rewrite Nat2Z.id.
  assert ((if (length p =? 0)%nat then Ok []
           else match sublist_lookup (Z.to_nat (pos + 8)) (length p) data with
                | Some b0 => Ok b0 | None => Err EOF end) = Ok p) as ->.
  { destruct (Nat.eqb_spec (length p) 0) as [Hz|Hz].
    - by destruct p.
    - by rewrite Hp. }
  eexists _, _. split; [done|]. split_and!; try done.
  split; simpl; try done. unfold store_bytes. simpl.
  rewrite Hd'. simpl. by rewrite Hbp, app_nil_r.
Qed.

(** ** The index *)

Lemma Index_Read_entry ix ents off e :
  index_ok ix ents -> 0 <= off < 2 ^ 32 ->
  ents !! Z.to_nat off = Some e -> Index.Read ix off = Ok e.
Proof.
  intros [Hsize Hfit Hlen Hents] Hoff He.
  pose proof (lookup_lt_Some _ _ _ He) as Hlt.
  specialize (Hents _ _ He). unfold index_entry in Hents.
  unfold Index.Read, Index.entWidth, Index.offWidth, Index.posWidth.
  change (4 + 8) with 12.
  destruct (Z.eqb_spec (Index.size ix) 0); [lia|].
  destruct (Z.eqb_spec off (-1)); [lia|].
  rewrite (u32_id off) by done.
  rewrite (u64_id (off * 12)) by lia.
  rewrite (u64_id (off * 12 + 12)) by lia.
  destruct (Z.ltb_spec (Index.size ix) (off * 12 + 12)); [lia|].
  unfold Index.mmap_slice.
  replace (Z.to_nat (off * 12)) with (12 * Z.to_nat off)%nat by lia.
  replace (Z.to_nat (off * 12 + 4)) with (12 * Z.to_nat off + 4)%nat by lia.
  destruct (sublist_lookup _ 4 _) as [o|]; simpl in Hents; [|done].
  destruct (sublist_lookup _ 8 _) as [p|]; simpl in Hents; [|done].
  by injection Hents as <-.
Qed.

Lemma Index_Read_empty ix offset : Index.size ix = 0 -> Index.Read ix offset = Err EOF.
Proof. intros Hs. unfold Index.Read. by rewrite Hs. Qed.

Lemma Index_Write_full ix ents o p :
  index_ok ix ents ->
  Z.of_nat (length (Index.mmap ix)) < Index.size ix + 12 ->
  Index.Write ix o p = (ix, Err EOF).
Proof.
  intros [Hsize Hfit Hlen Hents] Hfull.
  unfold Index.Write, Index.entWidth, Index.offWidth, Index.posWidth.
  change (4 + 8) with 12.
  rewrite u64_id by lia.
  by destruct (Z.ltb_spec (Z.of_nat (length (Index.mmap ix))) (Index.size ix + 12)); [|lia].
Qed.

Lemma Index_Write_room ix ents o p :
  index_ok ix ents -> 0 <= o < 2 ^ 32 -> 0 <= p < 2 ^ 64 ->
  Index.size ix + 12 <= Z.of_nat (length (Index.mmap ix)) ->
  exists ix',
    Index.Write ix o p = (ix', Ok tt) /\
    index_ok ix' (ents ++ [(o, p)]) /\
    Index.file ix' = Index.file ix.
Proof.
  intros [Hsize Hfit Hlen Hents] Ho Hp Hroom.
  unfold Index.Write, Index.entWidth, Index.offWidth, Index.posWidth.
  change (4 + 8) with 12.
  rewrite u64_id by lia.
  destruct (Z.ltb_spec (Z.of_nat (length (Index.mmap ix))) (Index.size ix + 12)); [lia|].
  eexists. split; [done|]. split; [|done].
  set (n := length ents) in *.
  assert (Z.to_nat (Index.size ix) = 12 * n)%nat as Hsz by lia.
  assert (Z.to_nat (Index.size ix + 4) = 12 * n + 4)%nat as Hsz4 by lia.
  rewrite Hsz, Hsz4. unfold copy_at.
  set (m1 := take (12 * n) (Index.mmap ix) ++ be_put 4 o
             ++ drop (12 * n + length (be_put 4 o)) (Index.mmap ix)).
  assert (length m1 = length (Index.mmap ix)) as Hl1.
  { unfold m1. apply length_copy_at. rewrite length_be_put. lia. }
  set (m2 := take (12 * n + 4) m1 ++ be_put 8 p
             ++ drop (12 * n + 4 + length (be_put 8 p)) m1).
  assert (length m2 = length (Index.mmap ix)) as Hl2.
  { unfold m2. rewrite length_copy_at; [done|]. rewrite length_be_put. lia. }
  assert (forall i k, (i + k <= 12 * n)%nat ->
            sublist_lookup i k m2 = sublist_lookup i k (Index.mmap ix)) as Hold.
  { intros i k Hik. unfold m2.
    rewrite sublist_lookup_copy_ne by (rewrite ?length_be_put; lia).
    unfold m1. by rewrite sublist_lookup_copy_ne by (rewrite ?length_be_put; lia). }
  split; simpl.
  - rewrite length_app. simpl. lia.
  - rewrite length_app, Hl2. simpl. lia.
  - by rewrite Hl2.
  - intros j e He. unfold index_entry.
    apply lookup_app_Some in He as [He|[Hge He]].
    + pose proof (lookup_lt_Some _ _ _ He).
      rewrite !Hold by lia. by apply Hents.
    + assert (j = n) as -> by (apply list_lookup_singleton_Some in He; lia).
      replace (n - length ents)%nat with 0%nat in He by lia.
      injection He as <-.
      assert (sublist_lookup (12 * n) 4 m2 = Some (be_put 4 o)) as ->.
      { unfold m2. rewrite sublist_lookup_copy_ne by (rewrite ?length_be_put; lia).
        unfold m1. pose proof (sublist_lookup_copy_eq (Index.mmap ix) (12 * n) (be_put 4 o)) as Hc.
        rewrite length_be_put in Hc. apply Hc. lia. }
      assert (sublist_lookup (12 * n + 4) 8 m2 = Some (be_put 8 p)) as ->.
      { unfold m2. pose proof (sublist_lookup_copy_eq m1 (12 * n + 4) (be_put 8 p)) as Hc.
        rewrite length_be_put in Hc. apply Hc. lia. }
      simpl. by rewrite !be_get_put by (simpl; lia).
Qed.

(** ** The invariant of a segment *)

Section segment_lemmas.
Context `{Codec} `{!CodecLaws}.

Lemma seg_ok_fresh d b c :
  0 <= b < 2 ^ 64 ->
  0 < i64 (MaxIndexBytes (Segment c)) ->
  d !! Segment.fileName b ".store" = Some [] ->
  is_Some (d !! Segment.fileName b ".index") ->
  seg_ok d (fresh_segment b c) [].
Proof.
  intros Hb Hc Hs Hi. split; simpl; try done; try lia.
  exists [], []. split_and!; [| |constructor].
  - split; simpl; try done. unfold store_bytes. simpl. by rewrite Hs.
  - split; simpl; try done; try lia.
    rewrite length_replicate. pose proof (i64_lt (MaxIndexBytes (Segment c))). lia.
Qed.

Lemma seg_ok_frame d d' s recs :
  seg_ok d s recs ->
  d' !! Store.File (Segment.store s) = d !! Store.File (Segment.store s) ->
  is_Some (d' !! Index.file (Segment.index s)) ->
  seg_ok d' s recs.
Proof.
  intros [] Hst Hix. split; try done.
  destruct sg_rep0 as (data & ents & [] & Hio & Hall).
  exists data, ents. split_and!; try done. split; try done.
  unfold store_bytes in *. by rewrite Hst.
Qed.

Lemma seg_ok_range d s recs :
  seg_ok d s recs ->
  0 <= Segment.baseOffset s <= Segment.nextOffset s /\
  Segment.nextOffset s < 2 ^ 64.
Proof. intros []. lia. Qed.

Lemma Segment_Append_rep d s recs r s' r' res :
  seg_ok d s recs -> append_fits s r ->
  Segment.Append s r = (s', r', res) ->
  r' = mkRecord (Value r) (Segment.nextOffset s) /\
  Segment.baseOffset s' = Segment.baseOffset s /\
  Segment.config s' = Segment.config s /\
  match res with
  | Ok off => off = Segment.nextOffset s /\ seg_ok d s' (recs ++ [r'])
  | Err _ => seg_ok d s' recs
  | Panic => False
  end.
Proof.
  intros Hok (Hnext & Hrel & Hp) Happ. unfold Segment.Append in Happ.
  destruct (marshal _) as [p|] eqn:Hm.
  2:{ by simplify_eq. }
  destruct (Hp p eq_refl) as [Hmax Hsz].
  pose proof Hok as [Hsn Hin Hif Hb Hn Hbd Hcnt Hoffs (data & ents & Hst & Hix & Hall)].
  destruct (Store_Append_rep _ _ _ p Hst Hsz) as (st' & Hsa & Hst' & Hfile).
  rewrite Hsa in Happ.
  assert (u32 (u64 (Segment.nextOffset s - Segment.baseOffset s))
          = Z.of_nat (length recs)) as Hrelv.
  { rewrite u64_id, u32_id by lia. lia. }
  rewrite Hrelv in Happ.
  pose proof (Forall2_length _ _ _ Hall) as Hlen.
  assert (Forall2 (entry_holds (data ++ be_put 8 (Z.of_nat (length p)) ++ p))
            recs ents) as Hall'.
  { eapply Forall2_impl; [done|]. intros rec e (q & Hq & Hu).
    exists q. split; [by apply stored_app|done]. }
  destruct (decide (Index.size (Segment.index s) + 12
                    <= Z.of_nat (length (Index.mmap (Segment.index s))))) as [Hroom|Hfull].
  - destruct (Index_Write_room _ _ (Z.of_nat (length recs)) (Store.size (Segment.store s))
                Hix) as (ix' & Hw & Hix' & Hfile'); [lia| |done|].
    { destruct Hst. lia. }
    rewrite Hw in Happ. simplify_eq. split_and!; try done.
    split; cbn [Segment.store Segment.index Segment.baseOffset Segment.nextOffset];
      try done; try congruence.
    + rewrite u64_id by lia. rewrite length_app. simpl. lia.
    + apply u64_range.
    + rewrite length_app. simpl. lia.
    + intros j rec [Hj|[Hge Hj]]%lookup_app_Some; [by apply Hoffs|].
      apply list_lookup_singleton_Some in Hj as [Hj <-]. simpl. lia.
    + eexists _, _. split_and!; [done..|].
      apply Forall2_app; [done|]. constructor; [|constructor].
      exists p. simpl. split.
      * destruct Hst as [_ _ _ -> _]. by apply stored_end.
      * by apply unmarshal_marshal.
  - rewrite (Index_Write_full _ ents) in Happ by (done || lia).
    simplify_eq. split_and!; try done.
    split; cbn [Segment.store Segment.index Segment.baseOffset Segment.nextOffset];
      try done; try congruence.
    eexists _, _. done.
Qed.

Lemma Segment_Read_rep d s recs j rec :
  seg_ok d s recs -> recs !! j = Some rec ->
  exists s' d',
    Segment.Read s (Segment.baseOffset s + Z.of_nat j) d = (s', d', Ok rec) /\
    seg_ok d' s' recs /\
    Segment.baseOffset s' = Segment.baseOffset s /\
    Segment.nextOffset s' = Segment.nextOffset s /\
    Segment.config s' = Segment.config s /\
    (forall name, name <> Segment.fileName (Segment.baseOffset s) ".store" ->
                  d' !! name = d !! name) /\
    is_Some (d' !! Segment.fileName (Segment.baseOffset s) ".store").
Proof.
  intros Hok Hj.
  pose proof Hok as [Hsn Hin Hif Hb Hn Hbd Hcnt Hoffs (data & ents & Hst & Hix & Hall)].
  pose proof (lookup_lt_Some _ _ _ Hj) as Hlt.
  destruct (Forall2_lookup_l _ _ _ _ _ Hall Hj) as ([o pos] & He & (p & Hp & Hu)).
  simpl in Hp.
  unfold Segment.Read.
  replace (Segment.baseOffset s + Z.of_nat j - Segment.baseOffset s)
    with (Z.of_nat j) by lia.
  rewrite u64_id, i64_id by lia.
  rewrite (Index_Read_entry _ ents (Z.of_nat j) (o, pos)); [|done|lia|by rewrite Nat2Z.id].
  destruct (Store_Read_rep _ _ _ _ _ Hst Hp) as (st' & d' & Hr & Hst' & Hf & Hframe & Hsome).
  rewrite Hr, Hu. eexists _, _. split; [done|].
  rewrite <- Hsn. split_and!; try done.
  split; cbn [Segment.store Segment.index Segment.baseOffset Segment.nextOffset];
    try done; try congruence.
  - rewrite Hframe; [done|]. rewrite Hin, Hsn. intros Heq.
    by apply (fileName_store_index (Segment.baseOffset s)).
  - eexists _, _. done.
Qed.

Lemma Segment_Remove_rep d s recs :
  seg_ok d s recs ->
  exists s' d',
    Segment.Remove s d = (s', d', Ok tt) /\
    d' !! Segment.fileName (Segment.baseOffset s) ".store" = None /\
    d' !! Segment.fileName (Segment.baseOffset s) ".index" = None /\
    (forall name, name <> Segment.fileName (Segment.baseOffset s) ".store" ->
                  name <> Segment.fileName (Segment.baseOffset s) ".index" ->
                  d' !! name = d !! name).
Proof.
  intros [Hsn Hin [ic Hif] Hb Hn Hbd Hcnt Hoffs (data & ents & Hst & Hix & Hall)].
  pose proof (fileName_store_index (Segment.baseOffset s)) as Hne.
  destruct Hst as [Hwr Herr Hdata Hsize Hbound]. destruct Hix as [Hisz Hfit Hlen _].
  unfold store_bytes in Hdata.
  destruct (d !! Store.File (Segment.store s)) as [c|] eqn:Hc; simpl in Hdata; [|done].
  unfold Segment.Remove, Segment.Close, Index.Close, os_Truncate.
  rewrite Hif, lookup_insert_eq.
  rewrite i64_id by lia.
  destruct (Z.ltb_spec (Index.size (Segment.index s)) 0); [lia|].
  unfold Store.Close, bufio_Flush. rewrite Herr.
  set (d1 := <[Index.file (Segment.index s) := _]> (<[Index.file (Segment.index s) := _]> d)).
  assert (d1 !! Store.File (Segment.store s) = Some c) as Hc1.
  { unfold d1. rewrite !lookup_insert_ne by congruence. done. }
  assert (exists b d2,
    match pending (Store.buf (Segment.store s)) with
    | [] => (Store.buf (Segment.store s), d1, Ok tt)
    | _ :: _ =>
        match file_Write d1 (wr (Store.buf (Segment.store s)))
                (pending (Store.buf (Segment.store s))) with
        | (d', Ok _) => ({| wr := wr (Store.buf (Segment.store s)); pending := []; werr := None |}, d', Ok tt)
        | (d', Err e) => ({| wr := wr (Store.buf (Segment.store s));
                             pending := pending (Store.buf (Segment.store s));
                             werr := Some e |}, d', Err e)
        | (d', Panic) => (Store.buf (Segment.store s), d', Panic)
        end
    end = (b, d2, Ok tt) /\
    is_Some (d2 !! Index.file (Segment.index s)) /\
    is_Some (d2 !! Store.File (Segment.store s)) /\
    (forall name, name <> Store.File (Segment.store s) ->
                  name <> Index.file (Segment.index s) -> d2 !! name = d !! name))
    as (b & d2 & -> & [? Hi2] & [? Hs2] & Hframe).
  { destruct (pending _) as [|x q].
    - eexists _, _. split; [done|]. split_and!.
      + unfold d1. by rewrite lookup_insert_eq.
      + by rewrite Hc1.
      + intros name Hx1 Hx2. unfold d1. by rewrite !lookup_insert_ne.
    - unfold file_Write. rewrite Hwr, Hc1. eexists _, _. split; [done|]. split_and!.
      + rewrite lookup_insert_ne by congruence. unfold d1. by rewrite lookup_insert_eq.
      + by rewrite lookup_insert_eq.
      + intros name Hx1 Hx2. unfold d1. by rewrite !lookup_insert_ne. }
  cbn [Segment.index Segment.store Index.Name Store.Name Store.File].
  unfold Index.Name, Store.Name, os_Remove. rewrite Hi2.
  rewrite lookup_delete_ne, Hs2 by congruence.
  eexists _, _. split; [done|]. rewrite <- Hsn, <- Hin. split_and!.
  - by rewrite lookup_delete_eq.
  - rewrite lookup_delete_ne by congruence. by rewrite lookup_delete_eq.
  - intros name Hx1 Hx2. rewrite !lookup_delete_ne by done. by apply Hframe.
Qed.

End segment_lemmas.

(** ** The invariant of a log *)

Lemma packed_tail s rest : packed (s :: rest) -> packed rest.
Proof. intros Hp k x y Hx Hy. by apply (Hp (S k)). Qed.

Lemma packed_contiguous ss : packed ss -> contiguous ss.
Proof. intros Hp k s s' Hs Hs'. by apply (Hp k). Qed.

Lemma packed_insert_last ss a s s1 :
  packed ss -> a = (length ss - 1)%nat -> ss !! a = Some s ->
  Segment.baseOffset s1 = Segment.baseOffset s ->
  packed (<[a := s1]> ss).
Proof.
  intros Hp -> Ha Hb k x y Hk Hk'.
  pose proof (lookup_lt_Some _ _ _ Hk') as Hlt. rewrite length_insert in Hlt.
  rewrite list_lookup_insert_ne in Hk by lia.
  destruct (decide (S k = length ss - 1)%nat) as [Heq|Hne].
  - rewrite Heq, list_lookup_insert_eq in Hk' by lia. simplify_eq.
    rewrite <- Heq in Ha. rewrite Hb. by apply (Hp k).
  - rewrite list_lookup_insert_ne in Hk' by lia. by apply (Hp k).
Qed.

Lemma packed_insert_same ss k s s1 :
  packed ss -> ss !! k = Some s ->
  Segment.baseOffset s1 = Segment.baseOffset s ->
  Segment.nextOffset s1 = Segment.nextOffset s ->
  packed (<[k := s1]> ss).
Proof.
  intros Hp Hk Hb Hn i x y Hx Hy.
  pose proof (lookup_lt_Some _ _ _ Hk).
  assert (forall m z, <[k := s1]> ss !! m = Some z ->
            exists z0, ss !! m = Some z0 /\
              Segment.baseOffset z = Segment.baseOffset z0 /\
              Segment.nextOffset z = Segment.nextOffset z0) as Hsame.
  { intros m z Hz. destruct (decide (m = k)) as [->|Hne].
    - rewrite list_lookup_insert_eq in Hz by done. simplify_eq. eauto.
    - rewrite list_lookup_insert_ne in Hz by done. eauto. }
  destruct (Hsame _ _ Hx) as (x0 & Hx0 & -> & ->).
  destruct (Hsame _ _ Hy) as (y0 & Hy0 & -> & _).
  by apply (Hp i).
Qed.

Lemma bases_insert ss a s s1 :
  ss !! a = Some s -> Segment.baseOffset s1 = Segment.baseOffset s ->
  bases (<[a := s1]> ss) = bases ss.
Proof.
  intros Ha Hb. unfold bases. rewrite list_fmap_insert, Hb.
  apply list_insert_id. by rewrite list_lookup_fmap, Ha.
Qed.

Section log_lemmas.
Context `{Codec} `{!CodecLaws}.

Lemma packed_lt ss cs d :
  packed ss -> Forall2 (seg_ok d) ss cs ->
  forall j i si sj, (i < j)%nat -> ss !! i = Some si -> ss !! j = Some sj ->
    Segment.nextOffset si <= Segment.baseOffset sj /\
    Segment.baseOffset si < Segment.baseOffset sj.
Proof.
  intros Hp Hall. induction j as [|j IH]; intros i si sj Hij Hi Hj; [lia|].
  destruct (ss !! j) as [sm|] eqn:Hm.
  2:{ apply lookup_ge_None in Hm. apply lookup_lt_Some in Hj. lia. }
  destruct (Hp _ _ _ Hm Hj) as [Hb Hlt].
  destruct (decide (i = j)) as [->|Hne].
  - simplify_eq. lia.
  - destruct (IH i si sm) as [H1 H2]; [lia|done..|]. lia.
Qed.

Lemma cover_exists ss off :
  packed ss ->
  (forall s, s ∈ ss -> Segment.baseOffset s <= Segment.nextOffset s) ->
  forall s0 sl, head ss = Some s0 -> last ss = Some sl ->
    Segment.baseOffset s0 <= off < Segment.nextOffset sl ->
    exists k s, ss !! k = Some s /\ Log.covers off s.
Proof.
  intros Hpk Hle. induction ss as [|s rest IH]; intros s0 sl Hh Hl Hoff; [done|].
  simpl in Hh. simplify_eq.
  destruct rest as [|s1 rest'].
  { simpl in Hl. simplify_eq. exists 0%nat, sl. done. }
  destruct (decide (off < Segment.nextOffset s0)) as [Hlt|Hge].
  { exists 0%nat, s0. split; [done|]. unfold Log.covers. lia. }
  destruct (Hpk 0%nat s0 s1 eq_refl eq_refl) as [Hb _].
  destruct (IH (packed_tail _ _ Hpk)
              (fun x Hx => Hle x (list_elem_of_further _ _ _ Hx)) s1 sl)
    as (k & x & Hx & Hcov); [done|done|lia|].
  by exists (S k), x.
Qed.

Lemma file_of_base d x y rx ry name :
  seg_ok d x rx -> seg_ok d y ry -> file_of name x -> file_of name y ->
  Segment.baseOffset x = Segment.baseOffset y.
Proof.
  intros Hx Hy Hfx Hfy.
  destruct (seg_ok_range _ _ _ Hx), (seg_ok_range _ _ _ Hy).
  destruct Hfx as [-> | ->], Hfy as [Heq|Heq];
    apply fileName_inj in Heq as [? _]; first [done | lia | by left | by right].
Qed.

Lemma log_ok_update_last l d cs a s s1 recs1 :
  log_ok l d cs ->
  Log.activeSegment l = Some a -> Log.segments l !! a = Some s ->
  Segment.baseOffset s1 = Segment.baseOffset s ->
  seg_ok d s1 recs1 ->
  log_ok (Log.set_segments l (<[a := s1]> (Log.segments l))) d
    (<[a := recs1]> cs).
Proof.
  intros [Hact Hne Hcfg Hsegs Hpk Hown] Ha Hs Hb Hs1.
  rewrite Hact in Ha. injection Ha as <-.
  split; simpl.
  - by rewrite length_insert.
  - intros Heq. apply (f_equal length) in Heq. rewrite length_insert in Heq.
    by destruct (Log.segments l).
  - done.
  - by apply Forall2_insert.
  - by eapply packed_insert_last.
  - unfold owned. by erewrite bases_insert.
Qed.

Lemma owned_fresh d ss cs nb e :
  owned d ss -> packed ss -> Forall2 (seg_ok d) ss cs ->
  (forall s, s ∈ ss -> Segment.baseOffset s < nb) -> is_ext e ->
  d !! Segment.fileName nb e = None.
Proof.
  intros Hown Hpk Hall Hlt He.
  destruct (d !! Segment.fileName nb e) as [c|] eqn:Hc; [|done].
  destruct (Hown _ (mk_is_Some _ _ Hc)) as (b & e' & Hb & He' & Heq).
  unfold bases in Hb. apply list_elem_of_fmap in Hb as (s & -> & Hs).
  pose proof (Hlt _ Hs).
  apply list_elem_of_lookup in Hs as [i Hi].
  destruct (Forall2_lookup_l _ _ _ _ _ Hall Hi) as (recs & _ & Hok).
  destruct (seg_ok_range _ _ _ Hok).
  apply fileName_inj in Heq as [? _]; [lia|lia|lia|done..].
Qed.

Lemma log_ok_roll l d cs a s l' d' r :
  log_ok l d cs ->
  Log.activeSegment l = Some a -> Log.segments l !! a = Some s ->
  Segment.baseOffset s < Segment.nextOffset s ->
  Log.newSegment l (Segment.nextOffset s) d = (l', d', r) ->
  r = Ok tt /\ log_ok l' d' (cs ++ [[]]) /\
  (forall off rec, holds l cs off rec -> holds l' (cs ++ [[]]) off rec).
Proof.
  intros [Hact Hne Hcfg Hsegs Hpk Hown] Ha Hs Hlt Hnew.
  rewrite Hact in Ha. injection Ha as <-.
  set (nb := Segment.nextOffset s) in *.
  destruct (Forall2_lookup_l _ _ _ _ _ Hsegs Hs) as (recs & Hrecs & Hok).
  destruct (seg_ok_range _ _ _ Hok) as [Hr1 Hr2].
  assert (forall s0, s0 ∈ Log.segments l -> Segment.baseOffset s0 < nb) as Hbelow.
  { intros s0 [i Hi]%list_elem_of_lookup.
    pose proof (lookup_lt_Some _ _ _ Hi).
    destruct (decide (i = length (Log.segments l) - 1)%nat) as [->|Hn].
    - simplify_eq. done.
    - destruct (packed_lt _ _ _ Hpk Hsegs (length (Log.segments l) - 1)%nat
                  i s0 s) as [? ?]; [lia|done..|]. lia. }
  unfold Log.newSegment in Hnew.
  destruct (Segment.newSegment d nb (Log.Config_ l)) as [d1 r1] eqn:Hn.
  destruct (newSegment_fresh _ _ _ _ _
              (owned_fresh _ _ _ nb ".store" Hown Hpk Hsegs Hbelow (or_introl eq_refl))
              (owned_fresh _ _ _ nb ".index" Hown Hpk Hsegs Hbelow (or_intror eq_refl))
              Hn) as (_ & Hframe & Hss & His & Hsucc & Hfresh).
  specialize (Hsucc Hcfg). destruct r1 as [f| |]; [|done..].
  destruct (Hfresh f eq_refl) as (-> & _ & Hsf & Hif).
  simplify_eq. split; [done|]. split.
  - split; simpl.
    + rewrite length_app. simpl. f_equal. lia.
    + by destruct (Log.segments l).
    + done.
    + apply Forall2_app.
      * apply Forall2_same_length_lookup. split; [by eapply Forall2_length|].
        intros i x y Hx Hy.
        pose proof (Forall2_lookup_lr _ _ _ _ _ _ Hsegs Hx Hy) as Hxy.
        pose proof (Hbelow x (list_elem_of_lookup_2 _ _ _ Hx)).
        destruct (seg_ok_range _ _ _ Hxy).
        pose proof (sg_store_name _ _ _ Hxy) as Hsn.
        pose proof (sg_index_name _ _ _ Hxy) as Hin.
        pose proof (sg_index_file _ _ _ Hxy) as Hif'.
        eapply seg_ok_frame; [exact Hxy| |].
        -- apply Hframe; rewrite Hsn; intros Heq;
             apply fileName_inj in Heq as [? _];
             first [lia | by left | by right].
        -- rewrite Hframe; [done| |]; rewrite Hin; intros Heq;
             apply fileName_inj in Heq as [? _];
             first [lia | by left | by right].
      * constructor; [|constructor].
        apply seg_ok_fresh; [lia|done|done|by rewrite Hif].
    + intros k x y Hx Hy.
      destruct (decide (S k < length (Log.segments l))%nat) as [Hin|Hout].
      * rewrite lookup_app_l in Hx, Hy by lia. by apply (Hpk k).
      * pose proof (lookup_lt_Some _ _ _ Hy) as Hl. rewrite length_app in Hl. simpl in Hl.
        rewrite lookup_app_l in Hx by lia.
        rewrite lookup_app_r in Hy by lia.
        replace (S k - length (Log.segments l))%nat with 0%nat in Hy by lia.
        replace k with (length (Log.segments l) - 1)%nat in Hx by lia.
        simpl in Hy. simplify_eq. done.
    + intros name Hsome. unfold bases. rewrite fmap_app. simpl.
      destruct (decide (name = Segment.fileName nb ".store")) as [->|H1].
      { exists nb, ".store". split_and!; [apply elem_of_app; right; apply list_elem_of_here|by left|done]. }
      destruct (decide (name = Segment.fileName nb ".index")) as [->|H2].
      { exists nb, ".index". split_and!; [apply elem_of_app; right; apply list_elem_of_here|by right|done]. }
      rewrite Hframe in Hsome by done.
      destruct (Hown _ Hsome) as (b & e & Hb & He & ->).
      exists b, e. split_and!; [apply elem_of_app; by left|done..].
  - intros off rec (k & x & rs & j & Hx & Hrs & Hj & ->).
    exists k, x, rs, j. split_and!; try done; by apply lookup_app_l_Some.
Qed.

Lemma log_ok_NewLog dir c l d :
  0 <= InitialOffset (Segment c) < 2 ^ 64 ->
  Log.NewLog dir c ∅ = (l, d, Ok tt) ->
  log_ok l d [[]].
Proof.
  intros Hio Hnew. apply NewLog_empty in Hnew as (-> & Hc & Hs & Hi & Hnone).
  rewrite defaults_InitialOffset in *.
  split; simpl; try done.
  - constructor; [|constructor]. apply seg_ok_fresh; try done; by rewrite Hi.
  - intros name Hsome. exists (InitialOffset (Segment c)).
    destruct (decide (name = Segment.fileName (InitialOffset (Segment c)) ".store")) as [->|H1].
    { exists ".store". split_and!; [apply list_elem_of_here|by left|done]. }
    destruct (decide (name = Segment.fileName (InitialOffset (Segment c)) ".index")) as [->|H2].
    { exists ".index". split_and!; [apply list_elem_of_here|by right|done]. }
    rewrite Hnone in Hsome by done. by destruct Hsome.
Qed.

Lemma log_ok_active l d cs :
  log_ok l d cs ->
  exists a s recs,
    Log.activeSegment l = Some a /\ a = (length (Log.segments l) - 1)%nat /\
    Log.segments l !! a = Some s /\ cs !! a = Some recs /\ seg_ok d s recs.
Proof.
  intros [Hact Hne Hcfg Hsegs Hpk Hown].
  destruct (Log.segments l !! (length (Log.segments l) - 1)%nat) as [s|] eqn:Hs.
  2:{ apply lookup_ge_None in Hs. destruct (Log.segments l); [done|simpl in Hs; lia]. }
  destruct (Forall2_lookup_l _ _ _ _ _ Hsegs Hs) as (recs & Hrecs & Hok).
  by exists (length (Log.segments l) - 1)%nat, s, recs.
Qed.

Lemma holds_update l cs a s s1 recs rs1 :
  Log.segments l !! a = Some s -> cs !! a = Some recs ->
  Segment.baseOffset s1 = Segment.baseOffset s ->
  forall off rec, holds l cs off rec ->
    holds (Log.set_segments l (<[a := s1]> (Log.segments l)))
      (<[a := recs ++ rs1]> cs) off rec.
Proof.
  intros Hs Hrecs Hb off rec (k & x & rs & j & Hx & Hrs & Hj & ->).
  pose proof (lookup_lt_Some _ _ _ Hx). pose proof (lookup_lt_Some _ _ _ Hrs).
  destruct (decide (k = a)) as [->|Hne].
  - simplify_eq. exists a, s1, (recs ++ rs1), j. simpl.
    rewrite !list_lookup_insert_eq by done.
    split_and!; try done; [by apply lookup_app_l_Some|congruence].
  - exists k, x, rs, j. simpl. by rewrite !list_lookup_insert_ne.
Qed.

Lemma holds_covers l d cs off rec :
  log_ok l d cs -> holds l cs off rec ->
  exists k s recs j,
    Log.segments l !! k = Some s /\ cs !! k = Some recs /\
    recs !! j = Some rec /\ off = Segment.baseOffset s + Z.of_nat j /\
    seg_ok d s recs /\ Log.covers off s.
Proof.
  intros Hok (k & s & recs & j & Hs & Hrecs & Hj & ->).
  pose proof (Forall2_lookup_lr _ _ _ _ _ _ (lo_segs _ _ _ Hok) Hs Hrecs) as Hsok.
  exists k, s, recs, j. split_and!; try done.
  pose proof (lookup_lt_Some _ _ _ Hj). pose proof (sg_next _ _ _ Hsok).
  unfold Log.covers. lia.
Qed.

Lemma holds_Offset l d cs off rec :
  log_ok l d cs -> holds l cs off rec -> Offset rec = off.
Proof.
  intros Hok Hh.
  destruct (holds_covers _ _ _ _ _ Hok Hh) as (k & s & recs & j & _ & _ & Hj & -> & Hs & _).
  by apply (sg_offsets _ _ _ Hs).
Qed.

Lemma covers_unique l d cs off k1 s1 k2 s2 :
  log_ok l d cs ->
  Log.segments l !! k1 = Some s1 -> Log.covers off s1 ->
  Log.segments l !! k2 = Some s2 -> Log.covers off s2 ->
  k1 = k2.
Proof.
  intros Hok H1 Hc1 H2 Hc2. unfold Log.covers in *.
  destruct (Nat.lt_total k1 k2) as [Hlt|[Heq|Hgt]]; [|done|].
  - destruct (packed_lt _ _ _ (lo_packed _ _ _ Hok) (lo_segs _ _ _ Hok)
                k2 k1 s1 s2); [done..|lia].
  - destruct (packed_lt _ _ _ (lo_packed _ _ _ Hok) (lo_segs _ _ _ Hok)
                k1 k2 s2 s1); [done..|lia].
Qed.

End log_lemmas.

(** ** The calls of a log keep the invariant *)

Section log_calls.
Context `{Codec} `{!CodecLaws}.

Lemma log_ok_Append l d cs r l' d' r' off e :
  log_ok l d cs -> within_limits l r ->
  Log.Append l r d = (l', d', r', (off, e)) ->
  exists cs',
    log_ok l' d' cs' /\
    (forall o rec, holds l cs o rec -> holds l' cs' o rec) /\
    match e with
    | Ok _ =>
        r' = mkRecord (Value r) off /\ holds l' cs' off r' /\
        exists a s, Log.activeSegment l = Some a /\
                    Log.segments l !! a = Some s /\ off = Segment.nextOffset s
    | Err _ => True
    | Panic => False
    end.
Proof.
  intros Hok Hlim Happ.
  destruct (log_ok_active _ _ _ Hok) as (a & s & recs & Hact & Ha & Hs & Hrecs & Hsok).
  specialize (Hlim a s Hact Hs).
  unfold Log.Append in Happ. rewrite Hact, Hs in Happ.
  destruct (Segment.Append s r) as [[s1 r1] res] eqn:Hsa.
  destruct (Segment_Append_rep _ _ _ _ _ _ _ Hsok Hlim Hsa) as (-> & Hb & Hcf & Hres).
  destruct res as [o|err|]; [|
    |done].
  - destruct Hres as [-> Hs1].
    pose proof (log_ok_update_last _ _ _ _ _ _ _ Hok Hact Hs Hb Hs1) as Hok1.
    pose proof (holds_update l cs a s s1 recs [mkRecord (Value r) (Segment.nextOffset s)]
                  Hs Hrecs Hb) as Hholds.
    set (l1 := Log.set_segments l (<[a := s1]> (Log.segments l))) in *.
    set (cs1 := <[a := recs ++ [mkRecord (Value r) (Segment.nextOffset s)]]> cs) in *.
    pose proof (lookup_lt_Some _ _ _ Hs) as Hlt.
    pose proof (lookup_lt_Some _ _ _ Hrecs) as Hlt'.
    assert (Log.segments l1 !! a = Some s1) as Hs1l
      by (unfold l1; simpl; by rewrite list_lookup_insert_eq).
    assert (holds l1 cs1 (Segment.nextOffset s)
              (mkRecord (Value r) (Segment.nextOffset s))) as Hnew.
    { exists a, s1, (recs ++ [mkRecord (Value r) (Segment.nextOffset s)]), (length recs).
      split_and!; [done|by apply list_lookup_insert_eq| |].
      - by rewrite lookup_app_r, Nat.sub_diag by lia.
      - rewrite Hb. apply (sg_next _ _ _ Hsok). }
    destruct (Segment.IsMaxed s1).
    + destruct Hlim as (Hn1 & _ & _).
      pose proof (sg_next _ _ _ Hs1) as Hn2. pose proof (sg_next _ _ _ Hsok) as Hn3.
      pose proof (sg_base _ _ _ Hsok) as Hn4.
      rewrite length_app in Hn2. simpl in Hn2.
      assert (u64 (Segment.nextOffset s + 1) = Segment.nextOffset s1) as Hnb.
      { rewrite u64_id by lia. lia. }
      rewrite Hnb in Happ.
      destruct (Log.newSegment l1 (Segment.nextOffset s1) d) as [[l2 d2] r2] eqn:Hroll.
      destruct (log_ok_roll l1 d cs1 a s1 l2 d2 r2 Hok1 Hact Hs1l ltac:(lia) Hroll)
        as (-> & Hok2 & Hh2).
      simplify_eq. exists (cs1 ++ [[]]). split_and!; eauto 10.
    + simplify_eq. exists cs1. split_and!; eauto 10.
  - pose proof (log_ok_update_last _ _ _ _ _ _ _ Hok Hact Hs Hb Hres) as Hok1.
    pose proof (holds_update l cs a s s1 recs [] Hs Hrecs Hb) as Hholds.
    rewrite app_nil_r in Hholds.
    rewrite (list_insert_id cs a recs) in Hok1, Hholds by done.
    simplify_eq. exists cs. done.
Qed.

Lemma log_ok_Read l d cs off l' d' res :
  log_ok l d cs -> Log.Read l off d = (l', d', res) ->
  log_ok l' d' cs /\
  (forall o rec, holds l cs o rec -> holds l' cs o rec) /\
  (forall rec, holds l cs off rec -> res = Ok rec) /\
  ((forall s, s ∈ Log.segments l -> ~ Log.covers off s) ->
     res = Err (ErrOffsetOutOfRange off) /\ l' = l /\ d' = d) /\
  ((exists s, s ∈ Log.segments l /\ Log.covers off s) -> is_Ok res).
Proof.
  intros Hok Hread. unfold Log.Read in Hread.
  destruct (list_find _ _) as [[k s]|] eqn:Hfind.
  2:{ simplify_eq. split_and!; try done.
      - intros rec Hh. destruct (holds_covers _ _ _ _ _ Hok Hh)
          as (k & s & recs & j & Hs & _ & _ & _ & _ & Hcov).
        apply list_find_None in Hfind.
        rewrite Forall_forall in Hfind.
        destruct (Hfind s); [|done]. by eapply list_elem_of_lookup_2.
      - intros (s & Hs & Hcov). apply list_find_None in Hfind.
        rewrite Forall_forall in Hfind. by destruct (Hfind s). }
  apply list_find_Some in Hfind as (Hk & Hcov & Hmin).
  pose proof Hcov as [Hc1 Hc2].
  destruct (Z.leb_spec (Segment.nextOffset s) off); [lia|].
  destruct (Forall2_lookup_l _ _ _ _ _ (lo_segs _ _ _ Hok) Hk) as (recs & Hrecs & Hsok).
  pose proof (sg_next _ _ _ Hsok) as Hnext.
  set (j := Z.to_nat (off - Segment.baseOffset s)).
  assert (off = Segment.baseOffset s + Z.of_nat j) as Hoff by lia.
  destruct (recs !! j) as [rec0|] eqn:Hj.
  2:{ apply lookup_ge_None in Hj. lia. }
  destruct (Segment_Read_rep _ _ _ _ _ Hsok Hj)
    as (s' & d1 & Hsr & Hsok' & Hb & Hn & Hcf & Hframe & Hsome).
  rewrite <- Hoff in Hsr. rewrite Hsr in Hread. simplify_eq.
  pose proof (lookup_lt_Some _ _ _ Hk) as Hklt.
  assert (forall o rec, holds l cs o rec ->
            holds (Log.set_segments l (<[k := s']> (Log.segments l))) cs o rec) as Hh.
  { intros o rec (k2 & x & rs & j2 & Hx & Hrs & Hj2 & ->).
    destruct (decide (k2 = k)) as [->|Hne].
    - assert (x = s) as -> by congruence.
      exists k, s', rs, j2. simpl.
      rewrite list_lookup_insert_eq by done. split_and!; try done. congruence.
    - exists k2, x, rs, j2. simpl. by rewrite list_lookup_insert_ne. }
  split_and!; try done.
  - destruct Hok as [Hact Hne Hcfg Hsegs Hpk Hown]. split; simpl.
    + by rewrite length_insert.
    + intros Heq. apply (f_equal length) in Heq. rewrite length_insert in Heq.
      by destruct (Log.segments l).
    + done.
    + apply Forall2_same_length_lookup. split.
      { rewrite length_insert. by eapply Forall2_length. }
      intros i x y Hx Hy.
      destruct (decide (i = k)) as [->|Hik].
      * rewrite list_lookup_insert_eq in Hx by done. by simplify_eq.
      * rewrite list_lookup_insert_ne in Hx by done.
        pose proof (Forall2_lookup_lr _ _ _ _ _ _ Hsegs Hx Hy) as Hxy.
        assert (Segment.baseOffset x <> Segment.baseOffset s) as Hbne.
        { destruct (Nat.lt_total i k) as [Hlt|[Heq|Hgt]]; [|done|].
          - destruct (packed_lt _ _ _ Hpk Hsegs k i x s); [done..|lia].
          - destruct (packed_lt _ _ _ Hpk Hsegs i k s x); [done..|lia]. }
        destruct (seg_ok_range _ _ _ Hxy). destruct (seg_ok_range _ _ _ Hsok).
        eapply seg_ok_frame; [exact Hxy| |].
        -- apply Hframe. rewrite (sg_store_name _ _ _ Hxy). intros Heq.
           apply fileName_inj in Heq as [? _]; first [lia | by left | by right].
        -- rewrite Hframe; [apply (sg_index_file _ _ _ Hxy)|].
           rewrite (sg_index_name _ _ _ Hxy). intros Heq.
           apply fileName_inj in Heq as [_ ?]; first [done | lia | by left | by right].
    + by eapply packed_insert_same.
    + unfold owned. erewrite bases_insert by done. intros name Hname.
      apply Hown.
      destruct (decide (name = Segment.fileName (Segment.baseOffset s) ".store")) as [->|Hne'].
      * destruct Hsok as [Hsn _ _ _ _ _ _ _ (data & ents & [_ _ Hdata _ _] & _)].
        unfold store_bytes in Hdata. rewrite Hsn in Hdata.
        by destruct (d !! Segment.fileName (Segment.baseOffset s) ".store").
      * by rewrite <- Hframe.
  - intros rec Hrec.
    destruct (holds_covers _ _ _ _ _ Hok Hrec)
      as (k2 & x & rs & j2 & Hx & Hrs & Hj2 & Ho & _ & Hcx).
    assert (k2 = k) as -> by (by eapply covers_unique).
    simplify_eq. assert (j2 = j) as -> by lia. by simplify_eq.
  - intros Hno. destruct (Hno s); [|done]. by eapply list_elem_of_lookup_2.
Qed.

Lemma Truncate_loop_removes lowest ss cs d :
  Forall2 (seg_ok d) ss cs -> packed ss ->
  exists n all d',
    Log.Truncate_loop lowest ss d = (all, drop n ss, d', Ok tt) /\
    (forall name, (forall s, s ∈ take n ss -> ~ file_of name s) ->
                  d' !! name = d !! name) /\
    (forall name s, s ∈ take n ss -> file_of name s -> d' !! name = None).
Proof.
  intros Hall. revert d Hall.
  revert cs. induction ss as [|s rest IH]; intros cs d Hall Hpk.
  { exists 0%nat, [], d. split_and!; try done. intros name s Hs. by apply elem_of_nil in Hs. }
  destruct cs as [|recs cs']; [by apply Forall2_length in Hall|].
  pose proof Hall as Hall0. apply Forall2_cons in Hall as [Hs Hrest].
  assert (forall x, x ∈ rest ->
            Segment.nextOffset s <= Segment.baseOffset x /\
            Segment.baseOffset s < Segment.baseOffset x) as Hafter.
  { intros x [i Hi]%list_elem_of_lookup.
    apply (packed_lt (s :: rest) (recs :: cs') d Hpk Hall0 (S i) 0%nat s x);
      [lia|done|done]. }
  simpl. destruct (Z.leb_spec (Segment.nextOffset s) lowest) as [Hle|Hgt].
  - destruct (Segment_Remove_rep _ _ _ Hs) as (s1 & d1 & -> & Hn1 & Hn2 & Hframe).
    assert (Forall2 (seg_ok d1) rest cs') as Hrest1.
    { apply Forall2_same_length_lookup. split; [by eapply Forall2_length|].
      intros i x y Hx Hy.
      pose proof (Forall2_lookup_lr _ _ _ _ _ _ Hrest Hx Hy) as Hxy.
      destruct (Hafter x (list_elem_of_lookup_2 _ _ _ Hx)).
      assert (forall name, file_of name x -> d1 !! name = d !! name) as Hsame.
      { intros name Hfx. apply Hframe; intros ->;
          (assert (Segment.baseOffset x = Segment.baseOffset s) by
             (eapply file_of_base; [exact Hxy|exact Hs|done|by (left + right)]));
          lia. }
      eapply seg_ok_frame; [exact Hxy| |].
      - apply Hsame. left. apply (sg_store_name _ _ _ Hxy).
      - rewrite Hsame; [apply (sg_index_file _ _ _ Hxy)|].
        right. apply (sg_index_name _ _ _ Hxy). }
    destruct (IH cs' d1 Hrest1 (packed_tail _ _ Hpk)) as (n & all & d' & -> & Hf2 & Hf3).
    exists (S n), (s1 :: all), d'. simpl. split_and!; try done.
    + intros name Hnot. rewrite Hf2.
      * apply Hframe; intros ->; apply (Hnot s); first [apply list_elem_of_here | by left | by right].
      * intros x Hx. apply Hnot. by apply list_elem_of_further.
    + intros name x [->|Hx]%elem_of_cons Hfx.
      * rewrite Hf2; [by destruct Hfx as [-> | ->]|].
        intros y Hy Hfy. apply elem_of_take in Hy as (i & Hy & _).
        pose proof (list_elem_of_lookup_2 _ _ _ Hy) as Hyin.
        destruct (Hafter y Hyin).
        destruct (Forall2_lookup_l _ _ _ _ _ Hrest Hy) as (ry & _ & Hyok).
        assert (Segment.baseOffset s = Segment.baseOffset y)
          by (eapply file_of_base; [exact Hs|exact Hyok|done..]). lia.
      * by eapply Hf3.
  - rewrite Truncate_loop_keep.
    + exists 0%nat, (s :: rest), d. split_and!; try done.
      intros name x Hx. by apply elem_of_nil in Hx.
    + intros x Hx. destruct (Hafter x Hx).
      apply list_elem_of_lookup in Hx as [i Hi].
      destruct (Forall2_lookup_l _ _ _ _ _ Hrest Hi) as (rx & _ & Hxok).
      destruct (seg_ok_range _ _ _ Hxok). lia.
Qed.

Lemma log_ok_Truncate l d cs lowest l' d' r :
  log_ok l d cs -> Log.Truncate l lowest d = (l', d', r) ->
  (forall e, r <> Err e) /\
  (r = Ok tt -> exists n, log_ok l' d' (drop n cs) /\
                          Log.segments l' = drop n (Log.segments l)).
Proof.
  intros [Hact Hne Hcfg Hsegs Hpk Hown] Htr. unfold Log.Truncate in Htr.
  destruct (Truncate_loop_removes lowest _ _ _ Hsegs Hpk) as (n & all & d1 & Hloop & Hf2 & Hf3).
  assert (forall i x, drop n (Log.segments l) !! i = Some x ->
            forall name, file_of name x -> d1 !! name = d !! name) as Hsame.
  { intros i x Hx name Hfx. apply Hf2. intros y Hy Hfy.
    rewrite lookup_drop in Hx.
    apply elem_of_take in Hy as (m & Hy & Hm).
    destruct (Forall2_lookup_l _ _ _ _ _ Hsegs Hx) as (rx & _ & Hxok).
    destruct (Forall2_lookup_l _ _ _ _ _ Hsegs Hy) as (ry & _ & Hyok).
    destruct (packed_lt _ _ _ Hpk Hsegs (n + i)%nat m y x); [lia|done..|].
    assert (Segment.baseOffset x = Segment.baseOffset y)
      by (eapply file_of_base; [exact Hxok|exact Hyok|done..]). lia. }
  rewrite Hloop in Htr.
  destruct (drop n (Log.segments l)) as [|k0 kept] eqn:Hkept; simplify_eq; [done|].
  split; [done|]. intros _. exists n. split; [|done].
  rewrite <- Hkept in *. split; simpl.
  - done.
  - by rewrite Hkept.
  - done.
  - apply Forall2_same_length_lookup. split.
    { rewrite !length_drop. by erewrite Forall2_length. }
    intros i x y Hx Hy.
    pose proof (Forall2_lookup_lr _ _ _ _ _ _ (Forall2_drop _ _ _ n Hsegs) Hx Hy) as Hxy.
    eapply seg_ok_frame; [exact Hxy| |].
    + eapply Hsame; [done|]. left. apply (sg_store_name _ _ _ Hxy).
    + erewrite Hsame; [apply (sg_index_file _ _ _ Hxy)|done|].
      right. apply (sg_index_name _ _ _ Hxy).
  - intros i x y Hx Hy. rewrite lookup_drop in Hx, Hy.
    replace (n + S i)%nat with (S (n + i)) in Hy by lia. by apply (Hpk (n + i)%nat).
  - intros name Hsome.
    assert (forall s, s ∈ take n (Log.segments l) -> ~ file_of name s) as Hnot.
    { intros s Hs Hfs. rewrite (Hf3 name s Hs Hfs) in Hsome. by destruct Hsome. }
    rewrite Hf2 in Hsome by done.
    destruct (Hown _ Hsome) as (b & e & Hb & He & ->).
    exists b, e. split_and!; try done.
    unfold bases in *. rewrite <- (take_drop n (Log.segments l)), fmap_app in Hb.
    apply elem_of_app in Hb as [Hb|Hb]; [|done].
    apply list_elem_of_fmap in Hb as (s & -> & Hs).
    destruct (Hnot s Hs). by destruct He as [-> | ->]; [left|right].
Qed.

(** A truncation keeps the records at and above [lowest]. *)
Lemma holds_Truncate l d cs lowest l' d' n off rec :
  log_ok l d cs -> Log.Truncate l lowest d = (l', d', Ok tt) ->
  Log.segments l' = drop n (Log.segments l) ->
  lowest <= off -> holds l cs off rec -> holds l' (drop n cs) off rec.
Proof.
  intros Hok Htr Hdrop Hlow (k & s & recs & j & Hk & Hcs & Hj & ->).
  pose proof (Forall2_lookup_lr _ _ _ _ _ _ (lo_segs _ _ _ Hok) Hk Hcs) as Hs.
  pose proof (sg_next _ _ _ Hs) as Hnext.
  pose proof (lookup_lt_Some _ _ _ Hj) as Hlen.
  assert (s ∈ Log.segments l') as [i Hi]%list_elem_of_lookup.
  { unfold Log.Truncate in Htr.
    destruct (Log.Truncate_loop lowest (Log.segments l) d)
      as [[[all kept] d1] r] eqn:Hloop.
    destruct r as [[]|e|]; [|by simplify_eq..].
    apply Truncate_loop_filter in Hloop as ->.
    destruct (filter _ _) as [|k0 kept] eqn:Hf; simplify_eq. simpl.
    rewrite <- Hf. apply list_elem_of_filter. split; [lia|].
    by eapply list_elem_of_lookup_2. }
  pose proof Hi as Hi'. rewrite Hdrop, lookup_drop in Hi'.
  assert (k = (n + i)%nat) as ->.
  { destruct (Nat.lt_trichotomy k (n + i)) as [Hlt|[->|Hgt]]; [|done|].
    - destruct (packed_lt _ _ _ (lo_packed _ _ _ Hok) (lo_segs _ _ _ Hok)
                  (n + i)%nat k s s); [done..|lia].
    - destruct (packed_lt _ _ _ (lo_packed _ _ _ Hok) (lo_segs _ _ _ Hok)
                  k (n + i)%nat s s); [done..|lia]. }
  exists i, s, recs, j. split_and!; try done. by rewrite lookup_drop.
Qed.

(** On the states of a run [Truncate] returns as soon as one segment ends
    above [lowest], and panics otherwise. *)
Lemma Truncate_returns_or_panics l d cs lowest :
  log_ok l d cs ->
  (Log.Truncate l lowest d).2
  = match filter (fun s => lowest < Segment.nextOffset s) (Log.segments l) with
    | [] => Panic
    | _ => Ok tt
    end.
Proof.
  intros Hok. unfold Log.Truncate.
  destruct (Truncate_loop_removes lowest _ _ _ (lo_segs _ _ _ Hok) (lo_packed _ _ _ Hok))
    as (n & all & d1 & Hloop & _).
  rewrite Hloop. rewrite (Truncate_loop_filter _ _ _ _ _ _ Hloop).
  by destruct (filter _ _).
Qed.

(** Outside of [lowestOffset, highestOffset] no segment covers an offset. *)
Lemma outside_offsets_uncovered l d cs lo hi off :
  log_ok l d cs ->
  Log.LowestOffset l = Ok lo -> Log.HighestOffset l = Ok hi ->
  off < lo \/ hi < off ->
  forall s, s ∈ Log.segments l -> ~ Log.covers off s.
Proof.
  intros Hok Hlo Hhi Hout s [i Hi]%list_elem_of_lookup [Hc1 Hc2].
  unfold Log.LowestOffset in Hlo. unfold Log.HighestOffset in Hhi.
  destruct (Log.segments l) as [|s0 rest] eqn:Hss; [done|]. injection Hlo as <-.
  rewrite <- Hss in *.
  destruct (last (Log.segments l)) as [sl|] eqn:Hlast; [|done].
  rewrite last_lookup in Hlast.
  assert (forall j x, Log.segments l !! j = Some x ->
            0 <= Segment.baseOffset x <= Segment.nextOffset x /\
            Segment.nextOffset x < 2 ^ 64) as Hrange.
  { intros j x Hx.
    destruct (Forall2_lookup_l _ _ _ _ _ (lo_segs _ _ _ Hok) Hx) as (recs & _ & Hs).
    by eapply seg_ok_range. }
  destruct (Hrange _ _ Hi), (Hrange _ _ Hlast).
  assert (Log.segments l !! 0%nat = Some s0) as Hfirst by (by rewrite Hss).
  assert (Segment.baseOffset s0 <= Segment.baseOffset s) as Hlow.
  { destruct (decide (i = 0)%nat) as [->|Hne]; [by simplify_eq|].
    destruct (packed_lt _ _ _ (lo_packed _ _ _ Hok) (lo_segs _ _ _ Hok)
                i 0%nat s0 s); [lia|done..|lia]. }
  assert (Segment.nextOffset s <= Segment.nextOffset sl) as Hhigh.
  { pose proof (lookup_lt_Some _ _ _ Hi).
    destruct (decide (i = pred (length (Log.segments l)))) as [->|Hne]; [by simplify_eq|].
    destruct (packed_lt _ _ _ (lo_packed _ _ _ Hok) (lo_segs _ _ _ Hok)
                (pred (length (Log.segments l))) i s sl); [lia|done..|lia]. }
  destruct (Z.eqb_spec (Segment.nextOffset sl) 0); injection Hhi as <-.
  - lia.
  - rewrite u64_id in Hout by lia. lia.
Qed.

End log_calls.

(** ** Runs *)

Section run_lemmas.
Context `{Codec} `{!CodecLaws}.

Lemma step_log_ok o l d cs l' d' :
  log_ok l d cs -> step o (l, d) (l', d') ->
  exists cs', log_ok l' d' cs' /\
    forall off, keeps off o ->
      forall rec, holds l cs off rec -> holds l' cs' off rec.
Proof.
  intros Hok Hstep. inversion Hstep as
    [? ? r ? ? r' res Hlim Happ|? ? off ? ? res Hread|? ? lowest ? ? Htr]; subst.
  - destruct res as [o e].
    destruct (log_ok_Append _ _ _ _ _ _ _ _ _ Hok Hlim Happ) as (cs' & Hok' & Hh & _).
    exists cs'. auto.
  - destruct (log_ok_Read _ _ _ _ _ _ _ Hok Hread) as (Hok' & Hh & _).
    exists cs. auto.
  - destruct (log_ok_Truncate _ _ _ _ _ _ _ Hok Htr) as (_ & Hn).
    destruct (Hn eq_refl) as (n & Hok' & Hdrop). exists (drop n cs).
    split; [done|]. simpl. intros off Hlow rec Hh.
    by eapply holds_Truncate.
Qed.

Lemma steps_log_ok os w w' cs :
  log_ok w.1 w.2 cs -> steps os w w' ->
  exists cs', log_ok w'.1 w'.2 cs' /\
    forall off, Forall (keeps off) os ->
      forall rec, holds w.1 cs off rec -> holds w'.1 cs' off rec.
Proof.
  intros Hok Hsteps. revert cs Hok.
  induction Hsteps as [w|o os [l1 d1] [l2 d2] w3 Hstep Hsteps IH]; intros cs Hok.
  - exists cs. auto.
  - destruct (step_log_ok _ _ _ _ _ _ Hok Hstep) as (cs1 & Hok1 & Hh1).
    destruct (IH cs1 Hok1) as (cs2 & Hok2 & Hh2). exists cs2. split; [done|].
    intros off [Ho Hos]%Forall_cons rec Hh. apply Hh2; [done|]. by apply Hh1.
Qed.

Lemma reachable_log_ok dir c l d :
  0 <= InitialOffset (Segment c) < 2 ^ 64 ->
  reachable dir c (l, d) -> exists cs, log_ok l d cs.
Proof.
  intros Hio (l0 & d0 & os & Hnew & Hsteps).
  pose proof (log_ok_NewLog _ _ _ _ Hio Hnew) as Hok0.
  destruct (steps_log_ok os (l0, d0) (l, d) _ Hok0 Hsteps) as (cs & Hok & _).
  by exists cs.
Qed.

End run_lemmas.

Section runs_as_functions.
Context `{Codec}.

Lemma within_limitsb_sound l r :
  within_limitsb l r = true -> within_limits l r.
Proof.
  unfold within_limitsb, append_fitsb. intros Hb a s Ha Hs.
  rewrite Ha, Hs in Hb.
  apply andb_prop in Hb as [[H1 H2]%andb_prop H3].
  apply Z.ltb_lt in H1, H2. split_and!; [done..|].
  intros p Hp. rewrite Hp in H3. apply andb_prop in H3 as [H3 H4].
  apply Z.leb_le in H3. apply Z.ltb_lt in H4. done.
Qed.

Lemma step_run o w : allowed o w = true -> step o w (run o w).
Proof.
  destruct w as [l d]. destruct o as [r|off|lowest]; simpl; intros Hal.
  - destruct (Log.Append l r d) as [[[l' d'] r'] res] eqn:Happ.
    eapply step_append; [by apply within_limitsb_sound|done].
  - destruct (Log.Read l off d) as [[l' d'] res] eqn:Hread.
    by eapply step_read.
  - destruct (Log.Truncate l lowest d) as [[l' d'] res] eqn:Htr.
    destruct res as [[]| |]; [|done..]. by eapply step_truncate.
Qed.

Lemma steps_runs os w : all_allowed os w = true -> steps os w (runs os w).
Proof.
  revert w. induction os as [|o os IH]; intros w Hal; simpl.
  - constructor.
  - simpl in Hal. apply andb_prop in Hal as [Ho Hos].
    econstructor; [by apply step_run|by apply IH].
Qed.

Lemma reachable_runs dir c os :
  (Log.NewLog dir c ∅).2 = Ok tt ->
  all_allowed os (Log.NewLog dir c ∅).1 = true ->
  reachable dir c (runs os (Log.NewLog dir c ∅).1).
Proof.
  destruct (Log.NewLog dir c ∅) as [[l0 d0] r] eqn:Hnew. simpl.
  intros -> Hal. exists l0, d0, os. split; [done|]. by apply steps_runs.
Qed.

End runs_as_functions.

#[global] Instance fixed_codec_laws : @CodecLaws fixed_codec.
Proof.
  split. intros [v off] p. cbn. unfold fixed_marshal, fixed_unmarshal. simpl.
  destruct (Z.leb_spec 0 off); [|done].
  destruct (Z.ltb_spec off (2 ^ 64)); [|done]. simpl. intros [= <-].
  rewrite length_app, length_be_put.
  destruct (Nat.leb_spec 8 (8 + length v)); [|lia].
  rewrite drop_app_length', take_app_length' by (symmetry; apply length_be_put).
  by rewrite be_get_put by (simpl; lia).
Qed.

(** ** Reading back what was appended; contiguity *)

Section read_back.
Context `{Codec} `{!CodecLaws}.

(** C1. A record appended to the log is read back under the offset the
    append returned, with the payload of the appended record and that offset
    in its [Offset] field; the read may come after any further appends and
    reads, and after the truncations that are not above the offset. The log
    is one created in an empty directory and run within the limits of the
    machine integers, and the codec decodes what it encodes. *)
Theorem read_returns_appended_record dir c l d r l1 d1 r1 off os l2 d2 l3 d3 res :
  is_u64 (InitialOffset (Segment c)) ->
  reachable dir c (l, d) ->
  within_limits l r ->
  Log.Append l r d = (l1, d1, r1, (off, Ok tt)) ->
  Forall (keeps off) os ->
  steps os (l1, d1) (l2, d2) ->
  Log.Read l2 off d2 = (l3, d3, res) ->
  exists rec, res = Ok rec /\ Value rec = Value r /\ Offset rec = off.
Proof.
  intros Hio Hreach Hlim Happ Hos Hsteps Hread.
  destruct (reachable_log_ok _ _ _ _ Hio Hreach) as (cs & Hok).
  destruct (log_ok_Append _ _ _ _ _ _ _ _ _ Hok Hlim Happ)
    as (cs1 & Hok1 & _ & -> & Hnew & _).
  destruct (steps_log_ok os (l1, d1) (l2, d2) cs1 Hok1 Hsteps) as (cs2 & Hok2 & Hkeep).
  specialize (Hkeep _ Hos _ Hnew).
  destruct (log_ok_Read _ _ _ _ _ _ _ Hok2 Hread) as (_ & _ & Hres & _).
  exists (mkRecord (Value r) off). by rewrite (Hres _ Hkeep).
Qed.

(** C3, amended. In every state of a run the segments are contiguous, and
    every offset between [LowestOffset] and [HighestOffset] is covered by
    exactly one segment and read with success, provided the [nextOffset] of
    the last segment is not 0: on the empty log that starts at 0,
    [HighestOffset] is 0 although offset 0 holds no record. *)
Theorem reachable_contiguous_readable dir c l d :
  is_u64 (InitialOffset (Segment c)) ->
  reachable dir c (l, d) ->
  contiguous (Log.segments l) /\
  forall lo hi sl off,
    Log.LowestOffset l = Ok lo -> Log.HighestOffset l = Ok hi ->
    last (Log.segments l) = Some sl -> Segment.nextOffset sl <> 0 ->
    lo <= off <= hi ->
    (exists k s, Log.segments l !! k = Some s /\ Log.covers off s /\
       forall k' s', Log.segments l !! k' = Some s' -> Log.covers off s' -> k' = k) /\
    exists l' d' rec, Log.Read l off d = (l', d', Ok rec) /\ Offset rec = off.
Proof.
  intros Hio Hreach.
  destruct (reachable_log_ok _ _ _ _ Hio Hreach) as (cs & Hok).
  split; [apply packed_contiguous, (lo_packed _ _ _ Hok)|].
  intros lo hi sl off Hlo Hhi Hlast Hnz Hoff.
  unfold Log.LowestOffset in Hlo. unfold Log.HighestOffset in Hhi.
  rewrite Hlast in Hhi.
  destruct (Log.segments l) as [|s0 rest] eqn:Hss; [done|]. injection Hlo as <-.
  destruct (Z.eqb_spec (Segment.nextOffset sl) 0); [done|]. injection Hhi as <-.
  assert (forall s, s ∈ Log.segments l ->
            0 <= Segment.baseOffset s <= Segment.nextOffset s /\
            Segment.nextOffset s < 2 ^ 64) as Hrange.
  { intros s [i Hi]%list_elem_of_lookup.
    destruct (Forall2_lookup_l _ _ _ _ _ (lo_segs _ _ _ Hok) Hi) as (recs & _ & Hs).
    by eapply seg_ok_range. }
  destruct (Hrange sl) as [Hr1 Hr2].
  { rewrite Hss. rewrite last_lookup in Hlast. by eapply list_elem_of_lookup_2. }
  rewrite u64_id in Hoff by lia.
  destruct (cover_exists (Log.segments l) off (lo_packed _ _ _ Hok)) with s0 sl
    as (k & s & Hk & Hcov).
  - intros s Hs. destruct (Hrange s Hs). lia.
  - by rewrite Hss.
  - by rewrite Hss.
  - lia.
  - rewrite <- Hss. split.
    + exists k, s. split_and!; try done. intros k' s' Hk' Hcov'.
      by eapply covers_unique.
    + destruct (Forall2_lookup_l _ _ _ _ _ (lo_segs _ _ _ Hok) Hk) as (recs & Hrecs & Hs).
      pose proof (sg_next _ _ _ Hs) as Hn. destruct Hcov as [Hc1 Hc2].
      destruct (recs !! Z.to_nat (off - Segment.baseOffset s)) as [rec|] eqn:Hj.
      2:{ apply lookup_ge_None in Hj. lia. }
      assert (holds l cs off rec) as Hh.
      { exists k, s, recs, (Z.to_nat (off - Segment.baseOffset s)).
        split_and!; try done. lia. }
      destruct (Log.Read l off d) as [[l' d'] res] eqn:Hread.
      destruct (log_ok_Read _ _ _ _ _ _ _ Hok Hread) as (_ & _ & Hres & _).
      rewrite (Hres _ Hh). exists l', d', rec. split; [done|].
      by eapply holds_Offset.
Qed.

End read_back.

Lemma read_returns_appended_record_witness :
  bases (Log.segments later_on.1) = [3] /\
  exists rec,
    (Log.Read later_on.1 3 later_on.2).2 = Ok rec /\
    Value rec = Value (payload "x") /\ Offset rec = 3.
Proof.
  split; [vm_compute; reflexivity|].
  eapply (read_returns_appended_record "data" (caps 1024 36 0)
            three_appends.1 three_appends.2 (payload "x")
            fourth_append.1 fourth_append.2
            (Log.Append three_appends.1 (payload "x") three_appends.2).1.2 3
            [OpAppend (payload "y"); OpTruncate 3; OpRead 4]
            later_on.1 later_on.2
            (Log.Read later_on.1 3 later_on.2).1.1
            (Log.Read later_on.1 3 later_on.2).1.2).
  - unfold is_u64. simpl. lia.
  - replace (three_appends.1, three_appends.2) with three_appends
      by (by destruct three_appends).
    unfold three_appends. apply reachable_runs; vm_compute; reflexivity.
  - apply within_limitsb_sound. vm_compute. reflexivity.
  - vm_compute. reflexivity.
  - repeat constructor; simpl; lia.
  - replace (later_on.1, later_on.2) with later_on by (by destruct later_on).
    replace (fourth_append.1, fourth_append.2) with fourth_append
      by (by destruct fourth_append).
    unfold later_on, fourth_append, three_appends.
    apply steps_runs. vm_compute. reflexivity.
  - by destruct (Log.Read later_on.1 3 later_on.2) as [[? ?] ?].
Defined.

Lemma empty_log_offset_0_is_not_readable :
  reachable "data" (caps 1024 1024 0) fresh_log /\
  Log.LowestOffset fresh_log.1 = Ok 0 /\
  Log.HighestOffset fresh_log.1 = Ok 0 /\
  Forall (fun s => ~ Log.covers 0 s) (Log.segments fresh_log.1) /\
  (Log.Read fresh_log.1 0 fresh_log.2).2 = Err (ErrOffsetOutOfRange 0).
Proof.
  split_and!.
  - unfold fresh_log.
    apply (reachable_runs "data" (caps 1024 1024 0) []); vm_compute; reflexivity.
  - vm_compute; reflexivity.
  - vm_compute; reflexivity.
  - apply (bool_decide_unpack _); vm_compute; exact I.
  - vm_compute; reflexivity.
Qed.

Lemma reachable_contiguous_readable_witness :
  contiguous (Log.segments two_segments.1) /\
  exists l' d' rec,
    Log.Read two_segments.1 2 two_segments.2 = (l', d', Ok rec) /\ Offset rec = 2.
Proof.
  destruct (reachable_contiguous_readable "data" (caps 1024 36 0)
              two_segments.1 two_segments.2) as [Hc Hread].
  - unfold is_u64. simpl. lia.
  - replace (two_segments.1, two_segments.2) with two_segments
      by (by destruct two_segments).
    unfold two_segments. apply reachable_runs; vm_compute; reflexivity.
  - split; [exact Hc|].
    assert (exists sl, last (Log.segments two_segments.1) = Some sl
                       /\ Segment.nextOffset sl = 4) as (sl & Hlast & Hn).
    { eexists. split; vm_compute; reflexivity. }
    destruct (Hread 0 3 sl 2) as [_ Hr].
    + vm_compute. reflexivity.
    + vm_compute. reflexivity.
    + exact Hlast.
    + rewrite Hn. lia.
    + lia.
    + exact Hr.
Defined.

(** ** Offsets of a fresh log *)

Section fresh_offsets.
Context `{Codec}.

Lemma ends_at_NewLog dir c l d :
  is_u64 (InitialOffset (Segment c)) ->
  Log.NewLog dir c ∅ = (l, d, Ok tt) ->
  ends_at l d (InitialOffset (Segment c)).
Proof.
  intros Hio Hnew. apply NewLog_empty in Hnew as (-> & Hc & Hs & Hi & Hnone).
  rewrite defaults_InitialOffset in *. unfold is_u64 in Hio.
  eexists 0%nat, _. split_and!; try done; simpl; try lia.
  intros name Hsome. exists (InitialOffset (Segment c)).
  destruct (decide (name = Segment.fileName (InitialOffset (Segment c)) ".store")) as [->|H1].
  { exists ".store". split_and!; [lia..|by left|done]. }
  destruct (decide (name = Segment.fileName (InitialOffset (Segment c)) ".index")) as [->|H2].
  { exists ".index". split_and!; [lia..|by right|done]. }
  rewrite Hnone in Hsome by done. by destruct Hsome.
Qed.

Lemma ends_at_Append l d k r l' d' r' off :
  ends_at l d k -> k + 1 < 2 ^ 64 ->
  Log.Append l r d = (l', d', r', (off, Ok tt)) ->
  off = k /\ ends_at l' d' (k + 1).
Proof.
  intros (a & s & Ha & Hs & Hn & Hb & Hnames) Hk Happ.
  unfold Log.Append in Happ. rewrite Ha, Hs in Happ.
  destruct (Segment.Append s r) as [[s1 r1] res] eqn:Hsa.
  destruct res as [o|e|]; [|by simplify_eq..].
  apply Segment_Append_returns_next in Hsa as (-> & Hn1 & Hb1 & ->).
  rewrite Hn, u64_id in Hn1 by lia.
  pose proof (lookup_lt_Some _ _ _ Hs) as Hlt.
  destruct (Segment.IsMaxed s1).
  - rewrite Hn, u64_id in Happ by lia.
    unfold Log.newSegment in Happ. cbn [Log.Config_ Log.set_segments Log.segments Log.Dir] in Happ.
    destruct (Segment.newSegment d (k + 1) (Log.Config_ l)) as [d1 r2] eqn:Hnew.
    assert (forall e, is_ext e -> d !! Segment.fileName (k + 1) e = None) as Hfresh.
    { intros e He. destruct (d !! Segment.fileName (k + 1) e) as [x|] eqn:Hx; [|done].
      destruct (Hnames _ (mk_is_Some _ _ Hx)) as (b & e' & Hbb & He' & Heq).
      apply fileName_inj in Heq as [? _]; first [done | lia]. }
    destruct (newSegment_fresh _ _ _ _ _ (Hfresh _ (or_introl eq_refl))
                (Hfresh _ (or_intror eq_refl)) Hnew) as (_ & Hframe & _ & _ & _ & Hok).
    destruct r2 as [f| |]; [|by simplify_eq..].
    destruct (Hok f eq_refl) as (-> & _ & _ & _). simplify_eq.
    split; [done|].
    exists (length (<[a:=s1]> (Log.segments l))),
      (fresh_segment (Segment.nextOffset s + 1) (Log.Config_ l)).
    split_and!; [done| |done|simpl; lia|simpl; lia|].
    + simpl. by rewrite lookup_app_r, Nat.sub_diag by lia.
    + simpl. intros name Hsome.
      destruct (decide (name = Segment.fileName (Segment.nextOffset s + 1) ".store")) as [->|H1].
      { eexists _, ".store". split_and!; [|reflexivity|by left|done]. lia. }
      destruct (decide (name = Segment.fileName (Segment.nextOffset s + 1) ".index")) as [->|H2].
      { eexists _, ".index". split_and!; [|reflexivity|by right|done]. lia. }
      rewrite Hframe in Hsome by done.
      destruct (Hnames _ Hsome) as (b & e & Hbb & He & ->).
      exists b, e. split_and!; try done; lia.
  - simplify_eq. split; [done|]. exists a, s1. split_and!; try done; try lia.
    + simpl. by rewrite list_lookup_insert_eq.
    + by rewrite Hb1.
Qed.

Lemma appends_offsets rs : forall l d k l' d' outs,
  ends_at l d k -> k + Z.of_nat (length rs) < 2 ^ 64 ->
  appends l d rs = (l', d', outs) ->
  Forall (fun out => out.2 = Ok tt) outs ->
  outs.*1 = seqZ k (Z.of_nat (length rs)).
Proof.
  induction rs as [|r rs IH]; intros l d k l' d' outs Hinv Hk Hrun Hall.
  - by simplify_eq/=.
  - simpl in Hrun, Hk.
    destruct (Log.Append l r d) as [[[l1 d1] r1] [off e]] eqn:Happ.
    destruct (appends l1 d1 rs) as [[l2 d2] outs2] eqn:Hrest. simplify_eq.
    apply Forall_cons in Hall as [He Hall]. simpl in He. subst e.
    destruct (ends_at_Append _ _ _ _ _ _ _ _ Hinv ltac:(lia) Happ) as [-> Hinv1].
    rewrite fmap_cons. simpl fst.
    replace (Z.of_nat (length (r :: rs))) with (Z.succ (Z.of_nat (length rs)))
      by (simpl; lia).
    rewrite seqZ_cons by lia. f_equal.
    replace (Z.pred (Z.succ (Z.of_nat (length rs)))) with (Z.of_nat (length rs)) by lia.
    eapply IH; [exact Hinv1|lia|exact Hrest|done].
Qed.

(** C2. On a log created in an empty directory with [InitialOffset = 0],
    [n] appends that return no error return the offsets [0, 1, ..., n-1] in
    this order ([n] below [1 << 64], the offsets being [uint64]). *)
Theorem fresh_log_offsets dir c rs l0 d0 l d outs :
  InitialOffset (Segment c) = 0 ->
  Log.NewLog dir c ∅ = (l0, d0, Ok tt) ->
  Z.of_nat (length rs) < 2 ^ 64 ->
  appends l0 d0 rs = (l, d, outs) ->
  Forall (fun out => out.2 = Ok tt) outs ->
  outs.*1 = seqZ 0 (Z.of_nat (length rs)).
Proof.
  intros Hio Hnew Hn Hrun Hall.
  eapply appends_offsets; [|lia|exact Hrun|exact Hall].
  rewrite <- Hio. eapply ends_at_NewLog; [|exact Hnew].
  rewrite Hio. unfold is_u64. lia.
Qed.

End fresh_offsets.

Lemma fresh_log_offsets_witness :
  (appends (Log.NewLog "data" (caps 1024 36 0) ∅).1.1
     (Log.NewLog "data" (caps 1024 36 0) ∅).1.2 four_payloads).2.*1
  = seqZ 0 (Z.of_nat (length four_payloads)).
Proof.
  apply (fresh_log_offsets "data" (caps 1024 36 0) four_payloads
           (Log.NewLog "data" (caps 1024 36 0) ∅).1.1
           (Log.NewLog "data" (caps 1024 36 0) ∅).1.2
           (appends (Log.NewLog "data" (caps 1024 36 0) ∅).1.1
              (Log.NewLog "data" (caps 1024 36 0) ∅).1.2 four_payloads).1.1
           (appends (Log.NewLog "data" (caps 1024 36 0) ∅).1.1
              (Log.NewLog "data" (caps 1024 36 0) ∅).1.2 four_payloads).1.2).
  - reflexivity.
  - vm_compute. reflexivity.
  - vm_compute. reflexivity.
  - by destruct (appends _ _ _) as [[? ?] ?].
  - vm_compute. repeat constructor.
Defined.

(** * Further properties *)

(** ** The store: buffered appends, reads, close and reopen *)

(** [Flush] writes what the writer holds: the file then holds the data of
    the store. *)
Lemma Flush_rep d st data :
  store_ok d st data ->
  exists b,
    bufio_Flush (Store.buf st) d = (b, <[Store.File st := data]> d, Ok tt) /\
    wr b = Store.File st /\ werr b = None /\ pending b = [].
Proof.
  intros [Hwr Herr Hdata Hsize Hbound].
  unfold store_bytes in Hdata.
  destruct (d !! Store.File st) as [c|] eqn:Hc; simpl in Hdata; [|done].
  injection Hdata as Hdata.
  unfold bufio_Flush. rewrite Herr.
  destruct (pending (Store.buf st)) as [|x q] eqn:Hpend.
  - exists (Store.buf st). rewrite app_nil_r in Hdata. subst c.
    by rewrite insert_id.
  - unfold file_Write. rewrite Hwr, Hc. eexists. by rewrite Hdata.
Qed.

Lemma store_ok_flushed d st data b :
  store_ok d st data ->
  wr b = Store.File st -> werr b = None -> pending b = [] ->
  store_ok (<[Store.File st := data]> d)
    (Store.mkStore (Store.File st) b (Store.size st)) data.
Proof.
  intros [Hwr Herr Hdata Hsize Hbound] Hbw Hbe Hbp.
  split; simpl; try done.
  unfold store_bytes. simpl. rewrite lookup_insert_eq. simpl.
  by rewrite Hbp, app_nil_r.
Qed.

Lemma store_ok_File d st data : store_ok d st data -> is_Some (d !! Store.File st).
Proof.
  intros [_ _ Hdata _ _]. unfold store_bytes in Hdata.
  by destruct (d !! Store.File st).
Qed.

(** X1. What [Append] returns and what a [Read] at the returned position gives:
    the appended bytes, although [Append] has only buffered them. The read
    flushes the writer, after which the file holds the record behind its
    length. *)
Theorem Store_Read_after_Append d st data p :
  store_ok d st data ->
  Store.size st + 8 + Z.of_nat (length p) < 2 ^ 63 ->
  Z.of_nat (length p) <= Store.maxAlloc ->
  exists st1 st2,
    Store.Append st p
    = (st1, Ok (8 + Z.of_nat (length p), Store.size st)) /\
    Store.size st1 = Store.size st + 8 + Z.of_nat (length p) /\
    Store.Read st1 (Store.size st) d
    = (st2, <[Store.File st := data ++ be_put 8 (Z.of_nat (length p)) ++ p]> d,
       Ok p).
Proof.
  intros Hok Hfit Hmax.
  destruct (Store_Append_rep _ _ _ p Hok Hfit) as (st1 & Happ & Hok1 & Hf1).
  pose proof (stored_end data p Hmax) as Hst.
  rewrite <- (so_size _ _ _ Hok) in Hst.
  destruct (Store_Read_rep _ _ _ _ _ Hok1 Hst) as (st2 & d2 & Hread & _).
  exists st1, st2. split; [done|]. split.
  { rewrite (so_size _ _ _ Hok1), (so_size _ _ _ Hok).
    rewrite !length_app, length_be_put. lia. }
  destruct (Flush_rep _ _ _ Hok1) as (b & Hflush & _).
  rewrite <- Hf1, Hread. f_equal. f_equal.
  unfold Store.Read in Hread. rewrite Hflush in Hread. simpl in Hread.
  repeat case_match; by simplify_eq.
Qed.

Lemma Store_Read_after_Append_witness :
  exists st1 st2,
    Store.Append empty_store abc
    = (st1, Ok (8 + Z.of_nat (length abc), Store.size empty_store)) /\
    Store.size st1 = Store.size empty_store + 8 + Z.of_nat (length abc) /\
    Store.Read st1 (Store.size empty_store) empty_store_directory
    = (st2, <[Store.File empty_store
              := [] ++ be_put 8 (Z.of_nat (length abc)) ++ abc]>
              empty_store_directory,
       Ok abc).
Proof.
  apply (Store_Read_after_Append empty_store_directory empty_store [] abc).
  - split; vm_compute; done.
  - vm_compute. reflexivity.
  - vm_compute. discriminate.
Defined.

(** X2. A [Read] at a position where fewer than the eight bytes of a length
    remain, the end of the data or beyond, returns [io.EOF]. *)
Theorem Store_Read_past_the_end d st data pos :
  store_ok d st data ->
  0 <= pos < 2 ^ 63 -> Z.of_nat (length data) < pos + 8 ->
  exists st',
    Store.Read st pos d = (st', <[Store.File st := data]> d, Err EOF).
Proof.
  intros Hok Hpos Hend.
  destruct (Flush_rep _ _ _ Hok) as (b & Hflush & _).
  unfold Store.Read. rewrite Hflush. simpl.
  unfold file_ReadAt. rewrite lookup_insert_eq, i64_id by lia.
  destruct (Z.ltb_spec pos 0); [lia|]. simpl.
  unfold sublist_lookup. rewrite option_guard_False by lia. simpl. eauto.
Qed.

Lemma Store_Read_past_the_end_witness :
  exists st',
    Store.Read empty_store 0 empty_store_directory
    = (st', <[Store.File empty_store := []]> empty_store_directory, Err EOF).
Proof.
  apply (Store_Read_past_the_end empty_store_directory empty_store [] 0).
  - split; vm_compute; done.
  - lia.
  - simpl. lia.
Defined.

(** X3. [Close] writes what is buffered to the file. A store opened on the file
    afterwards has the size the closed one had and answers every [Read] as
    the closed one did. *)
Theorem Store_reopen d st data :
  store_ok d st data ->
  exists st1 st2,
    Store.Close st d = (st1, <[Store.File st := data]> d, Ok tt) /\
    Store.newStore (<[Store.File st := data]> d) (Store.File st) = Ok st2 /\
    Store.size st2 = Store.size st /\
    forall pos,
      (Store.Read st2 pos (<[Store.File st := data]> d)).2
      = (Store.Read st pos d).2.
Proof.
  intros Hok.
  destruct (Flush_rep _ _ _ Hok) as (b & Hflush & _).
  unfold Store.Close. rewrite Hflush.
  unfold Store.newStore, os_Stat. rewrite lookup_insert_eq.
  pose proof (so_size _ _ _ Hok). pose proof (so_bound _ _ _ Hok).
  eexists _, _. split; [done|]. split; [done|]. split.
  { simpl. rewrite u64_id by lia. done. }
  intros pos. unfold Store.Read. rewrite Hflush. simpl.
  unfold file_ReadAt. rewrite !lookup_insert_eq.
  repeat case_match; simplify_eq; done.
Qed.

Lemma Store_reopen_witness :
  exists st1 st2,
    Store.Close one_record_store empty_store_directory
    = (st1, <[Store.File one_record_store := be_put 8 3 ++ abc]>
              empty_store_directory, Ok tt) /\
    Store.newStore
      (<[Store.File one_record_store := be_put 8 3 ++ abc]> empty_store_directory)
      (Store.File one_record_store) = Ok st2 /\
    Store.size st2 = Store.size one_record_store /\
    forall pos,
      (Store.Read st2 pos
         (<[Store.File one_record_store := be_put 8 3 ++ abc]>
            empty_store_directory)).2
      = (Store.Read one_record_store pos empty_store_directory).2.
Proof.
  apply (Store_reopen empty_store_directory one_record_store
           (be_put 8 3 ++ abc)).
  split; vm_compute; done.
Defined.

(** ** The index: entries written and read, bounds, a new mapping *)

(** [Read(-1)] is the last entry. *)
Lemma Index_Read_last ix ents e :
  index_ok ix ents -> Z.of_nat (length ents) <= 2 ^ 32 ->
  last ents = Some e -> Index.Read ix (-1) = Ok e.
Proof.
  intros Hok Hcount Hlast. rewrite last_lookup in Hlast.
  pose proof (lookup_lt_Some _ _ _ Hlast) as Hlt.
  pose proof Hok as [Hsize Hfit Hlen Hents].
  assert (Index.Read ix (-1) = Index.Read ix (Z.of_nat (pred (length ents))))
    as ->.
  { unfold Index.Read, Index.entWidth, Index.offWidth, Index.posWidth.
    change (4 + 8) with 12.
    destruct (Z.eqb_spec (Index.size ix) 0); [done|].
    destruct (Z.eqb_spec (Z.of_nat (pred (length ents))) (-1)); [lia|].
    simpl. rewrite Hsize.
    replace (12 * Z.of_nat (length ents) / 12) with (Z.of_nat (length ents))
      by (rewrite Z.mul_comm, Z.div_mul; lia).
    rewrite (u64_id (Z.of_nat (length ents) - 1)) by lia.
    by replace (Z.of_nat (length ents) - 1) with (Z.of_nat (pred (length ents)))
      by lia. }
  eapply Index_Read_entry; [done|lia|by rewrite Nat2Z.id].
Qed.

(** X4. An entry written is the entry read: as the last one ([Read(-1)]) and
    under its number, and the entries written before are read as before. *)
Theorem Index_Read_after_Write ix ents o p :
  index_ok ix ents -> 0 <= o < 2 ^ 32 -> 0 <= p < 2 ^ 64 ->
  Z.of_nat (length ents) < 2 ^ 32 ->
  Index.size ix + 12 <= Z.of_nat (length (Index.mmap ix)) ->
  exists ix',
    Index.Write ix o p = (ix', Ok tt) /\
    Index.size ix' = Index.size ix + 12 /\
    Index.Read ix' (-1) = Ok (o, p) /\
    Index.Read ix' (Z.of_nat (length ents)) = Ok (o, p) /\
    forall j e, ents !! j = Some e -> Index.Read ix' (Z.of_nat j) = Ok e.
Proof.
  intros Hok Ho Hp Hcount Hroom.
  destruct (Index_Write_room _ _ _ _ Hok Ho Hp Hroom) as (ix' & Hw & Hok' & _).
  exists ix'. split; [done|]. split.
  { rewrite (io_size _ _ Hok'), (io_size _ _ Hok), length_app. simpl. lia. }
  split_and!.
  - eapply Index_Read_last; [done| |by rewrite last_snoc].
    rewrite length_app. simpl. lia.
  - eapply Index_Read_entry; [done|lia|].
    by rewrite Nat2Z.id, lookup_app_r, Nat.sub_diag.
  - intros j e He. pose proof (lookup_lt_Some _ _ _ He).
    eapply Index_Read_entry; [done|lia|].
    by rewrite Nat2Z.id, lookup_app_l.
Qed.

(** X5. The bounds of an index. [Write] returns [io.EOF] and leaves the index
    as it is when the mapping has no room for twelve more bytes; [Read]
    returns [io.EOF] for every entry that has not been written, and for
    every offset when the index is empty. *)
Theorem Index_bounds ix ents :
  index_ok ix ents ->
  (Z.of_nat (length (Index.mmap ix)) < Index.size ix + 12 ->
   forall o p, Index.Write ix o p = (ix, Err EOF)) /\
  (forall off, Z.of_nat (length ents) <= off < 2 ^ 32 ->
     Index.Read ix off = Err EOF) /\
  (ents = [] -> forall off, Index.Read ix off = Err EOF).
Proof.
  intros Hok. split_and!.
  - intros Hfull o p. by eapply Index_Write_full.
  - intros off Hoff. pose proof Hok as [Hsize Hfit Hlen Hents].
    unfold Index.Read, Index.entWidth, Index.offWidth, Index.posWidth.
    change (4 + 8) with 12.
    destruct (Z.eqb_spec (Index.size ix) 0); [done|].
    destruct (Z.eqb_spec off (-1)); [lia|].
    rewrite (u32_id off) by lia.
    rewrite (u64_id (off * 12)) by lia.
    rewrite (u64_id (off * 12 + 12)) by lia.
    by destruct (Z.ltb_spec (Index.size ix) (off * 12 + 12)); [|lia].
  - intros -> off. apply Index_Read_empty. by rewrite (io_size _ _ Hok).
Qed.

Lemma index_ok_two_entries : index_ok two_entries [(0, 0); (1, 11)].
Proof.
  split; [vm_compute; done..|].
  intros [|[|j]] e He; cbn in He; try discriminate;
    injection He as <-; vm_compute; reflexivity.
Qed.

Lemma index_ok_three_entries : index_ok three_entries [(0, 0); (1, 11); (2, 30)].
Proof.
  split; [vm_compute; done..|].
  intros [|[|[|j]]] e He; cbn in He; try discriminate;
    injection He as <-; vm_compute; reflexivity.
Qed.

Lemma Index_Read_after_Write_witness :
  exists ix',
    Index.Write two_entries 2 30 = (ix', Ok tt) /\
    Index.size ix' = Index.size two_entries + 12 /\
    Index.Read ix' (-1) = Ok (2, 30) /\
    Index.Read ix' (Z.of_nat (length [(0, 0); (1, 11)])) = Ok (2, 30) /\
    forall j e, [(0, 0); (1, 11)] !! j = Some e ->
                Index.Read ix' (Z.of_nat j) = Ok e.
Proof.
  apply (Index_Read_after_Write two_entries [(0, 0); (1, 11)] 2 30).
  - apply index_ok_two_entries.
  - lia.
  - lia.
  - simpl. lia.
  - vm_compute. discriminate.
Defined.

Lemma Index_bounds_witness :
  (forall o p, Index.Write three_entries o p = (three_entries, Err EOF)) /\
  Index.Read three_entries 3 = Err EOF /\
  Index.Read empty_index (-1) = Err EOF.
Proof.
  destruct (Index_bounds three_entries [(0, 0); (1, 11); (2, 30)]
              index_ok_three_entries) as (Hw & Hr & _).
  destruct (Index_bounds empty_index []) as (_ & _ & He).
  { split; [vm_compute; done..|]. intros j e He. done. }
  split_and!.
  - apply Hw. vm_compute. reflexivity.
  - apply Hr. simpl. lia.
  - by apply He.
Defined.

(** ** The index: a new mapping, close and reopen *)

Lemma newIndex_extends d f c content :
  d !! f = Some content ->
  0 < i64 (MaxIndexBytes (Segment c)) ->
  Z.of_nat (length content) <= i64 (MaxIndexBytes (Segment c)) ->
  let m := content ++ replicate (Z.to_nat (i64 (MaxIndexBytes (Segment c)))
                                 - length content) x00 in
  Index.newIndex d f c
  = (<[f := m]> d, Ok (Index.mkIndex f m (Z.of_nat (length content)))).
Proof.
  intros Hf Hpos Hle m. pose proof (i64_lt (MaxIndexBytes (Segment c))).
  unfold Index.newIndex, os_Stat, os_Truncate. rewrite Hf.
  destruct (Z.ltb_spec (i64 (MaxIndexBytes (Segment c))) 0); [lia|].
  unfold gommap_Map. rewrite lookup_insert_eq.
  rewrite resize_ge by lia. fold m.
  assert (length m = Z.to_nat (i64 (MaxIndexBytes (Segment c)))) as Hm.
  { unfold m. rewrite length_app, length_replicate. lia. }
  destruct m as [|x m'] eqn:Heq; [simpl in Hm; lia|].
  by rewrite u64_id by lia.
Qed.

(** X6. On a file no longer than the cap, [newIndex] keeps the content of the
    file and extends it with zero bytes up to [MaxIndexBytes]; the mapping
    is the file, and [size] is the length the file had. No other file
    changes. *)
Theorem newIndex_grows d f c content :
  d !! f = Some content ->
  0 < i64 (MaxIndexBytes (Segment c)) ->
  Z.of_nat (length content) <= i64 (MaxIndexBytes (Segment c)) ->
  exists d' ix,
    Index.newIndex d f c = (d', Ok ix) /\
    Index.file ix = f /\
    Index.size ix = Z.of_nat (length content) /\
    Z.of_nat (length (Index.mmap ix)) = i64 (MaxIndexBytes (Segment c)) /\
    take (length content) (Index.mmap ix) = content /\
    Forall (fun b => b = x00) (drop (length content) (Index.mmap ix)) /\
    d' !! f = Some (Index.mmap ix) /\
    forall name, name <> f -> d' !! name = d !! name.
Proof.
  intros Hf Hpos Hle. eexists _, _.
  split; [by apply newIndex_extends|]. simpl. split_and!; try done.
  - rewrite length_app, length_replicate. lia.
  - by rewrite take_app_length.
  - rewrite drop_app_length. apply Forall_forall.
    intros b Hb. by apply elem_of_replicate in Hb as [-> _].
  - by rewrite lookup_insert_eq.
  - intros name Hne. by rewrite lookup_insert_ne.
Qed.

Lemma newIndex_grows_witness :
  exists d' ix,
    Index.newIndex closed_directory "0.index" (caps 1024 36 0) = (d', Ok ix) /\
    Index.file ix = "0.index" /\
    Index.size ix
    = Z.of_nat (length (be_put 4 0 ++ be_put 8 0 ++ be_put 4 1 ++ be_put 8 17)) /\
    Z.of_nat (length (Index.mmap ix))
    = i64 (MaxIndexBytes (Segment (caps 1024 36 0))) /\
    take (length (be_put 4 0 ++ be_put 8 0 ++ be_put 4 1 ++ be_put 8 17))
      (Index.mmap ix)
    = be_put 4 0 ++ be_put 8 0 ++ be_put 4 1 ++ be_put 8 17 /\
    Forall (fun b => b = x00)
      (drop (length (be_put 4 0 ++ be_put 8 0 ++ be_put 4 1 ++ be_put 8 17))
         (Index.mmap ix)) /\
    d' !! "0.index" = Some (Index.mmap ix) /\
    forall name, name <> "0.index" -> d' !! name = closed_directory !! name.
Proof.
  apply (newIndex_grows closed_directory "0.index" (caps 1024 36 0)
           (be_put 4 0 ++ be_put 8 0 ++ be_put 4 1 ++ be_put 8 17)).
  - vm_compute. reflexivity.
  - vm_compute. reflexivity.
  - vm_compute. discriminate.
Defined.

Lemma sublist_lookup_take_app {A} (l z : list A) n i k :
  (i + k <= n)%nat -> (n <= length l)%nat ->
  sublist_lookup i k (take n l ++ z) = sublist_lookup i k l.
Proof.
  intros Hik Hn.
  rewrite !sublist_lookup_Some by (rewrite ?length_app, ?length_take; lia).
  f_equal. apply list_eq. intros j.
  destruct (decide (j < k)%nat) as [Hj|Hj].
  2:{ by rewrite !lookup_take_ge by lia. }
  rewrite !lookup_take_lt, !lookup_drop by lia.
  rewrite lookup_app_l by (rewrite length_take; lia).
  by rewrite lookup_take_lt by lia.
Qed.

Lemma sublist_lookup_app_prefix {A} (l z : list A) i k :
  (i + k <= length l)%nat ->
  sublist_lookup i k (l ++ z) = sublist_lookup i k l.
Proof.
  intros Hik.
  pose proof (sublist_lookup_take_app l z (length l) i k Hik) as Hs.
  rewrite take_ge in Hs by lia. by apply Hs.
Qed.

Lemma u32_range z : 0 <= u32 z < 2 ^ 32.
Proof. unfold u32. apply Z.mod_pos_bound. lia. Qed.

(** [Close] cuts the file at the entries. *)
Lemma Index_Close_rep d ix ents :
  index_ok ix ents -> is_Some (d !! Index.file ix) ->
  Index.Close ix d
  = (<[Index.file ix := take (Z.to_nat (Index.size ix)) (Index.mmap ix)]> d,
     Ok tt) /\
  index_file_ok (take (Z.to_nat (Index.size ix)) (Index.mmap ix)) ents.
Proof.
  intros [Hsize Hfit Hlen Hents] [c0 Hc0]. split.
  - unfold Index.Close, os_Truncate. rewrite Hc0, lookup_insert_eq.
    rewrite i64_id by lia.
    destruct (Z.ltb_spec (Index.size ix) 0); [lia|].
    by rewrite insert_insert_eq, resize_le by lia.
  - split; [rewrite length_take; lia|].
    intros j e He. pose proof (lookup_lt_Some _ _ _ He).
    unfold index_entry.
    rewrite <- (app_nil_r (take _ _)).
    rewrite !sublist_lookup_take_app by lia. by apply Hents.
Qed.

(** [newIndex] on a file that holds entries and nothing else. *)
Lemma newIndex_closed d f c content ents :
  d !! f = Some content -> index_file_ok content ents ->
  0 < i64 (MaxIndexBytes (Segment c)) ->
  12 * Z.of_nat (length ents) <= i64 (MaxIndexBytes (Segment c)) ->
  exists m,
    Index.newIndex d f c
    = (<[f := m]> d, Ok (Index.mkIndex f m (12 * Z.of_nat (length ents)))) /\
    Z.of_nat (length m) = i64 (MaxIndexBytes (Segment c)) /\
    take (length content) m = content /\
    index_ok (Index.mkIndex f m (12 * Z.of_nat (length ents))) ents.
Proof.
  intros Hf [Hlen Hents] Hpos Hcap.
  pose proof (i64_lt (MaxIndexBytes (Segment c))) as Hmax.
  eexists. split.
  { rewrite <- Hlen. apply newIndex_extends; [done..|lia]. }
  split_and!.
  - rewrite length_app, length_replicate. lia.
  - by rewrite take_app_length.
  - split; simpl; try done.
    + rewrite length_app, length_replicate. lia.
    + rewrite length_app, length_replicate. lia.
    + intros j e He. pose proof (lookup_lt_Some _ _ _ He).
      unfold index_entry.
      rewrite !sublist_lookup_app_prefix by lia. by apply Hents.
Qed.

(** Indexes of the same size whose mappings agree up to it answer alike. *)
Lemma Index_Read_same ix ix' off :
  Index.size ix' = Index.size ix -> 0 <= Index.size ix ->
  Index.size ix <= Z.of_nat (length (Index.mmap ix)) ->
  Index.size ix <= Z.of_nat (length (Index.mmap ix')) ->
  take (Z.to_nat (Index.size ix)) (Index.mmap ix')
  = take (Z.to_nat (Index.size ix)) (Index.mmap ix) ->
  Index.Read ix' off = Index.Read ix off.
Proof.
  intros Hsz H0 Hl Hl' Htake.
  assert (forall i k, (i + k <= Z.to_nat (Index.size ix))%nat ->
            sublist_lookup i k (Index.mmap ix')
            = sublist_lookup i k (Index.mmap ix)) as Hsame.
  { intros i k Hik.
    rewrite <- (sublist_lookup_take_app (Index.mmap ix') [] _ i k Hik) by lia.
    rewrite <- (sublist_lookup_take_app (Index.mmap ix) [] _ i k Hik) by lia.
    by rewrite Htake. }
  unfold Index.Read, Index.entWidth, Index.offWidth, Index.posWidth.
  change (4 + 8) with 12. rewrite Hsz.
  destruct (Z.eqb_spec (Index.size ix) 0); [done|].
  set (out := if off =? -1 then u32 (u64 (Index.size ix / 12 - 1)) else u32 off).
  assert (0 <= out < 2 ^ 32) as Hout.
  { unfold out. destruct (off =? -1); apply u32_range. }
  rewrite (u64_id (out * 12)) by lia.
  rewrite (u64_id (out * 12 + 12)) by lia.
  destruct (Z.ltb_spec (Index.size ix) (out * 12 + 12)); [done|].
  unfold Index.mmap_slice. by rewrite !Hsame by lia.
Qed.

(** X7. [Close] cuts the file at the entries written. On the file so left,
    [newIndex] with a cap that is not below its length gives an index of the
    same size that answers every [Read] as the closed one did. *)
Theorem Index_reopen d ix ents c :
  index_ok ix ents -> is_Some (d !! Index.file ix) ->
  0 < i64 (MaxIndexBytes (Segment c)) ->
  Index.size ix <= i64 (MaxIndexBytes (Segment c)) ->
  let d1 := <[Index.file ix := take (Z.to_nat (Index.size ix)) (Index.mmap ix)]> d in
  exists d2 ix2,
    Index.Close ix d = (d1, Ok tt) /\
    Index.newIndex d1 (Index.file ix) c = (d2, Ok ix2) /\
    (forall name, name <> Index.file ix -> d2 !! name = d !! name) /\
    Index.file ix2 = Index.file ix /\
    Index.size ix2 = Index.size ix /\
    forall off, Index.Read ix2 off = Index.Read ix off.
Proof.
  intros Hok Hfile Hpos Hcap d1.
  destruct (Index_Close_rep d ix ents Hok Hfile) as [HClose Hfok].
  pose proof Hok as [Hsize Hfit Hlen Hents].
  destruct (newIndex_closed d1 (Index.file ix) c
              (take (Z.to_nat (Index.size ix)) (Index.mmap ix)) ents)
    as (m & Hnew & Hm & Htake & Hok2);
    [by apply lookup_insert_eq|done|done|lia|].
  rewrite length_take in Htake.
  replace (Z.to_nat (Index.size ix) `min` length (Index.mmap ix))%nat
    with (Z.to_nat (Index.size ix)) in Htake by lia.
  eexists _, _. split; [done|]. split; [exact Hnew|]. split_and!; try done.
  - intros name Hne. unfold d1. by rewrite !lookup_insert_ne.
  - intros off. apply Index_Read_same; simpl; try lia. done.
Qed.

Lemma Index_reopen_witness :
  exists d2 ix2,
    Index.Close two_entries empty_index_directory
    = (<[Index.file two_entries
         := take (Z.to_nat (Index.size two_entries)) (Index.mmap two_entries)]>
         empty_index_directory, Ok tt) /\
    Index.newIndex
      (<[Index.file two_entries
         := take (Z.to_nat (Index.size two_entries)) (Index.mmap two_entries)]>
         empty_index_directory)
      (Index.file two_entries) (caps 1024 36 0) = (d2, Ok ix2) /\
    (forall name, name <> Index.file two_entries ->
                  d2 !! name = empty_index_directory !! name) /\
    Index.file ix2 = Index.file two_entries /\
    Index.size ix2 = Index.size two_entries /\
    forall off, Index.Read ix2 off = Index.Read two_entries off.
Proof.
  apply (Index_reopen empty_index_directory two_entries [(0, 0); (1, 11)]
           (caps 1024 36 0)).
  - apply index_ok_two_entries.
  - by eexists.
  - vm_compute. reflexivity.
  - vm_compute. discriminate.
Defined.

(** ** The calls of a log, step by step *)

Section calls_in_detail.
Context `{Codec} `{!CodecLaws}.

(** The segment that follows the active one is made on files that do not
    exist yet. *)
Lemma newSegment_next l d cs a s :
  log_ok l d cs ->
  Log.activeSegment l = Some a -> Log.segments l !! a = Some s ->
  Segment.baseOffset s < Segment.nextOffset s ->
  let nb := Segment.nextOffset s in
  let c := Log.Config_ l in
  Log.newSegment l nb d
  = (Log.mkLog (Log.Dir l) c (Some (length (Log.segments l)))
       (Log.segments l ++ [fresh_segment nb c]),
     <[Segment.fileName nb ".index"
       := replicate (Z.to_nat (i64 (MaxIndexBytes (Segment c)))) x00]>
       (<[Segment.fileName nb ".store" := []]> d),
     Ok tt) /\
  d !! Segment.fileName nb ".store" = None /\
  d !! Segment.fileName nb ".index" = None.
Proof.
  intros Hok Ha Hs Hlt nb c.
  pose proof Hok as [Hact Hne Hcfg Hsegs Hpk Hown].
  rewrite Hact in Ha. injection Ha as <-.
  destruct (Forall2_lookup_l _ _ _ _ _ Hsegs Hs) as (recs & Hrecs & Hsok).
  assert (forall s0, s0 ∈ Log.segments l -> Segment.baseOffset s0 < nb) as Hbelow.
  { intros s0 [i Hi]%list_elem_of_lookup.
    pose proof (lookup_lt_Some _ _ _ Hi).
    destruct (decide (i = length (Log.segments l) - 1)%nat) as [->|Hn].
    - by simplify_eq.
    - destruct (packed_lt _ _ _ Hpk Hsegs (length (Log.segments l) - 1)%nat
                  i s0 s) as [? ?]; [lia|done..|]. unfold nb. lia. }
  pose proof (owned_fresh _ _ _ nb ".store" Hown Hpk Hsegs Hbelow
                (or_introl eq_refl)) as Hns.
  pose proof (owned_fresh _ _ _ nb ".index" Hown Hpk Hsegs Hbelow
                (or_intror eq_refl)) as Hni.
  split; [|done].
  pose proof (fileName_store_index nb) as Hdiff.
  unfold Log.newSegment, Segment.newSegment, os_OpenFile. rewrite Hns.
  unfold Store.newStore, os_Stat. rewrite lookup_insert_eq. simpl.
  rewrite lookup_insert_ne, Hni by done.
  rewrite (newIndex_extends _ _ c []);
    [|by rewrite lookup_insert_eq|done|unfold c; simpl; lia].
  simpl. rewrite Nat.sub_0_r, insert_insert_eq.
  unfold fresh_segment. by rewrite (u64_id (Z.of_nat 0)) by (simpl; lia).
Qed.

(** [Append] in the states of a run: the append of the active segment, and
    the roll to a new segment when the active one is maxed. *)
Lemma Append_in_detail l d cs r l' d' r' off res :
  log_ok l d cs -> within_limits l r ->
  Log.Append l r d = (l', d', r', (off, res)) ->
  exists a s recs s1 res1,
    Log.activeSegment l = Some a /\ a = (length (Log.segments l) - 1)%nat /\
    Log.segments l !! a = Some s /\ cs !! a = Some recs /\ seg_ok d s recs /\
    append_fits s r /\
    Segment.Append s r = (s1, r', res1) /\
    Segment.baseOffset s1 = Segment.baseOffset s /\
    let l1 := Log.set_segments l (<[a := s1]> (Log.segments l)) in
    match res1 with
    | Ok o =>
        o = Segment.nextOffset s /\ off = o /\ res = Ok tt /\
        Segment.nextOffset s1 = o + 1 /\
        seg_ok d s1 (recs ++ [r']) /\
        if Segment.IsMaxed s1 then
          Log.newSegment l1 (o + 1) d = (l', d', Ok tt) /\
          Log.segments l'
          = <[a := s1]> (Log.segments l)
            ++ [fresh_segment (o + 1) (Log.Config_ l)] /\
          d !! Segment.fileName (o + 1) ".store" = None /\
          d !! Segment.fileName (o + 1) ".index" = None
        else l' = l1 /\ d' = d
    | Err e =>
        off = 0 /\ res = Err e /\ l' = l1 /\ d' = d /\
        Segment.nextOffset s1 = Segment.nextOffset s /\ seg_ok d s1 recs
    | Panic => False
    end.
Proof.
  intros Hok Hlim Happ.
  destruct (log_ok_active _ _ _ Hok) as (a & s & recs & Hact & Ha & Hs & Hrecs & Hsok).
  specialize (Hlim a s Hact Hs).
  unfold Log.Append in Happ. rewrite Hact, Hs in Happ.
  destruct (Segment.Append s r) as [[s1 r1] res1] eqn:Hsa.
  destruct (Segment_Append_rep _ _ _ _ _ _ _ Hsok Hlim Hsa) as (-> & Hb & Hcf & Hres).
  exists a, s, recs, s1, res1.
  destruct res1 as [o|err|]; [| |done].
  - destruct Hres as [-> Hs1].
    pose proof (log_ok_update_last _ _ _ _ _ _ _ Hok Hact Hs Hb Hs1) as Hok1.
    pose proof (lookup_lt_Some _ _ _ Hs) as Hlt.
    pose proof Hlim as (Hn1 & _ & _).
    pose proof (sg_next _ _ _ Hs1) as Hn2. pose proof (sg_next _ _ _ Hsok) as Hn3.
    pose proof (sg_base _ _ _ Hsok) as Hn4.
    rewrite length_app in Hn2. simpl in Hn2.
    assert (Segment.nextOffset s1 = Segment.nextOffset s + 1) as Hnb by lia.
    rewrite (u64_id (Segment.nextOffset s + 1)) in Happ by lia.
    destruct (Segment.IsMaxed s1) eqn:Hmax.
    + set (l1 := Log.set_segments l (<[a := s1]> (Log.segments l))) in *.
      assert (Log.segments l1 !! a = Some s1) as Hs1l
        by (unfold l1; simpl; by rewrite list_lookup_insert_eq).
      destruct (newSegment_next l1 d _ a s1 Hok1 Hact Hs1l ltac:(lia))
        as (Hnew & Hns & Hni).
      rewrite Hnb in Hnew, Hns, Hni. rewrite Hnew in Happ.
      simplify_eq. split_and!; done.
    + simplify_eq. split_and!; done.
  - simplify_eq. split_and!; try done.
    unfold Segment.Append in Hsa.
    repeat case_match; by simplify_eq.
Qed.

(** [Read] leaves the segments as they are, the writer of a store apart. *)
Lemma Read_in_detail l off d l' d' res :
  Log.Read l off d = (l', d', res) ->
  Log.Dir l' = Log.Dir l /\ Log.Config_ l' = Log.Config_ l /\
  Log.activeSegment l' = Log.activeSegment l /\
  Forall2 (fun s s' =>
             Segment.baseOffset s' = Segment.baseOffset s /\
             Segment.nextOffset s' = Segment.nextOffset s /\
             Segment.index s' = Segment.index s /\
             Segment.config s' = Segment.config s /\
             Store.size (Segment.store s') = Store.size (Segment.store s) /\
             Store.File (Segment.store s') = Store.File (Segment.store s))
    (Log.segments l) (Log.segments l').
Proof.
  unfold Log.Read. intros Hread.
  assert (Forall2 (fun s s' : Segment.segment =>
             Segment.baseOffset s' = Segment.baseOffset s /\
             Segment.nextOffset s' = Segment.nextOffset s /\
             Segment.index s' = Segment.index s /\
             Segment.config s' = Segment.config s /\
             Store.size (Segment.store s') = Store.size (Segment.store s) /\
             Store.File (Segment.store s') = Store.File (Segment.store s))
            (Log.segments l) (Log.segments l)) as Hrefl.
  { apply Forall2_same_length_lookup. split; [done|].
    intros i x y Hx Hy. by simplify_eq. }
  destruct (list_find _ _) as [[k s]|] eqn:Hfind; [|by simplify_eq].
  apply list_find_Some in Hfind as (Hk & _ & _).
  destruct (Segment.nextOffset s <=? off); [by simplify_eq|].
  destruct (Segment.Read s off d) as [[s' d1] r] eqn:Hsr.
  simplify_eq. simpl. split_and!; try done.
  apply Forall2_same_length_lookup. split; [by rewrite length_insert|].
  intros i x y Hx Hy.
  destruct (decide (i = k)) as [->|Hne].
  - rewrite list_lookup_insert_eq in Hy by (by eapply lookup_lt_Some).
    simplify_eq. unfold Segment.Read, Store.Read in Hsr.
    repeat case_match; by simplify_eq.
  - rewrite list_lookup_insert_ne in Hy by done. by simplify_eq.
Qed.

End calls_in_detail.

(** ** Offsets and answers of a log *)

Lemma last_insert_last {A} (l : list A) x :
  l <> [] -> last (<[(length l - 1)%nat := x]> l) = Some x.
Proof.
  intros Hne. rewrite last_lookup, length_insert.
  replace (pred (length l)) with (length l - 1)%nat by lia.
  apply list_lookup_insert_eq. destruct l; [done|simpl; lia].
Qed.

Lemma LowestOffset_head l :
  Log.LowestOffset l
  = match head (bases (Log.segments l)) with
    | Some b => Ok b
    | None => Panic
    end.
Proof. unfold Log.LowestOffset. by destruct (Log.segments l). Qed.

Lemma HighestOffset_last l :
  Log.HighestOffset l
  = match last (Segment.nextOffset <$> Log.segments l) with
    | Some off => if off =? 0 then Ok 0 else Ok (u64 (off - 1))
    | None => Panic
    end.
Proof.
  unfold Log.HighestOffset. rewrite fmap_last.
  by destruct (last (Log.segments l)).
Qed.

Lemma covers_lookup (ss ss' : list Segment.segment) off :
  bases ss' = bases ss ->
  Segment.nextOffset <$> ss' = Segment.nextOffset <$> ss ->
  (forall s, s ∈ ss -> ~ Log.covers off s) ->
  forall s', s' ∈ ss' -> ~ Log.covers off s'.
Proof.
  intros Hb Hn Hno s' [i Hi]%list_elem_of_lookup Hcov.
  assert (bases ss !! i = Some (Segment.baseOffset s')) as Hbi.
  { rewrite <- Hb. unfold bases. by rewrite list_lookup_fmap, Hi. }
  assert ((Segment.nextOffset <$> ss) !! i = Some (Segment.nextOffset s')) as Hni.
  { rewrite <- Hn. by rewrite list_lookup_fmap, Hi. }
  unfold bases in Hbi. rewrite list_lookup_fmap in Hbi, Hni.
  destruct (ss !! i) as [s|] eqn:Hs; [|done]. simpl in *.
  apply (Hno s); [by eapply list_elem_of_lookup_2|].
  unfold Log.covers in *. simplify_eq. lia.
Qed.

Section answers.
Context `{Codec} `{!CodecLaws}.

Lemma covered_holds l d cs k s off :
  log_ok l d cs -> Log.segments l !! k = Some s -> Log.covers off s ->
  exists rec, holds l cs off rec.
Proof.
  intros Hok Hk [Hc1 Hc2].
  destruct (Forall2_lookup_l _ _ _ _ _ (lo_segs _ _ _ Hok) Hk) as (recs & Hrecs & Hs).
  pose proof (sg_next _ _ _ Hs) as Hn.
  destruct (recs !! Z.to_nat (off - Segment.baseOffset s)) as [rec|] eqn:Hj.
  2:{ apply lookup_ge_None in Hj. lia. }
  exists rec, k, s, recs, (Z.to_nat (off - Segment.baseOffset s)).
  split_and!; try done. lia.
Qed.

(** What a [Read] answers in a state of a run: the record held under the
    offset, or the error of an offset that no segment covers. *)
Lemma Read_answer l d cs off :
  log_ok l d cs ->
  (exists rec, holds l cs off rec /\ (Log.Read l off d).2 = Ok rec) \/
  ((forall s, s ∈ Log.segments l -> ~ Log.covers off s) /\
   (Log.Read l off d).2 = Err (ErrOffsetOutOfRange off)).
Proof.
  intros Hok.
  destruct (Log.Read l off d) as [[l' d'] res] eqn:Hread.
  destruct (log_ok_Read _ _ _ _ _ _ _ Hok Hread) as (_ & _ & Hheld & Hnone & _).
  destruct (list_find (Log.covers off) (Log.segments l)) as [[k s]|] eqn:Hfind.
  - apply list_find_Some in Hfind as (Hk & Hcov & _).
    destruct (covered_holds _ _ _ _ _ _ Hok Hk Hcov) as (rec & Hrec).
    left. exists rec. split; [done|]. simpl. by apply Hheld.
  - apply list_find_None in Hfind. rewrite Forall_forall in Hfind.
    right. split; [done|]. simpl. by apply Hnone.
Qed.

Lemma holds_same_bases l l' cs off rec :
  bases (Log.segments l') = bases (Log.segments l) ->
  holds l cs off rec -> holds l' cs off rec.
Proof.
  intros Hb (k & s & recs & j & Hk & Hcs & Hj & ->).
  assert (bases (Log.segments l') !! k = Some (Segment.baseOffset s)) as Hbk.
  { rewrite Hb. unfold bases. by rewrite list_lookup_fmap, Hk. }
  unfold bases in Hbk. rewrite list_lookup_fmap in Hbk.
  destruct (Log.segments l' !! k) as [s'|] eqn:Hs'; [|done].
  exists k, s', recs, j. split_and!; try done.
  simpl in Hbk. injection Hbk as Hbk. lia.
Qed.

(** Two states that hold the same records in segments of the same offsets
    answer every [Read] alike. *)
Lemma same_answers l d l' d' cs :
  log_ok l d cs -> log_ok l' d' cs ->
  bases (Log.segments l') = bases (Log.segments l) ->
  Segment.nextOffset <$> Log.segments l' = Segment.nextOffset <$> Log.segments l ->
  Log.LowestOffset l' = Log.LowestOffset l /\
  Log.HighestOffset l' = Log.HighestOffset l /\
  forall off, (Log.Read l' off d').2 = (Log.Read l off d).2.
Proof.
  intros Hok Hok' Hb Hn. split_and!.
  - by rewrite !LowestOffset_head, Hb.
  - by rewrite !HighestOffset_last, Hn.
  - intros off.
    destruct (Read_answer l d cs off Hok) as [(rec & Hrec & ->)|[Hno ->]].
    + destruct (Read_answer l' d' cs off Hok') as [(rec' & Hrec' & ->)|[Hno' _]].
      * destruct (holds_covers _ _ _ _ _ Hok' Hrec')
          as (k1 & s1 & rs1 & j1 & Hk1 & Hc1 & Hj1 & Ho1 & _ & Hcov1).
        destruct (holds_covers _ _ _ _ _ Hok' (holds_same_bases l l' cs off rec Hb Hrec))
          as (k2 & s2 & rs2 & j2 & Hk2 & Hc2 & Hj2 & Ho2 & _ & Hcov2).
        assert (k1 = k2) as -> by (by eapply covers_unique).
        simplify_eq. assert (j1 = j2) as -> by lia. by simplify_eq.
      * destruct (holds_covers _ _ _ _ _ Hok' (holds_same_bases l l' cs off rec Hb Hrec))
          as (k2 & s2 & rs2 & j2 & Hk2 & _ & _ & _ & _ & Hcov2).
        destruct (Hno' s2); [by eapply list_elem_of_lookup_2|done].
    + destruct (Read_answer l' d' cs off Hok') as [(rec' & Hrec' & _)|[_ ->]]; [|done].
      destruct (holds_covers _ _ _ _ _ Hok' Hrec')
        as (k1 & s1 & rs1 & j1 & Hk1 & _ & _ & _ & _ & Hcov1).
      destruct (covers_lookup _ _ off Hb Hn Hno s1);
        [by eapply list_elem_of_lookup_2|done].
Qed.

(** The offsets of an append that returns no error, in a state of a run. *)
Lemma Append_offsets l d cs r l' d' r' off :
  log_ok l d cs -> within_limits l r ->
  Log.Append l r d = (l', d', r', (off, Ok tt)) ->
  0 <= off /\ off + 1 < 2 ^ 64 /\
  last (Segment.nextOffset <$> Log.segments l) = Some off /\
  last (Segment.nextOffset <$> Log.segments l') = Some (off + 1) /\
  head (bases (Log.segments l')) = head (bases (Log.segments l)).
Proof.
  intros Hok Hlim Happ.
  destruct (Append_in_detail _ _ _ _ _ _ _ _ _ Hok Hlim Happ)
    as (a & s & recs & s1 & res1 & Hact & Ha & Hs & Hrecs & Hsok & Hfits & Hsa & Hb & Hres).
  destruct res1 as [o|e|]; [|by destruct Hres as (_ & ? & _)|done].
  destruct Hres as (-> & -> & _ & Hn1 & Hs1 & Hroll).
  destruct (seg_ok_range _ _ _ Hsok) as [Hr1 Hr2].
  destruct Hfits as (Hf1 & _).
  pose proof (lo_nonempty _ _ _ Hok) as Hne.
  split; [lia|]. split; [lia|]. split.
  { rewrite fmap_last, last_lookup.
    replace (pred (length (Log.segments l))) with a by lia. by rewrite Hs. }
  assert (Log.segments l'
          = <[a := s1]> (Log.segments l)
            ++ (if Segment.IsMaxed s1
                then [fresh_segment (Segment.nextOffset s + 1) (Log.Config_ l)]
                else [])) as Hsegs.
  { destruct (Segment.IsMaxed s1).
    - by destruct Hroll as (_ & -> & _).
    - destruct Hroll as [-> _]. simpl. by rewrite app_nil_r. }
  rewrite Hsegs. split.
  - rewrite fmap_last. destruct (Segment.IsMaxed s1).
    + by rewrite last_snoc.
    + by rewrite app_nil_r, Ha, last_insert_last, <- Hn1.
  - unfold bases. rewrite fmap_app.
    erewrite (bases_insert (Log.segments l)) by done.
    destruct (Log.segments l); done.
Qed.

End answers.

(** ** Appends and reads of a run *)

Section appends_and_reads.
Context `{Codec} `{!CodecLaws}.

(** X8. An append that returns no error returns the [nextOffset] of the last
    segment; afterwards [HighestOffset] is the offset returned and
    [LowestOffset] is what it was. *)
Theorem Append_moves_HighestOffset dir c l d r l' d' r' off :
  is_u64 (InitialOffset (Segment c)) ->
  reachable dir c (l, d) -> within_limits l r ->
  Log.Append l r d = (l', d', r', (off, Ok tt)) ->
  Segment.nextOffset <$> last (Log.segments l) = Some off /\
  Log.HighestOffset l' = Ok off /\
  Log.LowestOffset l' = Log.LowestOffset l.
Proof.
  intros Hio Hreach Hlim Happ.
  destruct (reachable_log_ok _ _ _ _ Hio Hreach) as (cs & Hok).
  destruct (Append_offsets _ _ _ _ _ _ _ _ Hok Hlim Happ)
    as (Hge & Hlt & Hl & Hl' & Hh).
  split; [by rewrite <- fmap_last|]. split.
  - rewrite HighestOffset_last, Hl'.
    destruct (Z.eqb_spec (off + 1) 0); [lia|].
    rewrite u64_id by lia. f_equal. lia.
  - by rewrite !LowestOffset_head, Hh.
Qed.


(** A read leaves the records and the answers of the log as they are. *)
Lemma Read_same l d cs off l' d' res :
  log_ok l d cs ->
  Log.Read l off d = (l', d', res) ->
  log_ok l' d' cs /\
  Log.LowestOffset l' = Log.LowestOffset l /\
  Log.HighestOffset l' = Log.HighestOffset l /\
  forall off2, (Log.Read l' off2 d').2 = (Log.Read l off2 d).2.
Proof.
  intros Hok Hread.
  destruct (log_ok_Read _ _ _ _ _ _ _ Hok Hread) as (Hok' & _).
  destruct (Read_in_detail _ _ _ _ _ _ Hread) as (_ & _ & _ & Hall).
  split; [done|].
  eapply same_answers; [done..| |].
  - unfold bases. apply list_eq. intros i. rewrite !list_lookup_fmap.
    destruct (Log.segments l' !! i) as [s'|] eqn:Hs'.
    + destruct (Forall2_lookup_r _ _ _ _ _ Hall Hs') as (s & -> & Hb & _).
      simpl. by rewrite Hb.
    + apply lookup_ge_None in Hs'. rewrite <- (Forall2_length _ _ _ Hall) in Hs'.
      apply lookup_ge_None in Hs'. by rewrite Hs'.
  - apply list_eq. intros i. rewrite !list_lookup_fmap.
    destruct (Log.segments l' !! i) as [s'|] eqn:Hs'.
    + destruct (Forall2_lookup_r _ _ _ _ _ Hall Hs') as (s & -> & _ & Hn & _).
      simpl. by rewrite Hn.
    + apply lookup_ge_None in Hs'. rewrite <- (Forall2_length _ _ _ Hall) in Hs'.
      apply lookup_ge_None in Hs'. by rewrite Hs'.
Qed.

(** X10. A read changes no answer of the log: the offsets and the result of
    every later read are what they were before, although the read has
    written the buffered records of a store to its file. *)
Theorem Read_changes_no_answer dir c l d off l' d' res :
  is_u64 (InitialOffset (Segment c)) ->
  reachable dir c (l, d) ->
  Log.Read l off d = (l', d', res) ->
  Log.LowestOffset l' = Log.LowestOffset l /\
  Log.HighestOffset l' = Log.HighestOffset l /\
  forall off2, (Log.Read l' off2 d').2 = (Log.Read l off2 d).2.
Proof.
  intros Hio Hreach Hread.
  destruct (reachable_log_ok _ _ _ _ Hio Hreach) as (cs & Hok).
  by destruct (Read_same _ _ _ _ _ _ _ Hok Hread) as (_ & Hrest).
Qed.


End appends_and_reads.

Lemma reachable_pair `{Codec} dir c (w : Log.Log * directory) :
  reachable dir c w -> reachable dir c (w.1, w.2).
Proof. by destruct w. Qed.

Lemma steps_pair `{Codec} os (w w' : Log.Log * directory) :
  steps os w w' -> steps os (w.1, w.2) (w'.1, w'.2).
Proof. by destruct w, w'. Qed.

Lemma Append_moves_HighestOffset_witness :
  Segment.nextOffset <$> last (Log.segments three_appends.1) = Some 3 /\
  Log.HighestOffset fourth_append.1 = Ok 3 /\
  Log.LowestOffset fourth_append.1 = Log.LowestOffset three_appends.1.
Proof.
  apply (Append_moves_HighestOffset "data" (caps 1024 36 0)
           three_appends.1 three_appends.2 (payload "x")
           fourth_append.1 fourth_append.2
           (Log.Append three_appends.1 (payload "x") three_appends.2).1.2 3).
  - unfold is_u64. simpl. lia.
  - apply reachable_pair. unfold three_appends.
    apply reachable_runs; vm_compute; reflexivity.
  - apply within_limitsb_sound. vm_compute. reflexivity.
  - vm_compute. reflexivity.
Defined.


Lemma Read_changes_no_answer_witness :
  Log.LowestOffset (Log.Read two_segments.1 2 two_segments.2).1.1
  = Log.LowestOffset two_segments.1 /\
  Log.HighestOffset (Log.Read two_segments.1 2 two_segments.2).1.1
  = Log.HighestOffset two_segments.1 /\
  forall off2,
    (Log.Read (Log.Read two_segments.1 2 two_segments.2).1.1 off2
       (Log.Read two_segments.1 2 two_segments.2).1.2).2
    = (Log.Read two_segments.1 off2 two_segments.2).2.
Proof.
  apply (Read_changes_no_answer "data" (caps 1024 36 0)
           two_segments.1 two_segments.2 2
           (Log.Read two_segments.1 2 two_segments.2).1.1
           (Log.Read two_segments.1 2 two_segments.2).1.2
           (Log.Read two_segments.1 2 two_segments.2).2).
  - unfold is_u64. simpl. lia.
  - apply reachable_pair. unfold two_segments.
    apply reachable_runs; vm_compute; reflexivity.
  - by destruct (Log.Read two_segments.1 2 two_segments.2) as [[? ?] ?].
Defined.


(** ** What a truncation removes and what it keeps *)

Section truncations.
Context `{Codec} `{!CodecLaws}.

(** [Truncate] in the states of a run: the first [n] segments are removed
    with their files. *)
Lemma Truncate_in_detail l d cs lowest l' d' :
  log_ok l d cs -> Log.Truncate l lowest d = (l', d', Ok tt) ->
  exists n,
    (n < length (Log.segments l))%nat /\
    Log.segments l' = drop n (Log.segments l) /\
    log_ok l' d' (drop n cs) /\
    (forall s, s ∈ drop n (Log.segments l) -> lowest < Segment.nextOffset s) /\
    (forall s, s ∈ take n (Log.segments l) ->
       Segment.nextOffset s <= lowest /\
       forall name, file_of name s -> d' !! name = None) /\
    (forall name, (forall s, s ∈ take n (Log.segments l) -> ~ file_of name s) ->
       d' !! name = d !! name).
Proof.
  intros Hok Htr.
  destruct (Truncate_loop_removes lowest _ _ d (lo_segs _ _ _ Hok) (lo_packed _ _ _ Hok))
    as (n & all & d1 & Hloop & Hkeep & Hgone).
  pose proof (Truncate_loop_filter _ _ _ _ _ _ Hloop) as Hfilter.
  destruct (log_ok_Truncate _ _ _ _ _ _ _ Hok Htr) as (_ & Hn').
  destruct (Hn' eq_refl) as (n' & Hok' & Hsegs').
  unfold Log.Truncate in Htr. rewrite Hloop in Htr.
  destruct (drop n (Log.segments l)) as [|k0 kept] eqn:Hdrop; [done|].
  injection Htr as <- <-. simpl in Hsegs'.
  assert (n < length (Log.segments l))%nat as Hlt.
  { apply (f_equal length) in Hdrop. rewrite length_drop in Hdrop.
    simpl in Hdrop. lia. }
  assert (n' = n) as ->.
  { apply (f_equal length) in Hsegs'. rewrite length_drop in Hsegs'.
    apply (f_equal length) in Hdrop. rewrite length_drop in Hdrop.
    simpl in *. lia. }
  rewrite <- Hdrop in *.
  exists n. split_and!; try done.
  - intros s Hs. rewrite Hfilter in Hs. by apply list_elem_of_filter in Hs as [? _].
  - intros s Hs. split; [|intros name Hname; by eapply Hgone].
    destruct (Z.le_gt_cases (Segment.nextOffset s) lowest) as [|Hgt]; [done|].
    apply elem_of_take in Hs as (i & Hi & Hin).
    assert (s ∈ drop n (Log.segments l)) as [j Hj]%list_elem_of_lookup.
    { rewrite Hfilter. apply list_elem_of_filter. split; [lia|].
      by eapply list_elem_of_lookup_2. }
    rewrite lookup_drop in Hj.
    destruct (packed_lt _ _ _ (lo_packed _ _ _ Hok) (lo_segs _ _ _ Hok)
                (n + j)%nat i s s); [lia|done..|lia].
Qed.

Lemma holds_drop l l' cs n off rec :
  Log.segments l' = drop n (Log.segments l) ->
  holds l' (drop n cs) off rec -> holds l cs off rec.
Proof.
  intros Hsegs (k & s & recs & j & Hk & Hcs & Hj & ->).
  rewrite Hsegs, lookup_drop in Hk. rewrite lookup_drop in Hcs.
  by exists (n + k)%nat, s, recs, j.
Qed.

(** X12. After a truncation that returns, the reads at and above [lowest] give
    what they gave before, no read gives a record it did not give before,
    and [HighestOffset] is what it was; every offset of a removed segment is
    out of range and the two files of the segment are gone. *)
Theorem Truncate_and_reads dir c l d lowest l' d' :
  is_u64 (InitialOffset (Segment c)) ->
  reachable dir c (l, d) ->
  Log.Truncate l lowest d = (l', d', Ok tt) ->
  Log.HighestOffset l' = Log.HighestOffset l /\
  (forall off, lowest <= off ->
     (Log.Read l' off d').2 = (Log.Read l off d).2) /\
  (forall off rec, (Log.Read l' off d').2 = Ok rec ->
     (Log.Read l off d).2 = Ok rec) /\
  (forall s, s ∈ Log.segments l -> Segment.nextOffset s <= lowest ->
     (forall off, Log.covers off s ->
        (Log.Read l' off d').2 = Err (ErrOffsetOutOfRange off)) /\
     d' !! Segment.fileName (Segment.baseOffset s) ".store" = None /\
     d' !! Segment.fileName (Segment.baseOffset s) ".index" = None).
Proof.
  intros Hio Hreach Htr.
  destruct (reachable_log_ok _ _ _ _ Hio Hreach) as (cs & Hok).
  destruct (Truncate_in_detail _ _ _ _ _ _ Hok Htr)
    as (n & Hn & Hsegs & Hok' & Hkept & Hgone & Hframe).
  assert (forall s, s ∈ Log.segments l' -> s ∈ Log.segments l) as Hsub.
  { intros s Hs. rewrite Hsegs in Hs. rewrite <- (take_drop n (Log.segments l)).
    apply elem_of_app. by right. }
  split_and!.
  - assert (last (drop n (Log.segments l)) = last (Log.segments l)) as Hlast.
    { rewrite !last_lookup, lookup_drop, length_drop. f_equal. lia. }
    by rewrite !HighestOffset_last, !fmap_last, Hsegs, Hlast.
  - intros off Hoff.
    destruct (Read_answer l d cs off Hok) as [(rec & Hrec & ->)|[Hno ->]].
    + pose proof (holds_Truncate _ _ _ _ _ _ n _ _ Hok Htr Hsegs Hoff Hrec) as Hrec'.
      destruct (Log.Read l' off d') as [[l2 d2] res] eqn:Hread.
      destruct (log_ok_Read _ _ _ _ _ _ _ Hok' Hread) as (_ & _ & Hheld & _).
      simpl. by apply Hheld.
    + destruct (Read_answer l' d' _ off Hok') as [(rec' & Hrec' & _)|[_ ->]]; [|done].
      destruct (holds_covers _ _ _ _ _ Hok' Hrec')
        as (k1 & s1 & rs1 & j1 & Hk1 & _ & _ & _ & _ & Hcov1).
      destruct (Hno s1); [|done]. apply Hsub. by eapply list_elem_of_lookup_2.
  - intros off rec Hread'.
    destruct (Read_answer l' d' _ off Hok') as [(rec' & Hrec' & Heq)|[_ Heq]];
      rewrite Heq in Hread'; [|done].
    injection Hread' as ->.
    pose proof (holds_drop _ _ _ _ _ _ Hsegs Hrec') as Hrec.
    destruct (Log.Read l off d) as [[l2 d2] res] eqn:Hread.
    destruct (log_ok_Read _ _ _ _ _ _ _ Hok Hread) as (_ & _ & Hheld & _).
    simpl. by apply Hheld.
  - intros s Hs Hlow.
    assert (s ∈ take n (Log.segments l)) as Htake.
    { rewrite <- (take_drop n (Log.segments l)) in Hs.
      apply elem_of_app in Hs as [|Hd]; [done|].
      specialize (Hkept _ Hd). lia. }
    destruct (Hgone _ Htake) as [_ Hfiles].
    split_and!; [|apply Hfiles; by left|apply Hfiles; by right].
    intros off Hcov.
    destruct (Read_answer l' d' _ off Hok') as [(rec' & Hrec' & _)|[_ ->]]; [|done].
    destruct (holds_covers _ _ _ _ _ Hok' Hrec')
      as (k1 & s1 & rs1 & j1 & Hk1 & _ & _ & _ & _ & Hcov1).
    apply list_elem_of_lookup in Hs as [i Hi].
    pose proof Hk1 as Hk1'. rewrite Hsegs, lookup_drop in Hk1'.
    assert (i = (n + k1)%nat) as ->
      by (by apply (covers_unique l d cs off i s (n + k1)%nat s1 Hok)).
    assert (s1 = s) as -> by congruence.
    assert (lowest < Segment.nextOffset s); [|lia].
    apply Hkept. apply list_elem_of_lookup. exists k1. by rewrite lookup_drop.
Qed.

End truncations.

Lemma Truncate_and_reads_witness :
  Log.HighestOffset (Log.Truncate two_segments.1 3 two_segments.2).1.1
  = Log.HighestOffset two_segments.1 /\
  (forall off, 3 <= off ->
     (Log.Read (Log.Truncate two_segments.1 3 two_segments.2).1.1 off
        (Log.Truncate two_segments.1 3 two_segments.2).1.2).2
     = (Log.Read two_segments.1 off two_segments.2).2) /\
  (forall off rec,
     (Log.Read (Log.Truncate two_segments.1 3 two_segments.2).1.1 off
        (Log.Truncate two_segments.1 3 two_segments.2).1.2).2 = Ok rec ->
     (Log.Read two_segments.1 off two_segments.2).2 = Ok rec) /\
  (forall s, s ∈ Log.segments two_segments.1 -> Segment.nextOffset s <= 3 ->
     (forall off, Log.covers off s ->
        (Log.Read (Log.Truncate two_segments.1 3 two_segments.2).1.1 off
           (Log.Truncate two_segments.1 3 two_segments.2).1.2).2
        = Err (ErrOffsetOutOfRange off)) /\
     (Log.Truncate two_segments.1 3 two_segments.2).1.2
       !! Segment.fileName (Segment.baseOffset s) ".store" = None /\
     (Log.Truncate two_segments.1 3 two_segments.2).1.2
       !! Segment.fileName (Segment.baseOffset s) ".index" = None).
Proof.
  apply (Truncate_and_reads "data" (caps 1024 36 0)
           two_segments.1 two_segments.2 3
           (Log.Truncate two_segments.1 3 two_segments.2).1.1
           (Log.Truncate two_segments.1 3 two_segments.2).1.2).
  - unfold is_u64. simpl. lia.
  - apply reachable_pair. unfold two_segments.
    apply reachable_runs; vm_compute; reflexivity.
  - vm_compute. reflexivity.
Defined.

(** ** Offsets along a run *)

Section offsets_along_a_run.
Context `{Codec} `{!CodecLaws}.

Lemma Append_top l d cs r l' d' r' off res :
  log_ok l d cs -> within_limits l r ->
  Log.Append l r d = (l', d', r', (off, res)) ->
  exists t,
    last (Segment.nextOffset <$> Log.segments l) = Some t /\
    last (Segment.nextOffset <$> Log.segments l')
    = Some (match res with Ok _ => t + 1 | _ => t end).
Proof.
  intros Hok Hlim Happ.
  destruct res as [[]|e|].
  - destruct (Append_offsets _ _ _ _ _ _ _ _ Hok Hlim Happ) as (_ & _ & Hl & Hl' & _).
    by exists off.
  - destruct (Append_in_detail _ _ _ _ _ _ _ _ _ Hok Hlim Happ)
      as (a & s & recs & s1 & res1 & Hact & Ha & Hs & _ & _ & _ & _ & _ & Hres).
    destruct res1 as [o|e1|]; [by destruct Hres as (_ & _ & ? & _)| |done].
    destruct Hres as (_ & _ & -> & _ & Hn1 & _).
    pose proof (lo_nonempty _ _ _ Hok) as Hne.
    exists (Segment.nextOffset s). simpl. rewrite !fmap_last. split.
    + rewrite last_lookup.
      replace (pred (length (Log.segments l))) with a by lia. by rewrite Hs.
    + rewrite Ha, last_insert_last by done. simpl. by rewrite Hn1.
  - destruct (Append_in_detail _ _ _ _ _ _ _ _ _ Hok Hlim Happ)
      as (a & s & recs & s1 & res1 & _ & _ & _ & _ & _ & _ & _ & _ & Hres).
    destruct res1 as [o|e1|]; [by destruct Hres as (_ & _ & ? & _)| |done].
    by destruct Hres as (_ & ? & _).
Qed.

(** The [nextOffset] of the last segment never goes down in a run. *)
Lemma steps_top os w w' cs :
  log_ok w.1 w.2 cs -> steps os w w' ->
  exists t t',
    last (Segment.nextOffset <$> Log.segments w.1) = Some t /\
    last (Segment.nextOffset <$> Log.segments w'.1) = Some t' /\ t <= t'.
Proof.
  intros Hok Hsteps. revert cs Hok.
  induction Hsteps as [w|o os [l1 d1] [l2 d2] w3 Hstep Hsteps IH]; intros cs Hok.
  - destruct (last (Segment.nextOffset <$> Log.segments w.1)) as [t|] eqn:Ht.
    + exists t, t. split_and!; [done..|lia].
    + rewrite fmap_last in Ht. destruct (last (Log.segments w.1)) eqn:Hl; [done|].
      apply last_None in Hl. by destruct (lo_nonempty _ _ _ Hok).
  - destruct (step_log_ok _ _ _ _ _ _ Hok Hstep) as (cs1 & Hok1 & _).
    destruct (IH cs1 Hok1) as (t1 & t2 & Ht1 & Ht2 & Hle).
    simpl in *.
    assert (exists t, last (Segment.nextOffset <$> Log.segments l1) = Some t /\ t <= t1)
      as (t & Ht & Hle1); [|exists t, t2; split_and!; [done..|lia]].
    inversion Hstep as
      [? ? r ? ? r' [off res] Hlim Happ|? ? off ? ? res Hread|? ? lowest ? ? Htr]; subst.
    + destruct (Append_top _ _ _ _ _ _ _ _ _ Hok Hlim Happ) as (t & Ht & Ht').
      exists t. split; [done|]. rewrite Ht' in Ht1.
      destruct res; simplify_eq; lia.
    + destruct (Read_in_detail _ _ _ _ _ _ Hread) as (_ & _ & _ & Hall).
      exists t1. split; [|lia]. rewrite <- Ht1, !fmap_last, !last_lookup.
      rewrite (Forall2_length _ _ _ Hall).
      destruct (Log.segments l2 !! pred (length (Log.segments l2))) as [s'|] eqn:Hs'.
      * destruct (Forall2_lookup_r _ _ _ _ _ Hall Hs') as (s & -> & _ & Hn & _).
        simpl. by rewrite Hn.
      * apply lookup_ge_None in Hs'. rewrite <- (Forall2_length _ _ _ Hall) in Hs'.
        apply lookup_ge_None in Hs'.
        by rewrite (Forall2_length _ _ _ Hall) in Hs'; rewrite Hs'.
    + destruct (Truncate_in_detail _ _ _ _ _ _ Hok Htr) as (n & Hn & Hsegs & _).
      exists t1. split; [|lia]. rewrite <- Ht1, !fmap_last, Hsegs.
      f_equal. rewrite !last_lookup, lookup_drop, length_drop. f_equal. lia.
Qed.

(** X13. Offsets are never given twice: of two appends of a run that return no
    error, the later one returns the higher offset, whatever appends, reads
    and truncations lie between them. *)
Theorem offsets_increase dir c l d r1 l1 d1 r1' off1 os l2 d2 r2 l3 d3 r2' off2 :
  is_u64 (InitialOffset (Segment c)) ->
  reachable dir c (l, d) -> within_limits l r1 ->
  Log.Append l r1 d = (l1, d1, r1', (off1, Ok tt)) ->
  steps os (l1, d1) (l2, d2) ->
  within_limits l2 r2 ->
  Log.Append l2 r2 d2 = (l3, d3, r2', (off2, Ok tt)) ->
  off1 < off2.
Proof.
  intros Hio Hreach Hlim1 Happ1 Hsteps Hlim2 Happ2.
  destruct (reachable_log_ok _ _ _ _ Hio Hreach) as (cs & Hok).
  destruct (log_ok_Append _ _ _ _ _ _ _ _ _ Hok Hlim1 Happ1) as (cs1 & Hok1 & _).
  destruct (Append_offsets _ _ _ _ _ _ _ _ Hok Hlim1 Happ1) as (_ & _ & _ & Ht1 & _).
  destruct (steps_log_ok os (l1, d1) (l2, d2) cs1 Hok1 Hsteps) as (cs2 & Hok2 & _).
  destruct (steps_top os (l1, d1) (l2, d2) cs1 Hok1 Hsteps) as (t & t' & Ht & Ht' & Hle).
  destruct (Append_offsets _ _ _ _ _ _ _ _ Hok2 Hlim2 Happ2) as (_ & _ & Ht2 & _).
  simpl in *. simplify_eq. lia.
Qed.


End offsets_along_a_run.

(** ** A log on an empty directory *)

Section empty_directory.
Context `{Codec}.

(** X15. The appends that return no error to a log made on an empty directory
    return the offsets that start at [InitialOffset]. *)
Theorem offsets_from_InitialOffset dir c rs l0 d0 l d outs :
  is_u64 (InitialOffset (Segment c)) ->
  Log.NewLog dir c ∅ = (l0, d0, Ok tt) ->
  InitialOffset (Segment c) + Z.of_nat (length rs) < 2 ^ 64 ->
  appends l0 d0 rs = (l, d, outs) ->
  Forall (fun out => out.2 = Ok tt) outs ->
  outs.*1 = seqZ (InitialOffset (Segment c)) (Z.of_nat (length rs)).
Proof.
  intros Hio Hnew Hn Hrun Hall.
  eapply appends_offsets; [|exact Hn|exact Hrun|exact Hall].
  by eapply ends_at_NewLog.
Qed.

End empty_directory.

(** X16. On an empty directory [NewLog] makes one segment at [InitialOffset] and
    its two files, the store file empty and the index file of
    [MaxIndexBytes] zero bytes, 1024 when the configuration says 0. With a
    cap of [1 << 63] or more, which is negative as the [int64] that
    [os.Truncate] takes, it returns the error of the system call and leaves
    the two files empty and the log without a segment. *)
Theorem NewLog_on_empty_directory dir c :
  let c' := Log.defaults c in
  let k := InitialOffset (Segment c) in
  let M := i64 (MaxIndexBytes (Segment c')) in
  (0 < M ->
   Log.NewLog dir c ∅
   = (Log.mkLog dir c' (Some 0%nat) [fresh_segment k c'],
      <[Segment.fileName k ".index" := replicate (Z.to_nat M) x00]>
        (<[Segment.fileName k ".store" := []]> ∅),
      Ok tt)) /\
  (M < 0 ->
   Log.NewLog dir c ∅
   = (Log.mkLog dir c' None [],
      <[Segment.fileName k ".index" := []]>
        (<[Segment.fileName k ".store" := []]> ∅),
      Err ErrInvalid)).
Proof.
  intros c' k M.
  pose proof (fileName_store_index k) as Hdiff.
  assert (InitialOffset (Segment c') = k) as Hk by apply defaults_InitialOffset.
  unfold Log.NewLog. change (Log.defaults c) with c'. clearbody c'.
  unfold Log.setup. rewrite os_ReadDir_empty. simpl.
  unfold Log.newSegment. simpl. rewrite Hk.
  unfold Segment.newSegment, os_OpenFile. rewrite lookup_empty.
  unfold Store.newStore, os_Stat. rewrite lookup_insert_eq. simpl.
  rewrite lookup_insert_ne, lookup_empty by done.
  split; intros HM.
  - rewrite (newIndex_extends _ _ c' []);
      [|by rewrite lookup_insert_eq|done|fold M; simpl; lia].
    simpl. rewrite Nat.sub_0_r, insert_insert_eq.
    unfold fresh_segment. by rewrite (u64_id (Z.of_nat 0)) by (simpl; lia).
  - unfold Index.newIndex, os_Stat, os_Truncate. rewrite lookup_insert_eq.
    fold M. by destruct (Z.ltb_spec M 0); [|lia].
Qed.

Lemma offsets_increase_witness : 3 < 5.
Proof.
  apply (offsets_increase "data" (caps 1024 36 0)
           three_appends.1 three_appends.2 (payload "x")
           fourth_append.1 fourth_append.2
           (Log.Append three_appends.1 (payload "x") three_appends.2).1.2 3
           [OpAppend (payload "y"); OpTruncate 3; OpRead 4]
           later_on.1 later_on.2 (payload "z")
           (Log.Append later_on.1 (payload "z") later_on.2).1.1.1
           (Log.Append later_on.1 (payload "z") later_on.2).1.1.2
           (Log.Append later_on.1 (payload "z") later_on.2).1.2 5).
  - unfold is_u64. simpl. lia.
  - apply reachable_pair. unfold three_appends.
    apply reachable_runs; vm_compute; reflexivity.
  - apply within_limitsb_sound. vm_compute. reflexivity.
  - vm_compute. reflexivity.
  - apply steps_pair. unfold later_on, fourth_append, three_appends.
    apply steps_runs. vm_compute. reflexivity.
  - apply within_limitsb_sound. vm_compute. reflexivity.
  - vm_compute. reflexivity.
Defined.


Lemma offsets_from_InitialOffset_witness :
  from_5.2.*1 = seqZ 5 (Z.of_nat (length four_payloads)).
Proof.
  apply (offsets_from_InitialOffset "data" (caps 1024 36 5) four_payloads
           (Log.NewLog "data" (caps 1024 36 5) ∅).1.1
           (Log.NewLog "data" (caps 1024 36 5) ∅).1.2
           from_5.1.1 from_5.1.2).
  - unfold is_u64. simpl. lia.
  - vm_compute. reflexivity.
  - vm_compute. reflexivity.
  - unfold from_5. by destruct (appends _ _ _) as [[? ?] ?].
  - vm_compute. repeat constructor.
Defined.

Lemma NewLog_on_empty_directory_witness :
  Log.NewLog "data" (caps 0 0 7) ∅
  = (Log.mkLog "data" (caps 1024 1024 7) (Some 0%nat)
       [fresh_segment 7 (caps 1024 1024 7)],
     <[Segment.fileName 7 ".index" := replicate 1024 x00]>
       (<[Segment.fileName 7 ".store" := []]> ∅),
     Ok tt) /\
  Log.NewLog "data" (caps 1024 (2 ^ 63) 7) ∅
  = (Log.mkLog "data" (caps 1024 (2 ^ 63) 7) None [],
     <[Segment.fileName 7 ".index" := []]>
       (<[Segment.fileName 7 ".store" := []]> ∅),
     Err ErrInvalid).
Proof.
  destruct (NewLog_on_empty_directory "data" (caps 0 0 7)) as [Hok _].
  destruct (NewLog_on_empty_directory "data" (caps 1024 (2 ^ 63) 7)) as [_ Herr].
  split.
  - apply Hok. vm_compute. reflexivity.
  - apply Herr. vm_compute. reflexivity.
Defined.

(** ** Numbered entries and mappings along a run *)

Lemma index_ok_unique ix e1 e2 : index_ok ix e1 -> index_ok ix e2 -> e1 = e2.
Proof.
  intros [Hs1 _ _ He1] [Hs2 _ _ He2].
  apply list_eq_same_length with (length e1); [lia|lia|].
  intros j x y _ Hx Hy.
  specialize (He1 _ _ Hx). specialize (He2 _ _ Hy). congruence.
Qed.

Lemma Index_Write_outcome ix o p ix' r :
  Index.Write ix o p = (ix', r) ->
  match r with
  | Ok _ => True
  | _ => ix' = ix
  end.
Proof.
  unfold Index.Write. repeat case_match; intros; by simplify_eq.
Qed.

Lemma Index_Write_length ix ents o p ix' r :
  index_ok ix ents -> Index.Write ix o p = (ix', r) ->
  length (Index.mmap ix') = length (Index.mmap ix).
Proof.
  intros [Hsize Hfit Hlen Hents]. unfold Index.Write, Index.entWidth,
    Index.offWidth, Index.posWidth. change (4 + 8) with 12.
  rewrite u64_id by lia.
  destruct (Z.ltb_spec (Z.of_nat (length (Index.mmap ix))) (Index.size ix + 12));
    [by intros [= <- _]|].
  intros [= <- _]. simpl. unfold copy_at.
  rewrite length_copy_at; rewrite ?length_copy_at; rewrite ?length_be_put; lia.
Qed.

Lemma numbered_fresh b c : numbered (fresh_segment b c).
Proof.
  intros ents [Hsize _ _ _] j e He. simpl in Hsize.
  destruct ents; [done|simpl in Hsize; lia].
Qed.

Lemma mapped_fresh b c :
  0 < i64 (MaxIndexBytes (Segment c)) -> mapped c (fresh_segment b c).
Proof. intros. unfold mapped. simpl. rewrite length_replicate. lia. Qed.

Section ext.
Context `{Codec} `{!CodecLaws}.

Lemma Segment_Append_ext d s recs r s1 r' res c :
  seg_ok d s recs -> append_fits s r ->
  Segment.Append s r = (s1, r', res) ->
  numbered s -> mapped c s ->
  numbered s1 /\ mapped c s1.
Proof.
  intros Hok Hfits Hsa Hnum Hmap.
  pose proof Hok as [Hsn Hin Hif Hb Hn Hbd Hcnt Hoffs (data & ents & Hst & Hix & Hall)].
  pose proof (Forall2_length _ _ _ Hall) as Hlen.
  destruct Hfits as (Hf1 & Hf2 & Hp).
  unfold Segment.Append in Hsa.
  destruct (marshal _) as [p|] eqn:Hm; [|by simplify_eq].
  destruct (Hp p eq_refl) as [_ Hsz].
  destruct (Store_Append_rep _ _ _ p Hst Hsz) as (st' & Hsapp & _).
  rewrite Hsapp in Hsa.
  assert (u32 (u64 (Segment.nextOffset s - Segment.baseOffset s))
          = Z.of_nat (length recs)) as Hrelv.
  { rewrite u64_id, u32_id by lia. lia. }
  rewrite Hrelv in Hsa.
  destruct (Index.Write _ _ _) as [ix' rw] eqn:Hw.
  pose proof (Index_Write_length _ _ _ _ _ _ Hix Hw) as Hl.
  pose proof (Index_Write_outcome _ _ _ _ _ Hw) as Hout.
  destruct rw as [[]|e|]; simplify_eq;
    [|split; [exact Hnum|exact Hmap]..].
  unfold mapped. simpl.
  split; [|by rewrite Hl].
  destruct (decide (Index.size (Segment.index s) + 12
                    <= Z.of_nat (length (Index.mmap (Segment.index s))))) as [Hroom|Hfull].
  2:{ rewrite (Index_Write_full _ ents) in Hw by (done || lia). done. }
  destruct (Index_Write_room _ _ (Z.of_nat (length recs)) (Store.size (Segment.store s))
              Hix) as (ix2 & Hw2 & Hix2 & _); [lia| |done|].
  { destruct Hst. lia. }
  rewrite Hw in Hw2. injection Hw2 as <-.
  intros ents' Hents' j e He. simpl in Hents'.
  rewrite (index_ok_unique _ _ _ Hents' Hix2) in He.
  apply lookup_app_Some in He as [He|[Hge He]].
  - by eapply (Hnum ents).
  - apply list_lookup_singleton_Some in He as [Hj <-]. simpl. lia.
Qed.

Lemma Forall_insert_2 {A} (P : A -> Prop) (l : list A) i x :
  Forall P l -> P x -> Forall P (<[i := x]> l).
Proof.
  intros Hall Hx. apply Forall_lookup. intros j y Hy.
  destruct (decide (j = i)) as [->|Hne].
  - destruct (decide (i < length l)%nat).
    + rewrite list_lookup_insert_eq in Hy by done. by simplify_eq.
    + rewrite list_insert_ge in Hy by lia.
      by eapply (Forall_lookup_1 P l).
  - rewrite list_lookup_insert_ne in Hy by done.
    by eapply (Forall_lookup_1 P l).
Qed.

Lemma step_log_ext dir c o l d cs l' d' :
  log_ok l d cs -> log_ext dir c l -> step o (l, d) (l', d') ->
  log_ext dir c l'.
Proof.
  intros Hok [Hdir Hcfg Hnum Hmap] Hstep.
  inversion Hstep as
    [? ? r ? ? r' [off res] Hlim Happ|? ? off ? ? res Hread|? ? lowest ? ? Htr]; subst.
  - destruct (Append_in_detail _ _ _ _ _ _ _ _ _ Hok Hlim Happ)
      as (a & s & recs & s1 & res1 & Hact & Ha & Hs & Hrecs & Hsok & Hfits & Hsa & Hb & Hres).
    destruct (Segment_Append_ext _ _ _ _ _ _ _ (Log.defaults c) Hsok Hfits Hsa)
      as [Hnum1 Hmap1].
    { by eapply (Forall_lookup_1 numbered). }
    { by eapply (Forall_lookup_1 (mapped _)). }
    pose proof (Forall_insert_2 _ _ a _ Hnum Hnum1) as HnumI.
    pose proof (Forall_insert_2 _ _ a _ Hmap Hmap1) as HmapI.
    assert (log_ext (Log.Dir l) c
              (Log.set_segments l (<[a := s1]> (Log.segments l)))) as Hext1
      by (by split).
    destruct res1 as [o|e|]; [| |done].
    + destruct Hres as (_ & _ & _ & _ & _ & Hroll).
      destruct (Segment.IsMaxed s1).
      * destruct Hroll as (Hnew & Hsegs & _).
        unfold Log.newSegment in Hnew.
        destruct (Segment.newSegment _ _ _) as [d2 [s2| |]]; simplify_eq.
        simpl in *. split; simpl; try done.
        -- rewrite Hsegs. apply Forall_app. split; [done|].
           constructor; [|done]. apply numbered_fresh.
        -- rewrite Hsegs. apply Forall_app. split; [done|].
           constructor; [|done]. rewrite Hcfg. apply mapped_fresh.
           rewrite <- Hcfg. apply (lo_config _ _ _ Hok).
      * by destruct Hroll as [-> _].
    + by destruct Hres as (_ & _ & -> & _).
  - destruct (Read_in_detail _ _ _ _ _ _ Hread) as (Hd & Hc & _ & Hall).
    split.
    + by rewrite Hd.
    + by rewrite Hc.
    + apply Forall_lookup. intros i s' Hs'.
      destruct (Forall2_lookup_r _ _ _ _ _ Hall Hs') as (s & Hs & _ & _ & Hix & _).
      pose proof (Forall_lookup_1 _ _ _ _ Hnum Hs) as Hn.
      unfold numbered in *. by rewrite Hix.
    + apply Forall_lookup. intros i s' Hs'.
      destruct (Forall2_lookup_r _ _ _ _ _ Hall Hs') as (s & Hs & _ & _ & Hix & _).
      pose proof (Forall_lookup_1 _ _ _ _ Hmap Hs) as Hn.
      unfold mapped in *. by rewrite Hix.
  - destruct (Truncate_in_detail _ _ _ _ _ _ Hok Htr) as (n & _ & Hsegs & _).
    unfold Log.Truncate in Htr.
    repeat case_match; simplify_eq; simpl in *.
    split; simpl; try done; rewrite Hsegs; by apply Forall_drop.
Qed.

Lemma steps_log_ext dir c os w w' cs :
  log_ok w.1 w.2 cs -> log_ext dir c w.1 -> steps os w w' ->
  log_ext dir c w'.1.
Proof.
  intros Hok Hext Hsteps. revert cs Hok Hext.
  induction Hsteps as [w|o os [l1 d1] [l2 d2] w3 Hstep Hsteps IH];
    intros cs Hok Hext; [done|].
  destruct (step_log_ok _ _ _ _ _ _ Hok Hstep) as (cs1 & Hok1 & _).
  eapply IH; [exact Hok1|]. exact (step_log_ext dir c o l1 d1 cs l2 d2 Hok Hext Hstep).
Qed.

(** The states of a run keep [log_ok] and [log_ext]. *)
Lemma reachable_ext dir c l d :
  is_u64 (InitialOffset (Segment c)) ->
  reachable dir c (l, d) ->
  exists cs, log_ok l d cs /\ log_ext dir c l.
Proof.
  intros Hio (l0 & d0 & os & Hnew & Hsteps).
  pose proof (log_ok_NewLog _ _ _ _ Hio Hnew) as Hok0.
  destruct (steps_log_ok os (l0, d0) (l, d) _ Hok0 Hsteps) as (cs & Hok & _).
  exists cs. split; [done|].
  apply (steps_log_ext dir c os (l0, d0) (l, d) _ Hok0); [|done].
  apply NewLog_empty in Hnew as (-> & Hc & _).
  split; simpl; try done.
  - constructor; [|done]. apply numbered_fresh.
  - constructor; [|done]. by apply mapped_fresh.
Qed.

End ext.

(** ** Closing a segment and a log *)

Section closing.
Context `{Codec} `{!CodecLaws}.

Lemma closed_seg_frame d d' b recs :
  closed_seg d b recs ->
  d' !! Segment.fileName b ".store" = d !! Segment.fileName b ".store" ->
  d' !! Segment.fileName b ".index" = d !! Segment.fileName b ".index" ->
  closed_seg d' b recs.
Proof.
  intros [? ? ? ? (data & c & ents & ? & ? & ? & ?)] Hs Hi.
  split; try done. exists data, c, ents. by rewrite Hs, Hi.
Qed.

(** [Close] of a segment leaves its records in its two files. *)
Lemma Segment_Close_rep d s recs :
  seg_ok d s recs -> numbered s ->
  exists s' d',
    Segment.Close s d = (s', d', Ok tt) /\
    closed_seg d' (Segment.baseOffset s) recs /\
    d' !! Segment.fileName (Segment.baseOffset s) ".index"
    = Some (take (Z.to_nat (Index.size (Segment.index s)))
              (Index.mmap (Segment.index s))) /\
    Index.size (Segment.index s) = 12 * Z.of_nat (length recs) /\
    (length <$> d' !! Segment.fileName (Segment.baseOffset s) ".store")
    = Some (Z.to_nat (Store.size (Segment.store s))) /\
    d' !! Segment.fileName (Segment.baseOffset s) ".store"
    = store_bytes d (Segment.store s) /\
    (forall name, ~ file_of name s -> d' !! name = d !! name) /\
    (forall name, is_Some (d' !! name) <-> is_Some (d !! name)).
Proof.
  intros Hok Hnum.
  pose proof Hok as [Hsn Hin Hif Hb Hn Hbd Hcnt Hoffs (data & ents & Hst & Hix & Hall)].
  pose proof (Forall2_length _ _ _ Hall) as Hlen.
  pose proof (fileName_store_index (Segment.baseOffset s)) as Hdiff.
  destruct (Index_Close_rep d _ ents Hix Hif) as [HClose Hfok].
  set (d1 := <[Index.file (Segment.index s)
               := take (Z.to_nat (Index.size (Segment.index s)))
                    (Index.mmap (Segment.index s))]> d) in *.
  assert (store_ok d1 (Segment.store s) data) as Hst1.
  { destruct Hst as [Hwr Herr Hdata Hsize Hbound]. split; try done.
    unfold store_bytes, d1 in *. rewrite lookup_insert_ne; [done|].
    rewrite Hin, Hsn. congruence. }
  destruct (Flush_rep _ _ _ Hst1) as (b & Hflush & _).
  unfold Segment.Close, Store.Close. rewrite HClose, Hflush.
  eexists _, _. split; [done|].
  pose proof (so_size _ _ _ Hst) as Hsz. pose proof (so_bound _ _ _ Hst) as Hbd2.
  assert (forall name, file_of name s <->
            name = Store.File (Segment.store s) \/
            name = Index.file (Segment.index s)) as Hfo.
  { intros name. unfold file_of. by rewrite Hsn, Hin. }
  unfold d1. rewrite Hin, Hsn.
  set (sn := Segment.fileName (Segment.baseOffset s) ".store") in *.
  set (xn := Segment.fileName (Segment.baseOffset s) ".index") in *.
  assert (<[sn := data]> (<[xn := take (Z.to_nat (Index.size (Segment.index s)))
                                   (Index.mmap (Segment.index s))]> d) !! xn
          = Some (take (Z.to_nat (Index.size (Segment.index s)))
                    (Index.mmap (Segment.index s)))) as Hxl.
  { rewrite lookup_insert_ne by done. by rewrite lookup_insert_eq. }
  split_and!.
  - split; try done; try lia.
    exists data, (take (Z.to_nat (Index.size (Segment.index s)))
                    (Index.mmap (Segment.index s))), ents.
    split_and!; try done.
    + by rewrite lookup_insert_eq.
    + lia.
    + by apply (Hnum ents).
  - done.
  - rewrite (io_size _ _ Hix). lia.
  - rewrite lookup_insert_eq. simpl. f_equal. lia.
  - rewrite lookup_insert_eq. symmetry. apply (so_data _ _ _ Hst).
  - intros name Hno.
    rewrite !lookup_insert_ne; [done| |].
    + intros <-. apply Hno. by right.
    + intros <-. apply Hno. by left.
  - intros name.
    destruct (decide (name = sn)) as [Heq|Hn1].
    { rewrite Heq, lookup_insert_eq. split; [|by eexists].
      intros _. rewrite <- Hsn. by eapply store_ok_File. }
    rewrite lookup_insert_ne by done.
    destruct (decide (name = xn)) as [Heq|Hn2].
    { rewrite Heq, lookup_insert_eq. split; [|by eexists].
      intros _. by rewrite <- Hin. }
    by rewrite lookup_insert_ne.
Qed.

Lemma other_segment_files d ss cs i j si sj name :
  packed ss -> Forall2 (seg_ok d) ss cs ->
  ss !! i = Some si -> ss !! j = Some sj -> i <> j ->
  file_of name si -> ~ file_of name sj.
Proof.
  intros Hpk Hall Hi Hj Hne Hfi Hfj.
  destruct (Forall2_lookup_l _ _ _ _ _ Hall Hi) as (ri & _ & Hoki).
  destruct (Forall2_lookup_l _ _ _ _ _ Hall Hj) as (rj & _ & Hokj).
  pose proof (file_of_base _ _ _ _ _ _ Hoki Hokj Hfi Hfj) as Hb.
  destruct (Nat.lt_total i j) as [Hlt|[Heq|Hgt]]; [|done|].
  - destruct (packed_lt _ _ _ Hpk Hall j i si sj); [done..|lia].
  - destruct (packed_lt _ _ _ Hpk Hall i j sj si); [done..|lia].
Qed.

(** [Close] of a log leaves the records of every segment in its files. *)
Lemma Close_loop_rep ss : forall d cs,
  Forall2 (seg_ok d) ss cs -> packed ss -> Forall numbered ss ->
  exists ss' d',
    Log.Close_loop ss d = (ss', d', Ok tt) /\
    Forall2 (closed_seg d') (bases ss) cs /\
    (forall s, s ∈ ss ->
       d' !! Segment.fileName (Segment.baseOffset s) ".index"
       = Some (take (Z.to_nat (Index.size (Segment.index s)))
                 (Index.mmap (Segment.index s))) /\
       (length <$> d' !! Segment.fileName (Segment.baseOffset s) ".store")
       = Some (Z.to_nat (Store.size (Segment.store s))) /\
       d' !! Segment.fileName (Segment.baseOffset s) ".store"
       = store_bytes d (Segment.store s)) /\
    (forall name, (forall s, s ∈ ss -> ~ file_of name s) ->
       d' !! name = d !! name) /\
    (forall name, is_Some (d' !! name) <-> is_Some (d !! name)).
Proof.
  induction ss as [|s rest IH]; intros d cs Hall Hpk Hnum.
  { apply Forall2_nil_inv_l in Hall as ->. exists [], d. split_and!; try done.
    intros s Hs. by apply elem_of_nil in Hs. }
  destruct cs as [|recs cs']; [by apply Forall2_length in Hall|].
  pose proof Hall as Hall0. apply Forall2_cons in Hall as [Hs Hrest].
  apply Forall_cons in Hnum as [Hns Hnrest].
  destruct (Segment_Close_rep d s recs Hs Hns)
    as (s' & d1 & HClose & Hcl & Hixf & _ & Hstf & Hstc & Hframe1 & Hdom1).
  assert (forall x, x ∈ rest -> forall name, file_of name x -> ~ file_of name s)
    as Hother.
  { intros x [i Hi]%list_elem_of_lookup name Hfx.
    by eapply (other_segment_files d (s :: rest) _ (S i) 0%nat x s). }
  assert (Forall2 (seg_ok d1) rest cs') as Hrest1.
  { apply Forall2_same_length_lookup. split; [by eapply Forall2_length|].
    intros i x y Hx Hy.
    pose proof (Forall2_lookup_lr _ _ _ _ _ _ Hrest Hx Hy) as Hxy.
    pose proof (list_elem_of_lookup_2 _ _ _ Hx) as Hin.
    eapply seg_ok_frame; [exact Hxy| |].
    - apply Hframe1. apply (Hother x Hin). left. apply (sg_store_name _ _ _ Hxy).
    - apply Hdom1. apply (sg_index_file _ _ _ Hxy). }
  destruct (IH d1 cs' Hrest1 (packed_tail _ _ Hpk) Hnrest)
    as (rest' & d2 & Hloop & Hcls & Hfiles & Hframe2 & Hdom2).
  simpl. rewrite HClose, Hloop. eexists _, _. split; [done|].
  assert (forall name, file_of name s -> d2 !! name = d1 !! name) as Hkeep.
  { intros name Hfs. apply Hframe2. intros x Hx Hfx. by apply (Hother x Hx name). }
  split_and!.
  - simpl. constructor; [|done].
    eapply closed_seg_frame; [exact Hcl| |]; apply Hkeep; [by left|by right].
  - intros x [->|Hx]%elem_of_cons.
    + rewrite !Hkeep; [done|by left|by right].
    + destruct (Hfiles x Hx) as (Hxi & Hxl & Hxc). split_and!; try done.
      rewrite Hxc. unfold store_bytes. f_equal.
      apply list_elem_of_lookup in Hx as [i Hi].
      destruct (Forall2_lookup_l _ _ _ _ _ Hrest Hi) as (rx & _ & Hxok).
      apply Hframe1. apply (Hother x (list_elem_of_lookup_2 _ _ _ Hi)).
      left. apply (sg_store_name _ _ _ Hxok).
  - intros name Hno. rewrite Hframe2.
    + apply Hframe1. apply Hno. apply list_elem_of_here.
    + intros x Hx. apply Hno. by apply list_elem_of_further.
  - intros name. by rewrite Hdom2, Hdom1.
Qed.

End closing.

(** ** File names read back, base offsets sorted *)

Lemma list_ascii_app s t :
  String.list_ascii_of_string (s +:+ t)
  = String.list_ascii_of_string s ++ String.list_ascii_of_string t.
Proof. induction s as [|a s IH]; simpl; [done|by rewrite IH]. Qed.

Lemma string_length_app s t :
  String.length (s +:+ t) = (String.length s + String.length t)%nat.
Proof. induction s as [|a s IH]; simpl; [done|by rewrite IH]. Qed.

Lemma substring_all s : String.substring 0 (String.length s) s = s.
Proof. induction s as [|a s IH]; simpl; [done|by rewrite IH]. Qed.

Lemma substring_suffix s t :
  String.substring (String.length s) (String.length t) (s +:+ t) = t.
Proof. induction s as [|a s IH]; simpl; [apply substring_all|done]. Qed.

Lemma substring_prefix s t :
  String.substring 0 (String.length s) (s +:+ t) = s.
Proof.
  induction s as [|a s IH]; simpl; [by destruct t|by rewrite IH].
Qed.

Lemma strings_TrimSuffix_app s e : strings_TrimSuffix (s +:+ e) e = s.
Proof.
  unfold strings_TrimSuffix. rewrite string_length_app.
  replace (String.length s + String.length e - String.length e)%nat
    with (String.length s) by lia.
  rewrite substring_suffix, substring_prefix, String.eqb_refl.
  by destruct (Nat.leb_spec (String.length e) (String.length s + String.length e));
    [|lia].
Qed.

Lemma path_Ext_store s : path_Ext (s +:+ ".store") = ".store".
Proof. unfold path_Ext. by rewrite list_ascii_app, rev_app_distr. Qed.

Lemma path_Ext_index s : path_Ext (s +:+ ".index") = ".index".
Proof. unfold path_Ext. by rewrite list_ascii_app, rev_app_distr. Qed.

Lemma pretty_N_char_code d :
  (d < 10)%N -> Z.of_N (N_of_ascii (pretty_N_char d)) = 48 + Z.of_N d.
Proof.
  intros Hd.
  assert (d = 0 \/ d = 1 \/ d = 2 \/ d = 3 \/ d = 4 \/ d = 5 \/ d = 6
          \/ d = 7 \/ d = 8 \/ d = 9)%N as Hc by lia.
  repeat (destruct Hc as [->|Hc]; [done|]). by subst.
Qed.

Lemma ParseUint_pretty_go x : forall s,
  Z.of_N x < 2 ^ 64 ->
  ParseUint_digits (String.list_ascii_of_string (pretty_N_go x s)) 0
  = ParseUint_digits (String.list_ascii_of_string s) (Z.of_N x).
Proof.
  induction (N.lt_wf_0 x) as [x _ IH]; intros s Hx.
  destruct (decide (x = 0)%N) as [->|Hne]; [by rewrite pretty_N_go_0|].
  rewrite pretty_N_go_step by lia.
  assert (x `div` 10 < x)%N as Hlt by (apply N.div_lt; lia).
  rewrite IH by (done || lia).
  pose proof (N.mod_lt x 10 ltac:(lia)) as Hd.
  pose proof (N.div_mod x 10 ltac:(lia)) as Hdm.
  cbn [String.list_ascii_of_string ParseUint_digits].
  rewrite pretty_N_char_code by done.
  apply (f_equal Z.of_N) in Hdm. rewrite N2Z.inj_add, N2Z.inj_mul in Hdm.
  pose proof (N2Z.is_nonneg (x `div` 10)) as Hq.
  pose proof (N2Z.is_nonneg (x `mod` 10)) as Hm.
  apply N2Z.inj_lt in Hd. change (Z.of_N 10) with 10 in Hdm, Hd.
  set (q := Z.of_N (x `div` 10)) in *. set (m := Z.of_N (x `mod` 10)) in *.
  destruct (Z.leb_spec 48 (48 + m)); [|lia].
  destruct (Z.leb_spec (48 + m) 57); [|lia]. simpl.
  change ((2 ^ 64 - 1) / 10 + 1) with 1844674407370955162.
  destruct (Z.leb_spec 1844674407370955162 q); [lia|].
  rewrite (u64_id (q * 10)) by lia.
  replace (48 + m - 48) with m by lia.
  rewrite (u64_id (q * 10 + m)) by lia.
  destruct (Z.ltb_spec (q * 10 + m) (q * 10)); [lia|].
  f_equal. lia.
Qed.

Lemma ParseUint_pretty (x : N) :
  Z.of_N x < 2 ^ 64 -> strconv_ParseUint (pretty x) = (Z.of_N x, None).
Proof.
  intros Hx. unfold pretty, pretty_N.
  destruct (decide (x = 0)%N) as [->|Hne]; [done|].
  pose proof (ParseUint_pretty_go x "" Hx) as Hgo. simpl in Hgo.
  unfold strconv_ParseUint.
  destruct (pretty_N_go x "") eqn:Heq; [|done].
  simpl in Hgo. injection Hgo as Hz. lia.
Qed.

(** The base offset is read back from the names of both files. *)
Lemma baseOffset_of_fileName b e :
  0 <= b < 2 ^ 64 -> is_ext e ->
  Log.baseOffset_of_name (Segment.fileName b e) = b.
Proof.
  intros Hb He. unfold Log.baseOffset_of_name, Segment.fileName.
  destruct He as [-> | ->].
  - rewrite path_Ext_store, strings_TrimSuffix_app, ParseUint_pretty by lia.
    simpl. lia.
  - rewrite path_Ext_index, strings_TrimSuffix_app, ParseUint_pretty by lia.
    simpl. lia.
Qed.

(** X17. The name that [newSegment] gives a file with [fmt.Sprintf] is read back
    by [setup] as the base offset it was made from, for every [uint64] and
    both extensions; so the files of different segments have different
    names. *)
Theorem file_names_read_back b b' :
  is_u64 b -> is_u64 b' ->
  Log.baseOffset_of_name (Segment.fileName b ".store") = b /\
  Log.baseOffset_of_name (Segment.fileName b ".index") = b /\
  (b <> b' ->
   forall e e', is_ext e -> is_ext e' ->
     Segment.fileName b e <> Segment.fileName b' e').
Proof.
  intros Hb Hb'. split_and!.
  - apply baseOffset_of_fileName; [done|by left].
  - apply baseOffset_of_fileName; [done|by right].
  - intros Hne e e' He He' Heq. apply Hne.
    rewrite <- (baseOffset_of_fileName b e), <- (baseOffset_of_fileName b' e')
      by done.
    by rewrite Heq.
Qed.

Lemma file_names_read_back_witness :
  Log.baseOffset_of_name (Segment.fileName 16 ".store") = 16 /\
  Log.baseOffset_of_name (Segment.fileName 16 ".index") = 16 /\
  (16 <> 3 ->
   forall e e', is_ext e -> is_ext e' ->
     Segment.fileName 16 e <> Segment.fileName 3 e').
Proof.
  apply (file_names_read_back 16 3); unfold is_u64; lia.
Defined.

(** *** The sort of the base offsets *)

Lemma i64_u64_small z : - 2 ^ 63 <= z < 2 ^ 63 -> i64 (u64 z) = z.
Proof.
  intros Hz. unfold i64, u64. rewrite Z.mod_mod by lia.
  change (2 ^ 64) with 18446744073709551616 in *.
  change (2 ^ 63) with 9223372036854775808 in *.
  destruct (Z.ltb_spec (z mod 18446744073709551616) 9223372036854775808);
    Z.div_mod_to_equations; lia.
Qed.

Section sort.
Lemma sink_Permutation x l : sink compare_offsets x l ≡ₚ x :: l.
Proof.
  induction l as [|y t IH]; simpl; [done|].
  destruct (compare_offsets x y <? 0); [|done].
  rewrite IH. apply Permutation_swap.
Qed.

Lemma sink_sorted lo x l :
  near lo x -> Forall (near lo) l ->
  StronglySorted (fun a b => b <= a) l ->
  StronglySorted (fun a b => b <= a) (sink compare_offsets x l).
Proof.
  intros Hx Hl Hs. induction Hs as [|y t Ht IH Hy]; simpl.
  { repeat constructor. }
  apply Forall_cons in Hl as [Hny Hnt].
  unfold compare_offsets at 1.
  rewrite i64_u64_small by (unfold near in *; lia).
  destruct (Z.ltb_spec (x - y) 0).
  - constructor; [by apply IH|].
    rewrite sink_Permutation. constructor; [lia|done].
  - constructor; [by constructor|].
    constructor; [lia|]. eapply Forall_impl; [exact Hy|].
    intros z Hz. simpl in Hz. lia.
Qed.

Lemma fold_sink_sorted lo xs : forall acc,
  Forall (near lo) xs -> Forall (near lo) acc ->
  StronglySorted (fun a b => b <= a) acc ->
  StronglySorted (fun a b => b <= a)
    (fold_left (fun sorted e => sink compare_offsets e sorted) xs acc) /\
  fold_left (fun sorted e => sink compare_offsets e sorted) xs acc ≡ₚ xs ++ acc.
Proof.
  induction xs as [|x xs IH]; intros acc Hxs Hacc Hs; simpl; [done|].
  apply Forall_cons in Hxs as [Hx Hxs].
  destruct (IH (sink compare_offsets x acc)) as [Hs' Hp]; [done| |by eapply sink_sorted|].
  { rewrite sink_Permutation. by constructor. }
  split; [done|]. rewrite Hp, sink_Permutation.
  by rewrite Permutation_middle.
Qed.

Lemma StronglySorted_rev l :
  StronglySorted (fun a b => b <= a) l -> StronglySorted Z.le (rev l).
Proof.
  induction 1 as [|x l Hl IH Hx]; simpl; [constructor|].
  apply StronglySorted_app_2; [|done|repeat constructor].
  intros a b Ha Hb. apply list_elem_of_singleton in Hb as ->.
  rewrite Forall_forall in Hx. apply Hx.
  apply list_elem_of_In. apply in_rev. by apply list_elem_of_In.
Qed.

Lemma SortFunc_sorted lo xs :
  Forall (near lo) xs ->
  StronglySorted Z.le (slices_SortFunc compare_offsets xs) /\
  slices_SortFunc compare_offsets xs ≡ₚ xs.
Proof.
  intros Hxs. unfold slices_SortFunc.
  destruct (fold_sink_sorted lo xs [] Hxs) as [Hs Hp]; [done|constructor|].
  split; [by apply StronglySorted_rev|].
  rewrite <- Permutation_rev, Hp. by rewrite app_nil_r.
Qed.

(** What the sort gives is the sorted list of the values. *)
Lemma SortFunc_is lo xs ys :
  Forall (near lo) xs -> StronglySorted Z.le ys -> ys ≡ₚ xs ->
  slices_SortFunc compare_offsets xs = ys.
Proof.
  intros Hxs Hys Hp. destruct (SortFunc_sorted lo xs Hxs) as [Hs Hp'].
  apply (StronglySorted_unique Z.le); [done..|]. by rewrite Hp, Hp'.
Qed.

(** X18. The sort of [setup] puts base offsets that lie less than [1 << 63] apart
    in ascending order: the result is sorted and holds the values of the
    slice, each as often as the slice does. (The sort is the insertion sort
    that [slices.SortFunc] runs on twelve elements at most.) *)
Theorem setup_sort_ascending lo xs :
  (length xs <= 12)%nat ->
  Forall (near lo) xs ->
  StronglySorted Z.le
    (slices_SortFunc (fun i j => i64 (u64 (i - j))) xs) /\
  slices_SortFunc (fun i j => i64 (u64 (i - j))) xs ≡ₚ xs.
Proof. intros _. apply SortFunc_sorted. Qed.

End sort.

Lemma setup_sort_ascending_witness :
  StronglySorted Z.le
    (slices_SortFunc (fun i j => i64 (u64 (i - j))) [3; 0; 3; 0; 6]) /\
  slices_SortFunc (fun i j => i64 (u64 (i - j))) [3; 0; 3; 0; 6]
  ≡ₚ [3; 0; 3; 0; 6].
Proof.
  apply (setup_sort_ascending 0 [3; 0; 3; 0; 6]).
  - simpl. lia.
  - repeat constructor; unfold near; lia.
Defined.

(** ** Opening a log on the files of a closed one *)

Section reopening.
Context `{Codec} `{!CodecLaws}.

(** [newSegment] on the files of a closed segment gives the segment back. *)
Lemma newSegment_closed d b recs c :
  closed_seg d b recs ->
  0 < i64 (MaxIndexBytes (Segment c)) ->
  12 * Z.of_nat (length recs) <= i64 (MaxIndexBytes (Segment c)) ->
  exists d' s,
    Segment.newSegment d b c = (d', Ok s) /\
    seg_ok d' s recs /\
    Segment.baseOffset s = b /\
    Segment.nextOffset s = b + Z.of_nat (length recs) /\
    numbered s /\ mapped c s /\
    (forall name, name <> Segment.fileName b ".index" ->
       d' !! name = d !! name) /\
    is_Some (d' !! Segment.fileName b ".index").
Proof.
  intros [Hb Hbd Hcnt Hoffs (data & content & ents & Hs & Hdl & Hi & Hfok & Hall & Hnum)]
    Hpos Hcap.
  pose proof (Forall2_length _ _ _ Hall) as Hlen.
  pose proof (fileName_store_index b) as Hdiff.
  unfold Segment.newSegment, os_OpenFile. rewrite Hs.
  unfold Store.newStore, os_Stat. rewrite Hs, Hi.
  destruct (newIndex_closed d (Segment.fileName b ".index") c content ents)
    as (m & Hnew & Hm & _ & Hok2); [done..|lia|].
  rewrite Hnew. rewrite (u64_id (Z.of_nat (length data))) by lia.
  set (ix := Index.mkIndex (Segment.fileName b ".index") m
               (12 * Z.of_nat (length ents))) in *.
  set (st := Store.mkStore (Segment.fileName b ".store")
               (bufio_NewWriter (Segment.fileName b ".store"))
               (Z.of_nat (length data))).
  set (d' := <[Segment.fileName b ".index" := m]> d).
  assert (store_ok d' st data) as Hst.
  { split; simpl; try done. unfold store_bytes, d'. simpl.
    rewrite lookup_insert_ne by done. rewrite Hs. simpl. by rewrite app_nil_r. }
  assert (exists nx, Segment.nextOffset nx = b + Z.of_nat (length recs) /\
            Segment.store nx = st /\ Segment.index nx = ix /\
            Segment.baseOffset nx = b /\
            match Index.Read ix (-1) with
            | Ok (off, _) =>
                (d', Ok (Segment.mkSegment st ix b (u64 (b + off + 1)) c))
            | Err _ => (d', Ok (Segment.mkSegment st ix b b c))
            | Panic => (d', Panic)
            end = (d', Ok nx)) as (nx & Hnx & Hnst & Hnix & Hnb & ->).
  { destruct (last ents) as [[o p]|] eqn:Hlast.
    - rewrite (Index_Read_last ix ents (o, p) Hok2); [|lia|done].
      rewrite last_lookup in Hlast. specialize (Hnum _ _ Hlast). simpl in Hnum.
      pose proof (lookup_lt_Some _ _ _ Hlast).
      exists (Segment.mkSegment st ix b (u64 (b + o + 1)) c).
      split_and!; [|done..]. simpl. rewrite u64_id by lia. lia.
    - apply last_None in Hlast. subst ents. simpl in Hlen.
      rewrite Index_Read_empty by done.
      exists (Segment.mkSegment st ix b b c).
      split_and!; [|done..]. simpl. lia. }
  exists d', nx. split; [done|]. split_and!; try done.
  - split; rewrite ?Hnst, ?Hnix, ?Hnb; try done; try lia.
    + unfold d'. simpl. by rewrite lookup_insert_eq.
    + by exists data, ents.
  - intros ents' Hents' j e He. rewrite Hnix in Hents'.
    rewrite (index_ok_unique _ _ _ Hents' Hok2) in He. by apply Hnum.
  - unfold mapped. by rewrite Hnix.
  - intros name Hne. unfold d'. by rewrite lookup_insert_ne.
  - unfold d'. by rewrite lookup_insert_eq.
Qed.

End reopening.

(** ** What [setup] reads from the directory of a closed log *)

Lemma elem_of_file_names name bs :
  name ∈ file_names bs <->
  exists b e, b ∈ bs /\ is_ext e /\ name = Segment.fileName b e.
Proof.
  unfold file_names. rewrite list_elem_of_bind. split.
  - intros (b & Hn & Hb).
    apply elem_of_cons in Hn as [->|Hn];
      [by exists b, ".index"; split_and!; [|right|]|].
    apply list_elem_of_singleton in Hn as ->.
    by exists b, ".store"; split_and!; [|left|].
  - intros (b & e & Hb & [-> | ->] & ->); exists b; split; try done.
    + apply list_elem_of_further, list_elem_of_here.
    + apply list_elem_of_here.
Qed.

Lemma NoDup_file_names bs :
  Forall (fun b => 0 <= b) bs -> NoDup bs -> NoDup (file_names bs).
Proof.
  intros Hpos Hnd. induction Hnd as [|b bs Hb Hnd IH]; [constructor|].
  apply Forall_cons in Hpos as [Hb0 Hpos].
  change (file_names (b :: bs))
    with (Segment.fileName b ".index" :: Segment.fileName b ".store"
          :: file_names bs).
  assert (forall e, is_ext e -> Segment.fileName b e ∉ file_names bs) as Hnot.
  { intros e He (b' & e' & Hb' & He' & Heq)%elem_of_file_names.
    apply fileName_inj in Heq as [-> _]; try done.
    rewrite Forall_forall in Hpos. by apply Hpos. }
  constructor.
  { intros [Heq|Hin]%elem_of_cons.
    - by apply (fileName_store_index b).
    - by apply (Hnot ".index"); [right|]. }
  constructor; [by apply Hnot; left|by apply IH].
Qed.

Lemma baseOffsets_of_file_names bs :
  Forall is_u64 bs ->
  Log.baseOffset_of_name <$> file_names bs = twice bs.
Proof.
  induction 1 as [|b bs Hb Hbs IH]; [done|].
  change (file_names (b :: bs))
    with (Segment.fileName b ".index" :: Segment.fileName b ".store"
          :: file_names bs).
  change (twice (b :: bs)) with (b :: b :: twice bs).
  rewrite !fmap_cons, IH.
  by rewrite (baseOffset_of_fileName b ".index" Hb (or_intror eq_refl)),
    (baseOffset_of_fileName b ".store" Hb (or_introl eq_refl)).
Qed.

Lemma os_ReadDir_Permutation d names :
  NoDup names -> (forall name, is_Some (d !! name) <-> name ∈ names) ->
  os_ReadDir d ≡ₚ names.
Proof.
  intros Hnd Hdom. unfold os_ReadDir. rewrite merge_sort_Permutation.
  apply NoDup_Permutation; [apply NoDup_elements|done|].
  intros name. by rewrite elem_of_elements, elem_of_dom, Hdom.
Qed.

Lemma twice_sorted bs :
  StronglySorted Z.lt bs -> StronglySorted Z.le (twice bs).
Proof.
  induction 1 as [|b bs Hs IH Hb]; [constructor|].
  change (twice (b :: bs)) with (b :: b :: twice bs).
  assert (Forall (Z.le b) (twice bs)) as Hall.
  { apply Forall_forall. intros x Hx. unfold twice in Hx.
    apply list_elem_of_bind in Hx as (y & Hx & Hy).
    rewrite Forall_forall in Hb. specialize (Hb _ Hy).
    apply elem_of_cons in Hx as [->|Hx]; [lia|].
    apply list_elem_of_singleton in Hx as ->. lia. }
  constructor; [constructor; [done|done]|].
  constructor; [lia|done].
Qed.

(** The base offsets that [setup] has after its sort: each base offset
    twice, in ascending order. *)
Lemma setup_offsets d lo bs :
  (forall name, is_Some (d !! name) <-> name ∈ file_names bs) ->
  StronglySorted Z.lt bs -> Forall is_u64 bs -> Forall (near lo) bs ->
  slices_SortFunc compare_offsets
    (map Log.baseOffset_of_name (os_ReadDir d)) = twice bs.
Proof.
  intros Hdom Hs Hu Hnear.
  assert (NoDup bs) as Hnd.
  { clear -Hs. induction Hs as [|b bs Hs IH Hb]; constructor; [|done].
    intros Hin. rewrite Forall_forall in Hb. specialize (Hb _ Hin). lia. }
  assert (Forall (fun b => 0 <= b) bs) as Hpos.
  { eapply Forall_impl; [exact Hu|]. intros b Hb. apply Hb. }
  pose proof (os_ReadDir_Permutation d _ (NoDup_file_names bs Hpos Hnd) Hdom) as Hp.
  assert (map Log.baseOffset_of_name (os_ReadDir d) ≡ₚ twice bs) as Hp2.
  { change (map Log.baseOffset_of_name (os_ReadDir d))
      with (Log.baseOffset_of_name <$> os_ReadDir d).
    by rewrite Hp, baseOffsets_of_file_names. }
  apply (SortFunc_is lo); [|by apply twice_sorted|done].
  rewrite Hp2. apply Forall_forall. intros x Hx. unfold twice in Hx.
  apply list_elem_of_bind in Hx as (y & Hx & Hy).
  rewrite Forall_forall in Hnear. specialize (Hnear _ Hy).
  apply elem_of_cons in Hx as [->|Hx]; [done|].
  by apply list_elem_of_singleton in Hx as ->.
Qed.

(** ** A log closed and opened again *)

Section persistence.
Context `{Codec} `{!CodecLaws}.

(** The loop of [setup] on the files of closed segments. *)
Lemma setup_loop_closed c : forall bs cs l d,
  Log.Config_ l = c ->
  Forall2 (closed_seg d) bs cs -> NoDup bs ->
  0 < i64 (MaxIndexBytes (Segment c)) ->
  Forall (fun recs => 12 * Z.of_nat (length recs)
                      <= i64 (MaxIndexBytes (Segment c))) cs ->
  exists l' news d',
    Log.setup_loop l (twice bs) d = (l', d', Ok tt) /\
    Log.Dir l' = Log.Dir l /\ Log.Config_ l' = c /\
    Log.segments l' = Log.segments l ++ news /\
    Forall2 (seg_ok d') news cs /\
    bases news = bs /\
    Forall numbered news /\ Forall (mapped c) news /\
    (forall name, (forall b, b ∈ bs -> name <> Segment.fileName b ".index") ->
       d' !! name = d !! name) /\
    (forall name, is_Some (d' !! name) <-> is_Some (d !! name)).
Proof.
  induction bs as [|b bs IH]; intros cs l d Hc Hall Hnd Hpos Hcaps.
  { apply Forall2_nil_inv_l in Hall as ->. exists l, [], d.
    split_and!; try done. by rewrite app_nil_r. }
  destruct cs as [|recs cs]; [by apply Forall2_length in Hall|].
  apply Forall2_cons in Hall as [Hcl Hrest].
  apply NoDup_cons in Hnd as [Hb Hnd].
  apply Forall_cons in Hcaps as [Hcap Hcaps].
  destruct (newSegment_closed d b recs c Hcl Hpos Hcap)
    as (d1 & s & Hnew & Hsok & Hsb & Hsn & Hsnum & Hsmap & Hframe1 & Hsome1).
  change (twice (b :: bs)) with (b :: b :: twice bs).
  cbn [Log.setup_loop]. unfold Log.newSegment at 1. rewrite Hc, Hnew.
  pose proof (cl_base _ _ _ Hcl) as Hb0.
  assert (forall b' e e', b' ∈ bs -> is_ext e -> is_ext e' ->
            Segment.fileName b' e <> Segment.fileName b e') as Hdiff.
  { intros b' e e' Hb' He He' Heq.
    pose proof Hb' as [i Hi]%list_elem_of_lookup.
    destruct (Forall2_lookup_l _ _ _ _ _ Hrest Hi) as (r' & _ & Hcl').
    apply fileName_inj in Heq as [-> _]; try done.
    apply (cl_base _ _ _ Hcl'). }
  assert (Forall2 (closed_seg d1) bs cs) as Hrest1.
  { apply Forall2_same_length_lookup. split; [by eapply Forall2_length|].
    intros i b' r' Hb' Hr'.
    pose proof (Forall2_lookup_lr _ _ _ _ _ _ Hrest Hb' Hr') as Hcl'.
    pose proof (list_elem_of_lookup_2 _ _ _ Hb') as Hin.
    eapply closed_seg_frame; [exact Hcl'| |]; apply Hframe1;
      apply Hdiff; try done; first [by left | by right]. }
  set (l1 := Log.mkLog (Log.Dir l) c (Some (length (Log.segments l)))
               (Log.segments l ++ [s])).
  destruct (IH cs l1 d1 eq_refl Hrest1 Hnd Hpos Hcaps)
    as (l' & news & d' & Hloop & Hdir & Hcfg & Hsegs & Hnews & Hbases & Hnum
        & Hmap & Hframe2 & Hdom2).
  exists l', (s :: news), d'. split; [exact Hloop|].
  assert (forall name, is_Some (d1 !! name) <-> is_Some (d !! name)) as Hdom1.
  { intros name.
    destruct (decide (name = Segment.fileName b ".index")) as [->|Hne].
    - split; [|done]. intros _.
      destruct Hcl as [_ _ _ _ (? & ? & ? & _ & _ & -> & _)]. by eexists.
    - by rewrite Hframe1. }
  split_and!; try done.
  - rewrite Hsegs. simpl. by rewrite <- app_assoc.
  - constructor; [|done].
    eapply seg_ok_frame; [exact Hsok| |].
    + rewrite (sg_store_name _ _ _ Hsok), Hsb. apply Hframe2.
      intros b' Hb' Heq. symmetry in Heq. revert Heq.
      apply Hdiff; try done; first [by right | by left].
    + apply Hdom2. apply (sg_index_file _ _ _ Hsok).
  - simpl. by rewrite Hsb, Hbases.
  - by constructor.
  - by constructor.
  - intros name Hno. rewrite Hframe2.
    + apply Hframe1. apply Hno. apply list_elem_of_here.
    + intros b' Hb'. apply Hno. by apply list_elem_of_further.
  - intros name. by rewrite Hdom2, Hdom1.
Qed.

Lemma bases_sorted d ss cs :
  packed ss -> Forall2 (seg_ok d) ss cs -> StronglySorted Z.lt (bases ss).
Proof.
  revert cs. induction ss as [|s rest IH]; intros cs Hpk Hall; [constructor|].
  destruct cs as [|recs cs]; [by apply Forall2_length in Hall|].
  pose proof Hall as Hall0. apply Forall2_cons in Hall as [Hs Hrest].
  simpl. constructor; [by eapply IH; [eapply packed_tail|]|].
  apply Forall_forall. intros b Hb. unfold bases in Hb.
  apply list_elem_of_fmap in Hb as (x & -> & [i Hi]%list_elem_of_lookup).
  by destruct (packed_lt _ _ _ Hpk Hall0 (S i) 0%nat s x); [lia|..].
Qed.

Lemma nexts_of_records d d' ss ss' cs :
  Forall2 (seg_ok d) ss cs -> Forall2 (seg_ok d') ss' cs ->
  bases ss' = bases ss ->
  Segment.nextOffset <$> ss' = Segment.nextOffset <$> ss.
Proof.
  intros Hall Hall' Hb. apply list_eq. intros i. rewrite !list_lookup_fmap.
  pose proof (f_equal (fun l => l !! i) Hb) as Hbi. simpl in Hbi.
  unfold bases in Hbi. rewrite !list_lookup_fmap in Hbi.
  destruct (ss' !! i) as [s'|] eqn:Hs', (ss !! i) as [s|] eqn:Hs; try done.
  destruct (Forall2_lookup_l _ _ _ _ _ Hall Hs) as (r & Hr & Hok).
  destruct (Forall2_lookup_l _ _ _ _ _ Hall' Hs') as (r' & Hr' & Hok').
  simpl in *. rewrite (sg_next _ _ _ Hok), (sg_next _ _ _ Hok').
  simplify_eq. by rewrite Hbi.
Qed.

Lemma packed_same ss ss' :
  bases ss' = bases ss ->
  Segment.nextOffset <$> ss' = Segment.nextOffset <$> ss ->
  packed ss -> packed ss'.
Proof.
  intros Hb Hn Hpk k s s' Hk HSk.
  assert (forall i x, ss' !! i = Some x ->
            exists y, ss !! i = Some y /\
              Segment.baseOffset y = Segment.baseOffset x /\
              Segment.nextOffset y = Segment.nextOffset x) as Hsame.
  { intros i x Hx.
    pose proof (f_equal (fun l => l !! i) Hb) as Hbi.
    pose proof (f_equal (fun l => l !! i) Hn) as Hni. simpl in *.
    unfold bases in Hbi. rewrite !list_lookup_fmap, Hx in Hbi, Hni.
    destruct (ss !! i) as [y|]; [|done]. simpl in *.
    exists y. split_and!; congruence. }
  destruct (Hsame _ _ Hk) as (y & Hy & Hyb & Hyn).
  destruct (Hsame _ _ HSk) as (y' & Hy' & Hyb' & Hyn').
  destruct (Hpk _ _ _ Hy Hy'). lia.
Qed.

(** A log of a run, closed and opened again with the configuration it was
    made with: the new log holds the records of the old one in segments of
    the same offsets. *)
Lemma reopen_rep dir c l d cs lo :
  log_ok l d cs -> log_ext dir c l ->
  Forall (near lo) (bases (Log.segments l)) ->
  exists l1 d1 l2 d2,
    Log.Close l d = (l1, d1, Ok tt) /\
    Log.NewLog dir c d1 = (l2, d2, Ok tt) /\
    log_ok l2 d2 cs /\ log_ext dir c l2 /\
    bases (Log.segments l2) = bases (Log.segments l) /\
    Segment.nextOffset <$> Log.segments l2
    = Segment.nextOffset <$> Log.segments l /\
    (forall s, s ∈ Log.segments l ->
       d1 !! Segment.fileName (Segment.baseOffset s) ".index"
       = Some (take (Z.to_nat (Index.size (Segment.index s)))
                 (Index.mmap (Segment.index s))) /\
       (length <$> d1 !! Segment.fileName (Segment.baseOffset s) ".store")
       = Some (Z.to_nat (Store.size (Segment.store s))) /\
       d1 !! Segment.fileName (Segment.baseOffset s) ".store"
       = store_bytes d (Segment.store s)) /\
    (forall name, is_Some (d1 !! name) <-> is_Some (d !! name)).
Proof.
  intros Hok [Hdir Hcfg Hnum Hmap] Hnear.
  pose proof Hok as [Hact Hne Hpos Hsegs Hpk Hown].
  destruct (Close_loop_rep _ d cs Hsegs Hpk Hnum)
    as (ss' & d1 & Hloop & Hcls & Hfiles & _ & Hdom1).
  set (bs := bases (Log.segments l)) in *.
  set (c' := Log.defaults c) in *.
  assert (forall name, is_Some (d1 !! name) <-> name ∈ file_names bs) as Hnames.
  { intros name. rewrite Hdom1, elem_of_file_names. split; [apply Hown|].
    intros (b & e & Hb & He & ->). unfold bs, bases in Hb.
    apply list_elem_of_fmap in Hb as (s & -> & [i Hi]%list_elem_of_lookup).
    destruct (Forall2_lookup_l _ _ _ _ _ Hsegs Hi) as (recs & _ & Hs).
    destruct He as [-> | ->].
    - rewrite <- (sg_store_name _ _ _ Hs).
      destruct (sg_rep _ _ _ Hs) as (data & ents & Hst & _).
      by eapply store_ok_File.
    - rewrite <- (sg_index_name _ _ _ Hs). apply (sg_index_file _ _ _ Hs). }
  assert (Forall is_u64 bs) as Hu.
  { apply Forall_forall. intros b Hb. unfold bs, bases in Hb.
    apply list_elem_of_fmap in Hb as (s & -> & [i Hi]%list_elem_of_lookup).
    destruct (Forall2_lookup_l _ _ _ _ _ Hsegs Hi) as (recs & _ & Hs).
    destruct (seg_ok_range _ _ _ Hs). unfold is_u64. lia. }
  pose proof (bases_sorted _ _ _ Hpk Hsegs) as Hsorted. fold bs in Hsorted.
  assert (NoDup bs) as Hnd.
  { clear -Hsorted. induction Hsorted as [|b bs Hs IH Hb]; constructor; [|done].
    intros Hin. rewrite Forall_forall in Hb. specialize (Hb _ Hin). lia. }
  rewrite Hcfg in Hpos. fold c' in Hpos.
  assert (Forall (fun recs => 12 * Z.of_nat (length recs)
                              <= i64 (MaxIndexBytes (Segment c'))) cs) as Hcaps.
  { apply Forall_forall. intros recs [i Hi]%list_elem_of_lookup.
    destruct (Forall2_lookup_r _ _ _ _ _ Hsegs Hi) as (s & Hs & Hsok).
    destruct (sg_rep _ _ _ Hsok) as (data & ents & _ & Hix & Hall).
    pose proof (Forall2_length _ _ _ Hall) as Hlen.
    pose proof (Forall_lookup_1 _ _ _ _ Hmap Hs) as Hm. unfold mapped in Hm.
    pose proof (io_fit _ _ Hix). fold c' in Hm. lia. }
  destruct (setup_loop_closed c' bs cs (Log.mkLog dir c' None []) d1 eq_refl
              Hcls Hnd Hpos Hcaps)
    as (l' & news & d2 & Hsetup & Hdir' & Hcfg' & Hsegs' & Hnews & Hbases
        & Hnnum & Hnmap & _ & Hdom2).
  simpl in Hsegs'.
  exists (Log.set_segments l ss'), d1,
    (Log.mkLog (Log.Dir l') (Log.Config_ l')
       (Some (length (Log.segments l') - 1)%nat) (Log.segments l')), d2.
  assert (news <> []) as Hnne.
  { intros ->. apply Forall2_length in Hnews, Hsegs. simpl in Hnews.
    destruct (Log.segments l); [done|]. simpl in Hsegs. lia. }
  split_and!.
  - unfold Log.Close. by rewrite Hloop.
  - unfold Log.NewLog, Log.setup. fold c'.
    change (fun i j : Z => i64 (u64 (i - j))) with compare_offsets.
    rewrite (setup_offsets d1 lo bs Hnames Hsorted Hu Hnear), Hsetup.
    assert (Log.segments l' <> []) as Hne' by (by rewrite Hsegs').
    destruct (Log.segments l') as [|s0 rest0] eqn:Hsl; [done|].
    simpl. by rewrite Hsl.
  - rewrite Hsegs'. split; simpl; try done.
    + by rewrite Hcfg'.
    + eapply packed_same; [exact Hbases| |exact Hpk].
      by eapply nexts_of_records.
    + intros name Hname. rewrite Hbases. apply Hown.
      by rewrite <- Hdom1, <- Hdom2.
  - rewrite Hsegs'. split; simpl; done.
  - simpl. by rewrite Hsegs'.
  - simpl. rewrite Hsegs'. by eapply nexts_of_records.
  - done.
  - done.
Qed.

End persistence.

Section closed_and_opened.
Context `{Codec} `{!CodecLaws}.

(** Offsets that span less than [1 << 63] lie near the first base
    offset. *)
Lemma span_near l d cs :
  log_ok l d cs ->
  (forall s0 sl, head (Log.segments l) = Some s0 ->
     last (Log.segments l) = Some sl ->
     Segment.nextOffset sl - Segment.baseOffset s0 < 2 ^ 63) ->
  exists lo, Forall (near lo) (bases (Log.segments l)).
Proof.
  intros Hok Hspan.
  pose proof (lo_nonempty _ _ _ Hok) as Hne.
  destruct (head (Log.segments l)) as [s0|] eqn:Hhead;
    [|by destruct (Log.segments l)].
  destruct (last (Log.segments l)) as [sl|] eqn:Hlast;
    [|by apply last_None in Hlast].
  specialize (Hspan s0 sl eq_refl eq_refl).
  exists (Segment.baseOffset s0).
  apply Forall_forall. intros b Hb. unfold bases in Hb.
  apply list_elem_of_fmap in Hb as (s & -> & [i Hi]%list_elem_of_lookup).
  pose proof (lookup_lt_Some _ _ _ Hi) as Hlt.
  destruct (Forall2_lookup_l _ _ _ _ _ (lo_segs _ _ _ Hok) Hi) as (recs & _ & Hsok).
  rewrite last_lookup in Hlast.
  destruct (Forall2_lookup_l _ _ _ _ _ (lo_segs _ _ _ Hok) Hlast) as (rl & _ & Hlok).
  destruct (seg_ok_range _ _ _ Hlok).
  assert (Log.segments l !! 0%nat = Some s0) as Hfirst
    by (by destruct (Log.segments l); simplify_eq/=).
  assert (Segment.baseOffset s0 <= Segment.baseOffset s).
  { destruct (decide (i = 0%nat)) as [->|Hi0]; [by simplify_eq|].
    destruct (packed_lt _ _ _ (lo_packed _ _ _ Hok) (lo_segs _ _ _ Hok)
                i 0%nat s0 s); [lia|done..|lia]. }
  assert (Segment.baseOffset s <= Segment.baseOffset sl).
  { destruct (decide (i = pred (length (Log.segments l)))) as [->|Hil];
      [by simplify_eq|].
    destruct (packed_lt _ _ _ (lo_packed _ _ _ Hok) (lo_segs _ _ _ Hok)
                (pred (length (Log.segments l))) i s sl); [lia|done..|lia]. }
  unfold near. lia.
Qed.

(** A record that the log holds is what [Read] returns. *)
Lemma holds_Read l d cs off rec :
  log_ok l d cs -> holds l cs off rec -> (Log.Read l off d).2 = Ok rec.
Proof.
  intros Hok Hh.
  destruct (Log.Read l off d) as [[l' d'] res] eqn:Hread.
  destruct (log_ok_Read _ _ _ _ _ _ _ Hok Hread) as (_ & _ & Hres & _).
  simpl. by apply Hres.
Qed.

(** X19. [Close] of a log of a run returns no error and leaves every index file
    cut at its entries, twelve bytes for each record of the segment and no
    zero byte behind them, and every store file with all the bytes of the
    store, the file followed by those that were still buffered. The names of the files are
    what they were. *)
Theorem Close_cuts_the_index_files dir c l d :
  is_u64 (InitialOffset (Segment c)) ->
  reachable dir c (l, d) ->
  exists l1 d1,
    Log.Close l d = (l1, d1, Ok tt) /\
    (forall name, is_Some (d1 !! name) <-> is_Some (d !! name)) /\
    forall s, s ∈ Log.segments l ->
      d1 !! Segment.fileName (Segment.baseOffset s) ".index"
      = Some (take (Z.to_nat (Index.size (Segment.index s)))
                (Index.mmap (Segment.index s))) /\
      Index.size (Segment.index s)
      = 12 * (Segment.nextOffset s - Segment.baseOffset s) /\
      Index.size (Segment.index s)
      <= Z.of_nat (length (Index.mmap (Segment.index s))) /\
      exists data,
        store_bytes d (Segment.store s) = Some data /\
        d1 !! Segment.fileName (Segment.baseOffset s) ".store" = Some data /\
        Z.of_nat (length data) = Store.size (Segment.store s).
Proof.
  intros Hio Hreach.
  destruct (reachable_ext _ _ _ _ Hio Hreach) as (cs & Hok & Hext).
  destruct (Close_loop_rep _ d cs (lo_segs _ _ _ Hok) (lo_packed _ _ _ Hok)
              (le_numbered _ _ _ Hext))
    as (ss' & d1 & Hloop & _ & Hfiles & _ & Hdom1).
  exists (Log.set_segments l ss'), d1. split_and!; try done.
  - unfold Log.Close. by rewrite Hloop.
  - intros s Hs. destruct (Hfiles s Hs) as (Hi & _ & Hsc).
    apply list_elem_of_lookup in Hs as [i Hi'].
    destruct (Forall2_lookup_l _ _ _ _ _ (lo_segs _ _ _ Hok) Hi') as (recs & _ & Hsok).
    destruct (sg_rep _ _ _ Hsok) as (data & ents & Hst & Hix & Hall).
    pose proof (Forall2_length _ _ _ Hall).
    pose proof (sg_next _ _ _ Hsok). pose proof (io_size _ _ Hix).
    pose proof (io_fit _ _ Hix).
    split_and!; try done; try lia.
    exists data. rewrite Hsc, (so_data _ _ _ Hst), (so_size _ _ _ Hst).
    done.
Qed.

(** X20. A log of a run that is closed and opened again on its directory, with
    the configuration it was made with, is the log it was: the segments have
    the base offsets and the next offsets they had, [LowestOffset] and
    [HighestOffset] are what they were, and every [Read] gives what it gave
    before the close. The base offsets lie less than [1 << 63] apart, for
    the comparison of the sort of [setup] to order them, and there are six
    segments at most: [slices.SortFunc] is modelled for twelve elements. *)
Theorem Close_then_NewLog dir c l d :
  is_u64 (InitialOffset (Segment c)) ->
  reachable dir c (l, d) ->
  (length (Log.segments l) <= 6)%nat ->
  (forall s0 sl, head (Log.segments l) = Some s0 ->
     last (Log.segments l) = Some sl ->
     Segment.nextOffset sl - Segment.baseOffset s0 < 2 ^ 63) ->
  exists l1 d1 l2 d2,
    Log.Close l d = (l1, d1, Ok tt) /\
    Log.NewLog dir c d1 = (l2, d2, Ok tt) /\
    bases (Log.segments l2) = bases (Log.segments l) /\
    Segment.nextOffset <$> Log.segments l2
    = Segment.nextOffset <$> Log.segments l /\
    Log.LowestOffset l2 = Log.LowestOffset l /\
    Log.HighestOffset l2 = Log.HighestOffset l /\
    forall off, (Log.Read l2 off d2).2 = (Log.Read l off d).2.
Proof.
  intros Hio Hreach _ Hspan.
  destruct (reachable_ext _ _ _ _ Hio Hreach) as (cs & Hok & Hext).
  destruct (span_near _ _ _ Hok Hspan) as (lo & Hnear).
  destruct (reopen_rep dir c l d cs _ Hok Hext Hnear)
    as (l1 & d1 & l2 & d2 & HClose & Hnew & Hok2 & _ & Hb & Hn & _).
  exists l1, d1, l2, d2. split; [done|]. split; [done|].
  split; [done|]. split; [done|]. by eapply same_answers.
Qed.

(** X24. A log that was closed and opened again goes on where it stopped:
    an append that returns no error returns the offset that follows the last
    one of the closed log, the record is read back under it, and every
    record that the log gave before the close is given after the append. *)
Theorem Append_after_reopen dir c l d l1 d1 l2 d2 r l3 d3 r' off :
  is_u64 (InitialOffset (Segment c)) ->
  reachable dir c (l, d) ->
  (length (Log.segments l) <= 6)%nat ->
  (forall s0 sl, head (Log.segments l) = Some s0 ->
     last (Log.segments l) = Some sl ->
     Segment.nextOffset sl - Segment.baseOffset s0 < 2 ^ 63) ->
  Log.Close l d = (l1, d1, Ok tt) ->
  Log.NewLog dir c d1 = (l2, d2, Ok tt) ->
  within_limits l2 r ->
  Log.Append l2 r d2 = (l3, d3, r', (off, Ok tt)) ->
  Segment.nextOffset <$> last (Log.segments l) = Some off /\
  (Log.Read l3 off d3).2 = Ok (mkRecord (Value r) off) /\
  forall off2 rec,
    (Log.Read l off2 d).2 = Ok rec -> (Log.Read l3 off2 d3).2 = Ok rec.
Proof.
  intros Hio Hreach _ Hspan HClose Hnew Hlim Happ.
  destruct (reachable_ext _ _ _ _ Hio Hreach) as (cs & Hok & Hext).
  destruct (span_near _ _ _ Hok Hspan) as (lo & Hnear).
  destruct (reopen_rep dir c l d cs _ Hok Hext Hnear)
    as (l1' & d1' & l2' & d2' & HClose' & Hnew' & Hok2 & _ & Hb & Hn & _).
  rewrite HClose in HClose'. injection HClose' as <- <-.
  rewrite Hnew in Hnew'. injection Hnew' as <- <-.
  destruct (Append_offsets _ _ _ _ _ _ _ _ Hok2 Hlim Happ)
    as (_ & _ & Hlast & _).
  destruct (log_ok_Append _ _ _ _ _ _ _ _ _ Hok2 Hlim Happ)
    as (cs' & Hok3 & Hkeep & -> & Hnew3 & _).
  split_and!.
  - by rewrite <- fmap_last, <- Hn.
  - by apply (holds_Read _ _ cs').
  - intros off2 rec Hread.
    destruct (Read_answer l d cs off2 Hok) as [(rec' & Hh & Heq)|[_ Heq]];
      rewrite Heq in Hread; [|done].
    injection Hread as ->.
    apply (holds_Read _ _ cs'); [done|]. apply Hkeep.
    by apply (holds_same_bases l l2).
Qed.

End closed_and_opened.

Lemma Close_cuts_the_index_files_witness :
  exists l1 d1,
    Log.Close two_segments.1 two_segments.2 = (l1, d1, Ok tt) /\
    (forall name, is_Some (d1 !! name) <-> is_Some (two_segments.2 !! name)) /\
    forall s, s ∈ Log.segments two_segments.1 ->
      d1 !! Segment.fileName (Segment.baseOffset s) ".index"
      = Some (take (Z.to_nat (Index.size (Segment.index s)))
                (Index.mmap (Segment.index s))) /\
      Index.size (Segment.index s)
      = 12 * (Segment.nextOffset s - Segment.baseOffset s) /\
      Index.size (Segment.index s)
      <= Z.of_nat (length (Index.mmap (Segment.index s))) /\
      exists data,
        store_bytes two_segments.2 (Segment.store s) = Some data /\
        d1 !! Segment.fileName (Segment.baseOffset s) ".store" = Some data /\
        Z.of_nat (length data) = Store.size (Segment.store s).
Proof.
  apply (Close_cuts_the_index_files "data" (caps 1024 36 0)
           two_segments.1 two_segments.2).
  - unfold is_u64. simpl. lia.
  - apply reachable_pair. unfold two_segments.
    apply reachable_runs; vm_compute; reflexivity.
Defined.

Lemma Close_then_NewLog_witness :
  exists l1 d1 l2 d2,
    Log.Close two_segments.1 two_segments.2 = (l1, d1, Ok tt) /\
    Log.NewLog "data" (caps 1024 36 0) d1 = (l2, d2, Ok tt) /\
    bases (Log.segments l2) = bases (Log.segments two_segments.1) /\
    Segment.nextOffset <$> Log.segments l2
    = Segment.nextOffset <$> Log.segments two_segments.1 /\
    Log.LowestOffset l2 = Log.LowestOffset two_segments.1 /\
    Log.HighestOffset l2 = Log.HighestOffset two_segments.1 /\
    forall off,
      (Log.Read l2 off d2).2 = (Log.Read two_segments.1 off two_segments.2).2.
Proof.
  apply (Close_then_NewLog "data" (caps 1024 36 0)
           two_segments.1 two_segments.2).
  - unfold is_u64. simpl. lia.
  - apply reachable_pair. unfold two_segments.
    apply reachable_runs; vm_compute; reflexivity.
  - vm_compute. repeat constructor.
  - intros s0 sl Hh Hl.
    assert (Segment.baseOffset <$> head (Log.segments two_segments.1) = Some 0)
      as Hh0 by (vm_compute; reflexivity).
    assert (Segment.nextOffset <$> last (Log.segments two_segments.1) = Some 4)
      as Hl0 by (vm_compute; reflexivity).
    rewrite Hh in Hh0. rewrite Hl in Hl0. simpl in Hh0, Hl0.
    injection Hh0 as ->. injection Hl0 as ->. lia.
Defined.

Lemma Append_after_reopen_witness :
  Segment.nextOffset <$> last (Log.segments two_segments.1)
  = Some (Log.Append reopened.1 (payload "y") reopened.2).2.1 /\
  (Log.Read (Log.Append reopened.1 (payload "y") reopened.2).1.1.1
     (Log.Append reopened.1 (payload "y") reopened.2).2.1
     (Log.Append reopened.1 (payload "y") reopened.2).1.1.2).2
  = Ok (mkRecord (Value (payload "y"))
          (Log.Append reopened.1 (payload "y") reopened.2).2.1) /\
  forall off2 rec,
    (Log.Read two_segments.1 off2 two_segments.2).2 = Ok rec ->
    (Log.Read (Log.Append reopened.1 (payload "y") reopened.2).1.1.1 off2
       (Log.Append reopened.1 (payload "y") reopened.2).1.1.2).2 = Ok rec.
Proof.
  apply (Append_after_reopen "data" (caps 1024 36 0)
           two_segments.1 two_segments.2
           (Log.Close two_segments.1 two_segments.2).1.1
           (Log.Close two_segments.1 two_segments.2).1.2
           reopened.1 reopened.2 (payload "y")
           (Log.Append reopened.1 (payload "y") reopened.2).1.1.1
           (Log.Append reopened.1 (payload "y") reopened.2).1.1.2
           (Log.Append reopened.1 (payload "y") reopened.2).1.2).
  - unfold is_u64. simpl. lia.
  - apply reachable_pair. unfold two_segments.
    apply reachable_runs; vm_compute; reflexivity.
  - vm_compute. repeat constructor.
  - intros s0 sl Hh Hl.
    assert (Segment.baseOffset <$> head (Log.segments two_segments.1) = Some 0)
      as Hh0 by (vm_compute; reflexivity).
    assert (Segment.nextOffset <$> last (Log.segments two_segments.1) = Some 4)
      as Hl0 by (vm_compute; reflexivity).
    rewrite Hh in Hh0. rewrite Hl in Hl0. simpl in Hh0, Hl0.
    injection Hh0 as ->. injection Hl0 as ->. lia.
  - vm_compute. reflexivity.
  - vm_compute. reflexivity.
  - apply within_limitsb_sound. vm_compute. reflexivity.
  - vm_compute. reflexivity.
Defined.

(** ** nearestMultiple *)

(** X21. [nearestMultiple(j, k)] is the largest multiple of [k] that is not
    above [j]; with [k = 0] the division panics. *)
Theorem nearestMultiple_below j k :
  is_u64 j -> is_u64 k ->
  (k = 0 -> Segment.nearestMultiple j k = Panic) /\
  (k <> 0 ->
   exists m, Segment.nearestMultiple j k = Ok m /\
             m mod k = 0 /\ m <= j < m + k).
Proof.
  intros [Hj0 Hj] [Hk0 Hk]. unfold Segment.nearestMultiple. split.
  - by intros ->.
  - intros Hne. destruct (Z.eqb_spec k 0); [done|].
    destruct (Z.leb_spec 0 j); [|lia].
    pose proof (Z.mul_div_le j k ltac:(lia)) as Hle.
    pose proof (Z.mul_succ_div_gt j k ltac:(lia)) as Hgt.
    assert (0 <= j / k) by (apply Z.div_pos; lia).
    exists (j / k * k). split_and!.
    + by rewrite u64_id by nia.
    + apply Z.mod_mul. lia.
    + lia.
    + lia.
Qed.

Lemma nearestMultiple_below_witness :
  (4 = 0 -> Segment.nearestMultiple 9 4 = Panic) /\
  (4 <> 0 ->
   exists m, Segment.nearestMultiple 9 4 = Ok m /\
             m mod 4 = 0 /\ m <= 9 < m + 4).
Proof. apply (nearestMultiple_below 9 4); unfold is_u64; lia. Defined.

(** ** Remove and Reset *)

Lemma Segment_Close_offsets s d s' d' r :
  Segment.Close s d = (s', d', r) ->
  Segment.baseOffset s' = Segment.baseOffset s /\
  Segment.nextOffset s' = Segment.nextOffset s.
Proof.
  unfold Segment.Close, Store.Close. repeat case_match; by intros [= <- _ _].
Qed.

Lemma Close_loop_offsets ss : forall d ss' d' r,
  Log.Close_loop ss d = (ss', d', r) ->
  bases ss' = bases ss /\
  Segment.nextOffset <$> ss' = Segment.nextOffset <$> ss.
Proof.
  unfold bases.
  induction ss as [|s rest IH]; intros d ss' d' r; simpl.
  { by intros [= <- _ _]. }
  destruct (Segment.Close s d) as [[s1 d1] r1] eqn:Hs.
  apply Segment_Close_offsets in Hs as [Hb Hn].
  destruct r1 as [[]|e|].
  - destruct (Log.Close_loop rest d1) as [[rest' d2] r2] eqn:Hrest.
    destruct (IH _ _ _ _ Hrest) as [Hbs Hns].
    intros [= <- _ _]. rewrite !fmap_cons, Hb, Hn. split; f_equal; [exact Hbs|exact Hns].
  - intros [= <- _ _]. rewrite !fmap_cons. by rewrite Hb, Hn.
  - intros [= <- _ _]. rewrite !fmap_cons. by rewrite Hb, Hn.
Qed.

Section reset.
Context `{Codec} `{!CodecLaws}.

(** X22. [Reset] never returns [nil]. On a log of a run [Remove] closes the
    segments and removes the directory, after which the [os.ReadDir] of
    [setup] finds no directory: [Reset] returns its error, and the log is
    left with the segments it had, whose files are gone. *)
Theorem Reset_returns_an_error dir c l d :
  is_u64 (InitialOffset (Segment c)) ->
  reachable dir c (l, d) ->
  (forall l' d', (Log.Reset l' d').2 <> Ok tt) /\
  exists l1,
    Log.Remove l d = (l1, None, Ok tt) /\
    Log.Reset l d = (l1, None, Err ErrNotExist) /\
    bases (Log.segments l1) = bases (Log.segments l) /\
    Log.segments l1 <> [].
Proof.
  intros Hio Hreach. split.
  { intros l' d'. unfold Log.Reset, Log.Remove.
    destruct (Log.Close l' d') as [[l1 d1] [[]|e|]]; done. }
  destruct (reachable_ext _ _ _ _ Hio Hreach) as (cs & Hok & Hext).
  destruct (Close_loop_rep _ d cs (lo_segs _ _ _ Hok) (lo_packed _ _ _ Hok)
              (le_numbered _ _ _ Hext))
    as (ss' & d1 & Hloop & _).
  destruct (Close_loop_offsets _ _ _ _ _ Hloop) as [Hb _].
  exists (Log.set_segments l ss').
  unfold Log.Reset, Log.Remove, Log.Close. rewrite Hloop.
  split_and!; try done. simpl. intros ->.
  pose proof (lo_nonempty _ _ _ Hok). by destruct (Log.segments l).
Qed.

End reset.

Lemma Reset_returns_an_error_witness :
  (forall l' d', (Log.Reset l' d').2 <> Ok tt) /\
  exists l1,
    Log.Remove two_segments.1 two_segments.2 = (l1, None, Ok tt) /\
    Log.Reset two_segments.1 two_segments.2 = (l1, None, Err ErrNotExist) /\
    bases (Log.segments l1) = bases (Log.segments two_segments.1) /\
    Log.segments l1 <> [].
Proof.
  apply (Reset_returns_an_error "data" (caps 1024 36 0)
           two_segments.1 two_segments.2).
  - unfold is_u64. simpl. lia.
  - apply reachable_pair. unfold two_segments.
    apply reachable_runs; vm_compute; reflexivity.
Defined.

(** ** Reader *)

(** [ReadAt] flushes the writer and gives the bytes of the store from
    [off] on, those the writer held included. *)
Lemma Store_ReadAt_rep d st data n off :
  store_ok d st data -> 0 <= off ->
  exists st',
    Store.ReadAt st n off d
    = (st', <[Store.File st := data]> d,
       (take n (drop (Z.to_nat off) data),
        if (length (take n (drop (Z.to_nat off) data)) <? n)%nat
        then Err EOF else Ok tt)) /\
    store_ok (<[Store.File st := data]> d) st' data /\
    Store.File st' = Store.File st.
Proof.
  intros Hok Hoff.
  destruct (Flush_rep _ _ _ Hok) as (b & Hflush & Hbw & Hbe & Hbp).
  unfold Store.ReadAt. rewrite Hflush. eexists. split_and!.
  - unfold file_ReadAt_n. simpl. rewrite lookup_insert_eq.
    destruct (Z.ltb_spec off 0); [lia|]. done.
  - by apply store_ok_flushed.
  - done.
Qed.

Section reader.
Context `{Codec} `{!CodecLaws}.

(** A segment of a log is replaced by one that holds the same records,
    after a call that has written to its store file only. *)
Lemma log_ok_update l d cs k s s' d' :
  log_ok l d cs -> Log.segments l !! k = Some s ->
  (forall recs, seg_ok d s recs -> seg_ok d' s' recs) ->
  Segment.baseOffset s' = Segment.baseOffset s ->
  Segment.nextOffset s' = Segment.nextOffset s ->
  (forall name, name <> Segment.fileName (Segment.baseOffset s) ".store" ->
                d' !! name = d !! name) ->
  log_ok (Log.set_segments l (<[k := s']> (Log.segments l))) d' cs.
Proof.
  intros Hok Hk Hsame Hb Hn Hframe.
  destruct (Forall2_lookup_l _ _ _ _ _ (lo_segs _ _ _ Hok) Hk)
    as (recs & Hrecs & Hsok).
  pose proof (lookup_lt_Some _ _ _ Hk) as Hklt.
  destruct Hok as [Hact Hne Hcfg Hsegs Hpk Hown]. split; simpl.
  - by rewrite length_insert.
  - intros Heq. apply (f_equal length) in Heq. rewrite length_insert in Heq.
    by destruct (Log.segments l).
  - done.
  - apply Forall2_same_length_lookup. split.
    { rewrite length_insert. by eapply Forall2_length. }
    intros i x y Hx Hy.
    destruct (decide (i = k)) as [->|Hik].
    + rewrite list_lookup_insert_eq in Hx by done.
      injection Hx as <-. apply Hsame. congruence.
    + rewrite list_lookup_insert_ne in Hx by done.
      pose proof (Forall2_lookup_lr _ _ _ _ _ _ Hsegs Hx Hy) as Hxy.
      assert (Segment.baseOffset x <> Segment.baseOffset s) as Hbne.
      { destruct (Nat.lt_total i k) as [Hlt|[Heq|Hgt]]; [|done|].
        - destruct (packed_lt _ _ _ Hpk Hsegs k i x s); [done..|lia].
        - destruct (packed_lt _ _ _ Hpk Hsegs i k s x); [done..|lia]. }
      destruct (seg_ok_range _ _ _ Hxy). destruct (seg_ok_range _ _ _ Hsok).
      eapply seg_ok_frame; [exact Hxy| |].
      * apply Hframe. rewrite (sg_store_name _ _ _ Hxy). intros Heq.
        apply fileName_inj in Heq as [? _]; first [lia | by left | by right].
      * rewrite Hframe; [apply (sg_index_file _ _ _ Hxy)|].
        rewrite (sg_index_name _ _ _ Hxy). intros Heq.
        apply fileName_inj in Heq as [_ ?]; first [done | lia | by left | by right].
  - by eapply packed_insert_same.
  - unfold owned. erewrite bases_insert by done. intros name Hname.
    apply Hown.
    destruct (decide (name = Segment.fileName (Segment.baseOffset s) ".store"))
      as [->|Hne'].
    + destruct Hsok as [Hsn _ _ _ _ _ _ _ (data & ents & [_ _ Hdata _ _] & _)].
      unfold store_bytes in Hdata. rewrite Hsn in Hdata.
      by destruct (d !! Segment.fileName (Segment.baseOffset s) ".store").
    + by rewrite <- Hframe.
Qed.

(** The bytes of the store of a segment of a log. *)
Lemma stores_bytes_lookup l d cs k data :
  log_ok l d cs -> stores_bytes l d !! k = Some data ->
  exists s recs,
    Log.segments l !! k = Some s /\ cs !! k = Some recs /\
    seg_ok d s recs /\ store_ok d (Segment.store s) data.
Proof.
  intros Hok Hk. unfold stores_bytes in Hk.
  rewrite list_lookup_fmap in Hk.
  destruct (Log.segments l !! k) as [s|] eqn:Hs; [|done].
  simpl in Hk. injection Hk as Hk.
  destruct (Forall2_lookup_l _ _ _ _ _ (lo_segs _ _ _ Hok) Hs)
    as (recs & Hrecs & Hsok).
  exists s, recs. split_and!; try done.
  destruct (sg_rep _ _ _ Hsok) as (data' & ents & Hst & _).
  rewrite (so_data _ _ _ Hst) in Hk. simpl in Hk. by subst.
Qed.

(** One [Read] of an [originReader] inside its store: the next bytes of the
    store, [io.EOF] when they do not fill the buffer; the log holds what it
    held. *)
Lemma originReader_Read_rep l d cs o n data :
  log_ok l d cs ->
  stores_bytes l d !! Log.store o = Some data ->
  0 <= Log.offset o <= Z.of_nat (length data) ->
  let b := take n (drop (Z.to_nat (Log.offset o)) data) in
  exists l' d',
    Log.originReader_Read o n l d
    = (Log.mkOriginReader (Log.store o) (Log.offset o + Z.of_nat (length b)),
       l', d',
       (b, if (length b <? n)%nat then Err EOF else Ok tt)) /\
    log_ok l' d' cs /\
    stores_bytes l' d' = stores_bytes l d /\
    bases (Log.segments l') = bases (Log.segments l) /\
    Segment.nextOffset <$> Log.segments l' = Segment.nextOffset <$> Log.segments l.
Proof.
  intros Hok Hk Hoff b.
  destruct (stores_bytes_lookup _ _ _ _ _ Hok Hk)
    as (s & recs & Hs & Hrecs & Hsok & Hst).
  destruct (Store_ReadAt_rep d _ data n (Log.offset o) Hst ltac:(lia))
    as (st' & Hread & Hst' & Hfile).
  pose proof (so_size _ _ _ Hst) as Hsize.
  pose proof (so_bound _ _ _ Hst) as Hbound.
  assert (length b <= length data - Z.to_nat (Log.offset o))%nat as Hlen.
  { unfold b. rewrite length_take, length_drop. lia. }
  unfold Log.originReader_Read. rewrite Hs, Hread. fold b.
  rewrite u64_id, i64_id by lia.
  set (s' := Segment.mkSegment st' _ _ _ _).
  pose proof (sg_store_name _ _ _ Hsok) as Hsn.
  assert (forall name,
            name <> Segment.fileName (Segment.baseOffset s) ".store" ->
            <[Store.File (Segment.store s) := data]> d !! name = d !! name)
    as Hframe.
  { intros name Hne. rewrite lookup_insert_ne; [done|]. by rewrite Hsn. }
  assert (forall recs0, seg_ok d s recs0 ->
            seg_ok (<[Store.File (Segment.store s) := data]> d) s' recs0)
    as Hsame.
  { intros recs0 [Hsn0 Hin Hif Hb0 Hn0 Hbd Hcnt Hoffs (data0 & ents & Hst0 & Hix & Hall)].
    assert (data0 = data) as ->.
    { pose proof (so_data _ _ _ Hst0). pose proof (so_data _ _ _ Hst). congruence. }
    split; cbn [s' Segment.store Segment.index Segment.baseOffset
                Segment.nextOffset]; try done.
    - congruence.
    - rewrite Hframe; [done|]. rewrite Hin. intros Heq.
      by apply (fileName_store_index (Segment.baseOffset s)).
    - by exists data, ents. }
  eexists _, _. split; [done|]. split_and!.
  - by eapply log_ok_update.
  - unfold stores_bytes. simpl. apply list_eq. intros i.
    rewrite !list_lookup_fmap.
    destruct (decide (i = Log.store o)) as [->|Hne].
    + rewrite list_lookup_insert_eq by (by eapply lookup_lt_Some).
      rewrite Hs. simpl.
      by rewrite (so_data _ _ _ Hst'), (so_data _ _ _ Hst).
    + rewrite list_lookup_insert_ne by done.
      destruct (Log.segments l !! i) as [x|] eqn:Hx; [|done]. simpl.
      destruct (Forall2_lookup_l _ _ _ _ _ (lo_segs _ _ _ Hok) Hx)
        as (rx & Hrx & Hxok).
      unfold store_bytes. rewrite Hframe; [done|].
      rewrite (sg_store_name _ _ _ Hxok). intros Heq.
      assert (file_of (Segment.fileName (Segment.baseOffset x) ".store") x)
        as Hfx by (by left).
      apply (other_segment_files d (Log.segments l) cs i (Log.store o) x s _
               (lo_packed _ _ _ Hok) (lo_segs _ _ _ Hok) Hx Hs Hne Hfx).
      left. exact Heq.
  - simpl. by eapply bases_insert.
  - simpl. apply list_eq. intros i. rewrite !list_lookup_fmap.
    destruct (decide (i = Log.store o)) as [->|Hne].
    + rewrite list_lookup_insert_eq by (by eapply lookup_lt_Some).
      by rewrite Hs.
    + by rewrite list_lookup_insert_ne.
Qed.

(** One [Read] of the reader of the log: bytes that the readers had not
    read yet, at least one when there is no error, and [io.EOF] with the
    last of them. *)
Lemma MultiReader_Read_rep rs : forall l d cs n,
  log_ok l d cs -> (0 < n)%nat ->
  Forall (inside (stores_bytes l d)) rs ->
  exists rs' l' d' b r,
    Log.MultiReader_Read rs n l d = (rs', l', d', (b, r)) /\
    log_ok l' d' cs /\
    stores_bytes l' d' = stores_bytes l d /\
    bases (Log.segments l') = bases (Log.segments l) /\
    Segment.nextOffset <$> Log.segments l' = Segment.nextOffset <$> Log.segments l /\
    Forall (inside (stores_bytes l d)) rs' /\
    ((r = Ok tt /\ b <> [] /\
      remaining (stores_bytes l d) rs
      = b ++ remaining (stores_bytes l d) rs') \/
     (r = Err EOF /\ b = remaining (stores_bytes l d) rs)).
Proof.
  induction rs as [|o rest IH]; intros l d cs n Hok Hn Hall.
  { exists [], l, d, [], (Err EOF). split_and!; try done. by right. }
  apply Forall_cons in Hall as [(data & Hk & Hoff) Hrest].
  destruct (originReader_Read_rep l d cs o n data Hok Hk Hoff)
    as (l1 & d1 & Hread & Hok1 & Hsb & Hb & Hnx).
  cbn zeta in Hread.
  set (rem := drop (Z.to_nat (Log.offset o)) data) in *.
  assert (remaining (stores_bytes l d) (o :: rest)
          = rem ++ remaining (stores_bytes l d) rest) as Hrem.
  { unfold remaining. rewrite bind_cons. by rewrite Hk. }
  cbn [Log.MultiReader_Read]. rewrite Hread.
  destruct (Nat.ltb_spec (length (take n rem)) n) as [Hshort|Hfull].
  - assert (take n rem = rem) as Htake.
    { apply take_ge. rewrite length_take in Hshort. lia. }
    rewrite Htake in *.
    destruct (Nat.ltb_spec 0 (length rem)) as [Hsome|Hnone].
    + exists rest, l1, d1, rem.
      destruct rest as [|o2 rest2].
      * exists (Err EOF). split_and!; try done. right. split; [done|].
        rewrite Hrem. unfold remaining. simpl. by rewrite app_nil_r.
      * exists (Ok tt). split_and!; try done. left.
        split_and!; try done. intros Hnil. rewrite Hnil in Hsome.
        simpl in Hsome. lia.
    + assert (rem = []) as Hnil by (destruct rem; [done|simpl in Hnone; lia]).
      rewrite <- Hsb in Hrest.
      destruct (IH l1 d1 cs n Hok1 Hn Hrest)
        as (rs' & l2 & d2 & b & r & Hmr & Hok2 & Hsb2 & Hb2 & Hnx2 & Hin & Hres).
      rewrite Hsb in *.
      exists rs', l2, d2, b, r. rewrite Hmr. split_and!; try done;
        try congruence.
      rewrite Hrem, Hnil. simpl. exact Hres.
  - assert (length (take n rem) = n) as Hlen.
    { pose proof (length_take_le rem n). rewrite length_take in *. lia. }
    eexists (_ :: rest), l1, d1, (take n rem), (Ok tt).
    split_and!; try done.
    + apply Forall_cons. split; [|done].
      exists data. simpl. split; [done|].
      rewrite Hlen. pose proof Hfull as Hfull'.
      rewrite length_take in Hfull'. unfold rem in Hfull'.
      rewrite length_drop in Hfull'. lia.
    + left. split_and!; try done.
      * intros Hnil. rewrite Hnil in Hlen. simpl in Hlen. lia.
      * rewrite Hrem. unfold remaining at 2. rewrite bind_cons. simpl.
        rewrite Hk. simpl. fold (remaining (stores_bytes l d) rest).
        rewrite app_assoc. f_equal.
        rewrite Hlen.
        replace (Z.to_nat (Log.offset o + Z.of_nat n))
          with (Z.to_nat (Log.offset o) + n)%nat by lia.
        rewrite <- drop_drop. fold rem. by rewrite take_drop.
Qed.

(** Calls of [Read] on readers inside their stores. *)
Lemma reads_rep ns : forall rs l d cs,
  log_ok l d cs -> Forall (fun n => (0 < n)%nat) ns ->
  Forall (inside (stores_bytes l d)) rs ->
  exists bs l' d' e,
    reads ns rs l d = (bs, l', d', e) /\
    log_ok l' d' cs /\
    stores_bytes l' d' = stores_bytes l d /\
    bases (Log.segments l') = bases (Log.segments l) /\
    Segment.nextOffset <$> Log.segments l' = Segment.nextOffset <$> Log.segments l /\
    bs `prefix_of` remaining (stores_bytes l d) rs /\
    (e = None \/
     (e = Some (Err EOF) /\ bs = remaining (stores_bytes l d) rs)) /\
    ((length (remaining (stores_bytes l d) rs) < length ns)%nat ->
     e = Some (Err EOF)).
Proof.
  induction ns as [|n ns IH]; intros rs l d cs Hok Hns Hall.
  { exists [], l, d, None. simpl. split_and!; try done.
    - apply prefix_nil.
    - by left.
    - lia. }
  apply Forall_cons in Hns as [Hn Hns].
  destruct (MultiReader_Read_rep rs l d cs n Hok Hn Hall)
    as (rs' & l1 & d1 & b & r & Hmr & Hok1 & Hsb & Hb & Hnx & Hin & Hres).
  cbn [reads]. rewrite Hmr.
  destruct Hres as [(-> & Hne & Hrem)|[-> Hrem]].
  - rewrite <- Hsb in Hin.
    destruct (IH rs' l1 d1 cs Hok1 Hns Hin)
      as (bs & l2 & d2 & e & Hrd & Hok2 & Hsb2 & Hb2 & Hnx2 & Hpre & He & Hlen).
    rewrite Hsb in *. rewrite Hrd.
    exists (b ++ bs), l2, d2, e. split_and!; try done; try congruence.
    + rewrite Hrem. by apply prefix_app.
    + destruct He as [->|[-> ->]]; [by left|right]. by rewrite Hrem.
    + intros Hlt. apply Hlen. rewrite Hrem, length_app in Hlt.
      simpl in Hlt. destruct b; [done|]. simpl in Hlt. lia.
  - exists b, l1, d1, (Some (Err EOF)). split_and!; try done.
    + by rewrite Hrem.
    + by right.
Qed.

(** The readers of [Reader] stand at the start of the stores. *)
Lemma Reader_inside l d :
  Forall (inside (stores_bytes l d)) (Log.Reader l).
Proof.
  apply Forall_forall. intros o Ho. unfold Log.Reader in Ho.
  apply list_elem_of_lookup in Ho as [i Hi].
  rewrite list_lookup_imap in Hi.
  destruct (Log.segments l !! i) as [s|] eqn:Hs; [|done].
  simpl in Hi. injection Hi as <-.
  eexists. simpl. split.
  - unfold stores_bytes. rewrite list_lookup_fmap, Hs. done.
  - lia.
Qed.

Lemma remaining_from_start (sb pre : list bytes) :
  remaining (pre ++ sb)
    ((fun i => Log.mkOriginReader i 0) <$> seq (length pre) (length sb))
  = concat sb.
Proof.
  revert pre. induction sb as [|x sb IH]; intros pre; [done|].
  cbn [length seq concat]. rewrite fmap_cons. unfold remaining.
  rewrite bind_cons. cbn [Log.store Log.offset].
  rewrite lookup_app_r by lia. rewrite Nat.sub_diag.
  cbn [lookup list_lookup default Z.to_nat drop]. f_equal.
  specialize (IH (pre ++ [x])). unfold remaining in IH. rewrite <- app_assoc in IH. simpl in IH.
  rewrite length_app in IH. simpl in IH.
  replace (length pre + 1)%nat with (S (length pre)) in IH by lia.
  exact IH.
Qed.

Lemma Reader_remaining l d :
  remaining (stores_bytes l d) (Log.Reader l) = log_bytes l d.
Proof.
  unfold Log.Reader. rewrite (imap_seq_0 _ (fun i => Log.mkOriginReader i 0)).
  replace (length (Log.segments l)) with (length (stores_bytes l d))
    by (unfold stores_bytes; by rewrite length_fmap).
  apply (remaining_from_start (stores_bytes l d) []).
Qed.

(** X23. Reading from the reader of [Reader] gives the bytes of the stores,
    segment after segment and those included that the writers still hold,
    whatever the lengths of the buffers: every call without error adds at
    least one byte, [io.EOF] comes when all bytes have been read and comes
    after at most one call for every byte and one more. The reads leave
    the bytes and the answers of the log as they were. *)
Theorem Reader_reads_the_stores dir c l d ns :
  is_u64 (InitialOffset (Segment c)) ->
  reachable dir c (l, d) ->
  Forall (fun n => (0 < n)%nat) ns ->
  exists bs l' d' e,
    reads ns (Log.Reader l) l d = (bs, l', d', e) /\
    bs `prefix_of` log_bytes l d /\
    (e = None \/ (e = Some (Err EOF) /\ bs = log_bytes l d)) /\
    ((length (log_bytes l d) < length ns)%nat -> e = Some (Err EOF)) /\
    log_bytes l' d' = log_bytes l d /\
    forall off, (Log.Read l' off d').2 = (Log.Read l off d).2.
Proof.
  intros Hio Hreach Hns.
  destruct (reachable_log_ok _ _ _ _ Hio Hreach) as (cs & Hok).
  destruct (reads_rep ns (Log.Reader l) l d cs Hok Hns (Reader_inside l d))
    as (bs & l' & d' & e & Hrd & Hok' & Hsb & Hb & Hnx & Hpre & He & Hlen).
  rewrite Reader_remaining in *.
  exists bs, l', d', e. split_and!; try done.
  - unfold log_bytes. by rewrite Hsb.
  - by apply (same_answers l d l' d' cs).
Qed.

End reader.

Lemma Reader_reads_the_stores_witness :
  exists bs l' d' e,
    reads [5; 100; 3; 100]%nat (Log.Reader two_segments.1)
      two_segments.1 two_segments.2 = (bs, l', d', e) /\
    bs `prefix_of` log_bytes two_segments.1 two_segments.2 /\
    (e = None \/
     (e = Some (Err EOF) /\ bs = log_bytes two_segments.1 two_segments.2)) /\
    ((length (log_bytes two_segments.1 two_segments.2)
      < length [5; 100; 3; 100]%nat)%nat -> e = Some (Err EOF)) /\
    log_bytes l' d' = log_bytes two_segments.1 two_segments.2 /\
    forall off, (Log.Read l' off d').2
                = (Log.Read two_segments.1 off two_segments.2).2.
Proof.
  apply (Reader_reads_the_stores "data" (caps 1024 36 0)
           two_segments.1 two_segments.2 [5; 100; 3; 100]%nat).
  - unfold is_u64. simpl. lia.
  - apply reachable_pair. unfold two_segments.
    apply reachable_runs; vm_compute; reflexivity.
  - repeat constructor.
Defined.

(** ** The streams of the server *)

Section streams.
Context `{Codec} `{!CodecLaws}.
Variable Authorize : string -> string -> string -> bool.

(** The turns of [ConsumeStream] on a stream that stays alive: the records
    from the offset of the request on, up to the first offset that is out of
    range, where the loop turns without end. *)
Lemma ConsumeStream_rep sub fuel : forall l d cs st o,
  log_ok l d cs -> 0 <= o < 2 ^ 64 ->
  Server.subject_value st = Some sub ->
  Authorize sub Server.objectWildcard Server.consumeAction = true ->
  Server.alive st = None -> Server.sendable st = None ->
  exists l' d' recs,
    Server.ConsumeStream Authorize fuel o st l d
    = (l', d',
       Server.mkStream (Some sub) None None (Server.sent st ++ recs),
       o + Z.of_nat (length recs), None) /\
    log_ok l' d' cs /\
    (forall off, (Log.Read l' off d').2 = (Log.Read l off d).2) /\
    (length recs <= fuel)%nat /\
    Forall2 (fun rec off => (Log.Read l off d).2 = Ok rec)
      recs (seqZ o (Z.of_nat (length recs))) /\
    ((length recs < fuel)%nat ->
     (Log.Read l (o + Z.of_nat (length recs)) d).2
     = Err (ErrOffsetOutOfRange (o + Z.of_nat (length recs)))).
Proof.
  induction fuel as [|fuel IH]; intros l d cs st o Hok Ho Hsub Hauth Halive Hsend.
  { exists l, d, []. destruct st as [sv al se sn]. simpl in *. subst.
    rewrite app_nil_r, Z.add_0_r. split_and!; try done. lia. }
  cbn [Server.ConsumeStream]. rewrite Halive. cbn [Server.tick].
  unfold Server.Consume. cbn [Server.subject_value]. rewrite Hsub.
  cbn [Server.subject]. rewrite Hauth.
  destruct (Log.Read l o d) as [[l1 d1] res] eqn:Hread.
  destruct (Read_same _ _ _ _ _ _ _ Hok Hread) as (Hok1 & _ & _ & Hsame).
  pose proof (f_equal snd Hread) as Hres. simpl in Hres.
  destruct (Read_answer l d cs o Hok) as [(rec & Hh & Heq)|[_ Heq]];
    rewrite Heq in Hres; subst res.
  - assert (o + 1 < 2 ^ 64) as Hnext.
    { destruct (holds_covers _ _ _ _ _ Hok Hh)
        as (k & s & rs & j & _ & _ & _ & _ & Hsok & [_ Hlt]).
      pose proof (sg_bound _ _ _ Hsok). lia. }
    unfold Server.Send. cbn [Server.sendable]. rewrite Hsend.
    cbn [Server.tick Server.subject_value Server.alive Server.sent].
    rewrite u64_id by lia.
    destruct (IH l1 d1 cs
                (Server.mkStream (Some sub) None None
                   (Server.sent st ++ [rec])) (o + 1) Hok1 ltac:(lia)
                eq_refl Hauth eq_refl eq_refl)
      as (l2 & d2 & recs & Hrun & Hok2 & Hsame2 & Hlen & Hall & Hstop).
    exists l2, d2, (rec :: recs). rewrite Hrun.
    cbn [Server.sent length]. rewrite <- app_assoc. simpl app.
    replace (o + 1 + Z.of_nat (length recs))
      with (o + Z.of_nat (S (length recs))) in * by lia.
    split_and!; try done.
    + intros off. by rewrite Hsame2, Hsame.
    + lia.
    + rewrite seqZ_cons by lia. constructor; [done|].
      replace (Z.pred (Z.of_nat (S (length recs))))
        with (Z.of_nat (length recs)) by lia.
      replace (Z.succ o) with (o + 1) by lia.
      eapply Forall2_impl; [exact Hall|]. intros r off Hr. simpl in Hr.
      by rewrite <- Hsame.
    + intros Hlt. rewrite <- Hsame. apply Hstop. lia.
  - destruct (IH l1 d1 cs
                (Server.mkStream (Some sub) None
                   (Server.sendable st) (Server.sent st)) o Hok1 Ho
                eq_refl Hauth eq_refl Hsend)
      as (l2 & d2 & recs & Hrun & Hok2 & Hsame2 & Hlen & Hall & Hstop).
    assert (recs = []) as ->.
    { destruct recs as [|r recs]; [done|].
      rewrite seqZ_cons in Hall by (simpl; lia).
      apply Forall2_cons in Hall as [Hr _]. rewrite Hsame, Heq in Hr. done. }
    exists l2, d2, []. rewrite Hrun. simpl. rewrite Z.add_0_r.
    split_and!; try done.
    + intros off. by rewrite Hsame2, Hsame.
    + lia.
Qed.

(** X25. [ConsumeStream] on a log of a run that no one appends to, for a
    subject that may consume and on a stream that is not cancelled and
    takes every response: it sends the records from the offset of the
    request on, in the order of their offsets and each one once, and never
    returns; at the first offset that is out of range, be it behind the last
    record or below the first one that a truncation has left, it turns
    without sending. It changes no answer of the log. *)
Theorem ConsumeStream_sends_in_order dir c l d sub st o fuel :
  is_u64 (InitialOffset (Segment c)) ->
  reachable dir c (l, d) -> is_u64 o ->
  Server.subject_value st = Some sub ->
  Authorize sub Server.objectWildcard Server.consumeAction = true ->
  Server.alive st = None -> Server.sendable st = None ->
  exists l' d' st' recs,
    Server.ConsumeStream Authorize fuel o st l d
    = (l', d', st', o + Z.of_nat (length recs), None) /\
    Server.sent st' = Server.sent st ++ recs /\
    (length recs <= fuel)%nat /\
    Forall2 (fun rec off => (Log.Read l off d).2 = Ok rec /\ Offset rec = off)
      recs (seqZ o (Z.of_nat (length recs))) /\
    ((length recs < fuel)%nat ->
     (Log.Read l (o + Z.of_nat (length recs)) d).2
     = Err (ErrOffsetOutOfRange (o + Z.of_nat (length recs)))) /\
    forall off, (Log.Read l' off d').2 = (Log.Read l off d).2.
Proof.
  intros Hio Hreach Ho Hsub Hauth Halive Hsend.
  destruct (reachable_log_ok _ _ _ _ Hio Hreach) as (cs & Hok).
  destruct (ConsumeStream_rep sub fuel l d cs st o Hok Ho Hsub Hauth Halive Hsend)
    as (l' & d' & recs & Hrun & Hok' & Hsame & Hlen & Hall & Hstop).
  eexists l', d', _, recs. split; [exact Hrun|].
  split_and!; try done.
  apply (Forall2_impl _ _ _ _ Hall). intros rec off Hr. simpl in Hr.
  split; [done|].
  destruct (Read_answer l d cs off Hok) as [(rec' & Hh & Heq)|[_ Heq]];
    rewrite Heq in Hr; [|done].
  injection Hr as Hr. subst rec'. exact (holds_Offset l d cs off rec Hok Hh).
Qed.

(** The requests of [ProduceStream], as long as [Append] returns no
    error. *)
Lemma ProduceStream_rep sub reqs : forall l d cs (st : Server.stream Z),
  log_ok l d cs -> limits_hold reqs l d ->
  Server.subject_value st = Some sub ->
  Authorize sub Server.objectWildcard Server.produceAction = true ->
  Server.sendable st = None ->
  exists l' d' cs' offs res first,
    Server.ProduceStream Authorize reqs st l d
    = (l', d',
       Server.mkStream (Some sub) (Server.alive st) None
         (Server.sent st ++ offs), res) /\
    log_ok l' d' cs' /\
    (forall o rec, holds l cs o rec -> holds l' cs' o rec) /\
    last (Segment.nextOffset <$> Log.segments l) = Some first /\
    offs = seqZ first (Z.of_nat (length offs)) /\
    Forall2 (fun off r => holds l' cs' off (mkRecord (Value r) off))
      offs (take (length offs) reqs) /\
    ((res = Server.Reply tt /\ length offs = length reqs) \/
     (exists e, res = Server.Fail (Server.OfLog e)) /\
     (length offs < length reqs)%nat).
Proof.
  induction reqs as [|r reqs IH]; intros l d cs st Hok Hlim Hsub Hauth Hsend.
  { pose proof (lo_nonempty _ _ _ Hok) as Hne.
    destruct (last (Segment.nextOffset <$> Log.segments l)) as [first|] eqn:Hlast.
    2:{ apply last_None in Hlast. apply fmap_nil_inv in Hlast. done. }
    exists l, d, cs, [], (Server.Reply tt), first.
    destruct st as [sv al se sn]. simpl in *. subst. rewrite app_nil_r.
    split_and!; try done. by left. }
  destruct Hlim as [Hlim1 Hlims].
  cbn [Server.ProduceStream]. unfold Server.Produce.
  rewrite Hsub. cbn [Server.subject]. rewrite Hauth.
  destruct (Log.Append l r d) as [[[l1 d1] r1] [off res1]] eqn:Happ.
  simpl in Hlims.
  destruct (log_ok_Append _ _ _ _ _ _ _ _ _ Hok Hlim1 Happ)
    as (cs1 & Hok1 & Hkeep1 & Hres1).
  destruct res1 as [[]|e|]; [| |done].
  - destruct Hres1 as (-> & Hnew & _).
    destruct (Append_offsets _ _ _ _ _ _ _ _ Hok Hlim1 Happ)
      as (Hoff0 & Hoff1 & Hlast & Hlast1 & _).
    unfold Server.Send. rewrite Hsend.
    cbn [Server.tick Server.subject_value Server.alive Server.sent].
    rewrite ?Hsub.
    destruct (IH l1 d1 cs1
                (Server.mkStream (Some sub) (Server.alive st)
                   None (Server.sent st ++ [off])) Hok1 Hlims eq_refl Hauth eq_refl)
      as (l2 & d2 & cs2 & offs & res & first & Hrun & Hok2 & Hkeep2 & Hfirst
          & Hoffs & Hall & Hres).
    rewrite Hlast1 in Hfirst. injection Hfirst as <-.
    exists l2, d2, cs2, (off :: offs), res, off. rewrite Hrun.
    cbn [Server.sent Server.alive length]. rewrite <- app_assoc. simpl app.
    split_and!; try done.
    + intros o rec Hh. by apply Hkeep2, Hkeep1.
    + rewrite seqZ_cons by lia. f_equal.
      replace (Z.pred (Z.of_nat (S (length offs))))
        with (Z.of_nat (length offs)) by lia.
      replace (Z.succ off) with (off + 1) by lia. exact Hoffs.
    + simpl. constructor; [by apply Hkeep2|done].
    + destruct Hres as [[-> Hn]|[He Hn]]; [left|right]; simpl;
        (split; [done|lia]).
  - destruct (last (Segment.nextOffset <$> Log.segments l)) as [first|] eqn:Hlast.
    2:{ apply last_None in Hlast. apply fmap_nil_inv in Hlast.
        by destruct (lo_nonempty _ _ _ Hok). }
    exists l1, d1, cs1, [], (Server.Fail (Server.OfLog e)), first.
    destruct st as [sv al se sn]. simpl in *. subst. rewrite app_nil_r.
    split_and!; try done. right. split; [by eexists|lia].
Qed.

(** X26. [ProduceStream] on a log of a run, for a subject that may produce
    and on a stream that takes every response: it answers the requests in
    their order with offsets that follow one another from the next offset of
    the log on, each request that is answered is read from the log under the
    offset of its answer, and the records that the log gave before are still
    given. It returns [nil] when every request has been answered, and the
    error of the first [Append] that fails otherwise. *)
Theorem ProduceStream_acknowledges dir c l d sub (st : Server.stream Z) reqs :
  is_u64 (InitialOffset (Segment c)) ->
  reachable dir c (l, d) -> limits_hold reqs l d ->
  Server.subject_value st = Some sub ->
  Authorize sub Server.objectWildcard Server.produceAction = true ->
  Server.sendable st = None ->
  exists l' d' st' res offs first,
    Server.ProduceStream Authorize reqs st l d = (l', d', st', res) /\
    Server.sent st' = Server.sent st ++ offs /\
    Segment.nextOffset <$> last (Log.segments l) = Some first /\
    offs = seqZ first (Z.of_nat (length offs)) /\
    ((res = Server.Reply tt /\ length offs = length reqs) \/
     (exists e, res = Server.Fail (Server.OfLog e)) /\
     (length offs < length reqs)%nat) /\
    (forall i off r, offs !! i = Some off -> reqs !! i = Some r ->
       (Log.Read l' off d').2 = Ok (mkRecord (Value r) off)) /\
    (forall off rec,
       (Log.Read l off d).2 = Ok rec -> (Log.Read l' off d').2 = Ok rec).
Proof.
  intros Hio Hreach Hlim Hsub Hauth Hsend.
  destruct (reachable_log_ok _ _ _ _ Hio Hreach) as (cs & Hok).
  destruct (ProduceStream_rep sub reqs l d cs st Hok Hlim Hsub Hauth Hsend)
    as (l' & d' & cs' & offs & res & first & Hrun & Hok' & Hkeep & Hfirst
        & Hoffs & Hall & Hres).
  eexists l', d', _, res, offs, first. split; [exact Hrun|].
  split_and!; try done.
  - by rewrite <- fmap_last.
  - intros i off r Hi Hr.
    assert (take (length offs) reqs !! i = Some r) as Hr'.
    { rewrite lookup_take_lt; [done|]. by eapply lookup_lt_Some. }
    pose proof (Forall2_lookup_lr _ _ _ _ _ _ Hall Hi Hr') as Hh.
    by apply (holds_Read _ _ cs').
  - intros off rec Hread.
    destruct (Read_answer l d cs off Hok) as [(rec' & Hh & Heq)|[_ Heq]];
      rewrite Heq in Hread; [|done].
    injection Hread as ->. apply (holds_Read _ _ cs'); [done|]. by apply Hkeep.
Qed.

End streams.

Lemma ConsumeStream_sends_in_order_witness :
  exists l' d' st' recs,
    Server.ConsumeStream root_only 5 1 live_stream
      two_segments.1 two_segments.2
    = (l', d', st', 1 + Z.of_nat (length recs), None) /\
    Server.sent st' = Server.sent live_stream ++ recs /\
    (length recs <= 5)%nat /\
    Forall2 (fun rec off =>
               (Log.Read two_segments.1 off two_segments.2).2 = Ok rec /\
               Offset rec = off)
      recs (seqZ 1 (Z.of_nat (length recs))) /\
    ((length recs < 5)%nat ->
     (Log.Read two_segments.1 (1 + Z.of_nat (length recs)) two_segments.2).2
     = Err (ErrOffsetOutOfRange (1 + Z.of_nat (length recs)))) /\
    forall off,
      (Log.Read l' off d').2
      = (Log.Read two_segments.1 off two_segments.2).2.
Proof.
  apply (ConsumeStream_sends_in_order root_only "data" (caps 1024 36 0)
           two_segments.1 two_segments.2 "root" live_stream 1 5).
  - unfold is_u64. simpl. lia.
  - apply reachable_pair. unfold two_segments.
    apply reachable_runs; vm_compute; reflexivity.
  - unfold is_u64. lia.
  - reflexivity.
  - reflexivity.
  - reflexivity.
  - reflexivity.
Defined.

Lemma ProduceStream_acknowledges_witness :
  exists l' d' st' res offs first,
    Server.ProduceStream root_only [payload "a"; payload "b"] live_stream
      two_records.1 two_records.2 = (l', d', st', res) /\
    Server.sent st' = Server.sent live_stream ++ offs /\
    Segment.nextOffset <$> last (Log.segments two_records.1) = Some first /\
    offs = seqZ first (Z.of_nat (length offs)) /\
    ((res = Server.Reply tt /\
      length offs = length [payload "a"; payload "b"]) \/
     (exists e, res = Server.Fail (Server.OfLog e)) /\
     (length offs < length [payload "a"; payload "b"])%nat) /\
    (forall i off r, offs !! i = Some off ->
       [payload "a"; payload "b"] !! i = Some r ->
       (Log.Read l' off d').2 = Ok (mkRecord (Value r) off)) /\
    (forall off rec,
       (Log.Read two_records.1 off two_records.2).2 = Ok rec ->
       (Log.Read l' off d').2 = Ok rec).
Proof.
  apply (ProduceStream_acknowledges root_only "data" (caps 1024 36 0)
           two_records.1 two_records.2 "root" live_stream
           [payload "a"; payload "b"]).
  - unfold is_u64. simpl. lia.
  - apply reachable_pair. unfold two_records.
    apply reachable_runs; vm_compute; reflexivity.
  - cbn [limits_hold]. split_and!; [| |exact I];
      apply within_limitsb_sound; vm_compute; reflexivity.
  - reflexivity.
  - reflexivity.
  - reflexivity.
Defined.
